(** * Clovio video call: signaling and peer-connection orchestration

    A shallow embedding of the [VideoCall] React component (the client side of
    the call subsystem): its refs and state variables become one record, every
    callback becomes a state transformer in a small state-and-exception monad,
    and everything the component asks of the browser (sockets, timers, peer
    connections, capture devices, toasts) is recorded in an effect log.

    Conventions of the embedding:
    - a callback runs to completion before the next browser event is taken:
      the promises it awaits are settled in place, and a [.then]/[.catch]
      reaction runs where it is attached;
    - what the browser answers (getUserMedia results, device enumeration,
      success of a negotiation step) is an input of the callback or is read
      from the [Browser] oracle of the section;
    - a toast is an effect like any other: the call is recorded and returns;
    - the video element, [console.log] and friends are not recorded. *)

From Stdlib Require Import String ZArith Lia Bool.
From stdpp Require Import base list strings gmap.

Local Open Scope string_scope.
Local Open Scope list_scope.

(** ** Data *)

(** [MediaStreamTrack.kind] *)
Inductive Kind := audio | video.

Definition Kind_eqb (a b : Kind) : bool :=
  match a, b with
  | audio, audio | video, video => true
  | _, _ => false
  end.

(** A captured track; [tid] stands for the identity of the JS object. *)
Record Track := { tkind : Kind; tid : nat }.

Definition Track_eqb (a b : Track) : bool :=
  Kind_eqb (tkind a) (tkind b) && Nat.eqb (tid a) (tid b).

(** A [MediaStream] is the list of its tracks. *)
Definition MediaStream := list Track.

Definition getAudioTracks (m : MediaStream) : list Track :=
  filter (fun t => Kind_eqb (tkind t) audio = true) m.

Definition getVideoTracks (m : MediaStream) : list Track :=
  filter (fun t => Kind_eqb (tkind t) video = true) m.

(** [MediaStream.addTrack]: a track already in the stream is not added twice. *)
Definition stream_addTrack (t : Track) (m : MediaStream) : MediaStream :=
  if existsb (Track_eqb t) m then m else m ++ [t].

(** Session descriptions and candidates are opaque payloads. *)
Inductive DescType := offer | answer.
Record Desc := { dtype : DescType; sdp : string }.
Definition Candidate := string.

(** Participant descriptor carried by [room_info], [user_joined], [user_left]. *)
Record Participant := { user_id : string; user_name : string }.

(** [WebSocket.readyState] *)
Inductive ReadyState := CONNECTING | OPEN | CLOSING | CLOSED.

(** [RTCPeerConnection.connectionState] *)
Inductive ConnectionState :=
  cs_new | cs_connecting | cs_connected | cs_disconnected | cs_failed | cs_closed.

(** An [RTCRtpSender] is its (nullable) track. *)
Definition Sender := option Track.

(** The part of an [RTCPeerConnection] the component reads or writes. *)
Record PeerConn := {
  senders : list Sender;
  localDescription : option Desc;
  remoteDescription : option Desc;
  iceCandidates : list Candidate
}.

Definition newPeerConn : PeerConn :=
  {| senders := []; localDescription := None; remoteDescription := None;
     iceCandidates := [] |}.

Definition pc_with_senders (f : list Sender -> list Sender) (pc : PeerConn) :=
  {| senders := f (senders pc); localDescription := localDescription pc;
     remoteDescription := remoteDescription pc; iceCandidates := iceCandidates pc |}.

Definition pc_with_local (d : option Desc) (pc : PeerConn) :=
  {| senders := senders pc; localDescription := d;
     remoteDescription := remoteDescription pc; iceCandidates := iceCandidates pc |}.

Definition pc_with_remote (d : option Desc) (pc : PeerConn) :=
  {| senders := senders pc; localDescription := localDescription pc;
     remoteDescription := d; iceCandidates := iceCandidates pc |}.

Definition pc_with_candidate (c : Candidate) (pc : PeerConn) :=
  {| senders := senders pc; localDescription := localDescription pc;
     remoteDescription := remoteDescription pc;
     iceCandidates := iceCandidates pc ++ [c] |}.

(** Messages received on the signaling socket (after [JSON.parse]).  [to] is
    kept on the three relayed kinds because the dispatcher reads it on one. *)
Inductive InMsg :=
| room_info (participants : option (list Participant))
| user_joined (user : Participant)
| user_left (user : Participant)
| in_offer (from : string) (to : option string) (o : Desc)
| in_answer (from : string) (to : option string) (a : Desc)
| ice_candidate (from : string) (to : option string) (c : Candidate)
| user_audio_toggled (uid : string) (audio_enabled : bool)
| user_video_toggled (uid : string) (video_enabled : bool)
| unknown_type (type : string).

(** Messages the component sends ([JSON.stringify] of an object literal). *)
Inductive OutMsg :=
| out_offer (o : option Desc) (to : string)
| out_answer (a : Desc) (to : string)
| out_ice_candidate (c : Candidate) (to : string)
| out_toggle_audio (b : bool)
| out_toggle_video (b : bool).

(** Constraints passed to [getUserMedia]. *)
Inductive Constraints :=
| audio_processing      (* echoCancellation, noiseSuppression, autoGainControl *)
| audio_optimal         (* the same plus sampleRate and channelCount hints *)
| audio_true            (* { audio: true } *)
| video_hd              (* 1280x720, facingMode user *)
| audio_and_video.      (* both of the above in one request *)

Inductive ToastLevel := t_success | t_error | t_info | t_warning.

(** What the component asks of the outside world. *)
Inductive Effect :=
| ENewPeerConnection (peerId : string)
| EClosePeerConnection (peerId : string)
| EAddTrack (peerId : string) (t : Track)
| EReplaceTrack (peerId : string) (old new : Track)
| ERemoveTrack (peerId : string) (t : Track)
| ENewWebSocket (sock : nat) (room : string)
| ECloseSocket (sock : nat)
| ESend (sock : nat) (m : OutMsg)
| ESetTimeout (timer : nat) (delay : Z)
| EClearTimeout (timer : nat)
| EGetUserMedia (c : Constraints)
| EEnumerateDevices
| EStopTrack (t : Track)
| ESetTrackEnabled (t : Track) (b : bool)
| EToast (level : ToastLevel) (text : string)
| EOnClose.

(** A timer armed with [setTimeout]: what it runs when it fires. *)
Inductive TimerAction :=
| ReconnectTimer (room : string)       (* scheduleReconnect *)
| ConnectTimeout (sock : nat)          (* the 10 s guard of connectWebSocket *)
| InitRetryTimer (room : string).      (* the 3 s retry of initializeCall *)

Record Timer := { t_delay : Z; t_action : TimerAction; t_armed : bool }.

(** Who awaits the promise returned by [connectWebSocket]. *)
Inductive Waiter :=
| W_initializeCall      (* awaited in initializeCall: toast, then a 3 s retry *)
| W_retry               (* the retry: [.catch] with a toast *)
| W_fallback            (* outer catch of initializeCall: [.catch] with a toast *)
| W_none.               (* scheduleReconnect: the promise is dropped *)

(** A [WebSocket] created by [connectWebSocket], with what its callbacks
    close over: the room and the promise's resolve/reject. *)
Record Socket := {
  ws_state : ReadyState;
  ws_room : string;
  ws_waiter : Waiter;
  ws_settled : bool
}.

Definition sock_with_state (r : ReadyState) (k : Socket) : Socket :=
  {| ws_state := r; ws_room := ws_room k; ws_waiter := ws_waiter k;
     ws_settled := ws_settled k |}.

Definition sock_settle (k : Socket) : Socket :=
  {| ws_state := ws_state k; ws_room := ws_room k; ws_waiter := ws_waiter k;
     ws_settled := true |}.

Definition timer_disarm (t : Timer) : Timer :=
  {| t_delay := t_delay t; t_action := t_action t; t_armed := false |}.

(** What [getUserMedia] answers: a stream, or an error with its [name]. *)
Inductive GumResult :=
| GumOk (m : MediaStream)
| GumErr (name : string) (message : string).

(** [MediaDeviceInfo.kind] *)
Inductive DeviceKind := audioinput | audiooutput | videoinput.

(** What device enumeration answers. *)
Inductive EnumResult :=
| EnumUnsupported                       (* no mediaDevices.enumerateDevices *)
| EnumErr                               (* enumerateDevices rejects *)
| EnumOk (devices : list DeviceKind).

(** What the room-info request answers. *)
Inductive ApiResult :=
| ApiOk (room_id : string)
| ApiErr (status : option Z).           (* error.response?.status *)

(** ** The JS Map of peer connections

    [Map] keeps insertion order, and [forEach] walks it in that order; [set]
    on a present key replaces the value in place. *)
Section JsMap.
Context {V : Type}.

Fixpoint map_get (k : string) (m : list (string * V)) : option V :=
  match m with
  | [] => None
  | (k', v) :: m' => if String.eqb k k' then Some v else map_get k m'
  end.

Definition map_has (k : string) (m : list (string * V)) : bool :=
  match map_get k m with Some _ => true | None => false end.

Fixpoint map_set (k : string) (v : V) (m : list (string * V)) : list (string * V) :=
  match m with
  | [] => [(k, v)]
  | (k', v') :: m' =>
      if String.eqb k k' then (k', v) :: m' else (k', v') :: map_set k v m'
  end.

Fixpoint map_delete (k : string) (m : list (string * V)) : list (string * V) :=
  match m with
  | [] => []
  | (k', v') :: m' =>
      if String.eqb k k' then map_delete k m' else (k', v') :: map_delete k m'
  end.

Definition map_keys (m : list (string * V)) : list string := map fst m.
End JsMap.

(** ** Component state: the [useState] variables, the refs, and the browser
    objects they point to. *)
Record State := {
  selfId : string;                          (* String(user?.id) *)
  roomId : option string;
  isConnected : bool;
  localStream : option MediaStream;
  remoteStreams : gmap string nat;
  audioEnabled : bool;
  videoEnabled : bool;
  participants : list Participant;
  micPermissionDenied : bool;
  cameraPermissionDenied : bool;
  isRequestingPermissions : bool;
  micDeviceAvailable : option bool;         (* boolean | null *)
  wsRef : option nat;                       (* index into [sockets] *)
  peersRef : list (string * PeerConn);
  localStreamRef : option MediaStream;
  reconnectTimeoutRef : option nat;         (* index into [timers] *)
  sockets : list Socket;                    (* every WebSocket created so far *)
  timers : list Timer;                      (* every setTimeout so far *)
  log : list Effect
}.

Definition initialState (uid : string) : State :=
  {| selfId := uid; roomId := None; isConnected := false; localStream := None;
     remoteStreams := ∅; audioEnabled := true; videoEnabled := true;
     participants := []; micPermissionDenied := false;
     cameraPermissionDenied := false; isRequestingPermissions := true;
     micDeviceAvailable := None; wsRef := None; peersRef := [];
     localStreamRef := None; reconnectTimeoutRef := None; sockets := [];
     timers := []; log := [] |}.

(** Field updates (one per variable the callbacks assign). *)
Definition set_roomId (v : option string) (s : State) : State :=
  {| selfId := selfId s; roomId := v; isConnected := isConnected s;
     localStream := localStream s; remoteStreams := remoteStreams s;
     audioEnabled := audioEnabled s; videoEnabled := videoEnabled s;
     participants := participants s; micPermissionDenied := micPermissionDenied s;
     cameraPermissionDenied := cameraPermissionDenied s;
     isRequestingPermissions := isRequestingPermissions s;
     micDeviceAvailable := micDeviceAvailable s; wsRef := wsRef s;
     peersRef := peersRef s; localStreamRef := localStreamRef s;
     reconnectTimeoutRef := reconnectTimeoutRef s; sockets := sockets s;
     timers := timers s; log := log s |}.

Definition set_isConnected (v : bool) (s : State) : State :=
  {| selfId := selfId s; roomId := roomId s; isConnected := v;
     localStream := localStream s; remoteStreams := remoteStreams s;
     audioEnabled := audioEnabled s; videoEnabled := videoEnabled s;
     participants := participants s; micPermissionDenied := micPermissionDenied s;
     cameraPermissionDenied := cameraPermissionDenied s;
     isRequestingPermissions := isRequestingPermissions s;
     micDeviceAvailable := micDeviceAvailable s; wsRef := wsRef s;
     peersRef := peersRef s; localStreamRef := localStreamRef s;
     reconnectTimeoutRef := reconnectTimeoutRef s; sockets := sockets s;
     timers := timers s; log := log s |}.

Definition set_localStream (v : option MediaStream) (s : State) : State :=
  {| selfId := selfId s; roomId := roomId s; isConnected := isConnected s;
     localStream := v; remoteStreams := remoteStreams s;
     audioEnabled := audioEnabled s; videoEnabled := videoEnabled s;
     participants := participants s; micPermissionDenied := micPermissionDenied s;
     cameraPermissionDenied := cameraPermissionDenied s;
     isRequestingPermissions := isRequestingPermissions s;
     micDeviceAvailable := micDeviceAvailable s; wsRef := wsRef s;
     peersRef := peersRef s; localStreamRef := localStreamRef s;
     reconnectTimeoutRef := reconnectTimeoutRef s; sockets := sockets s;
     timers := timers s; log := log s |}.

Definition set_remoteStreams (v : gmap string nat) (s : State) : State :=
  {| selfId := selfId s; roomId := roomId s; isConnected := isConnected s;
     localStream := localStream s; remoteStreams := v;
     audioEnabled := audioEnabled s; videoEnabled := videoEnabled s;
     participants := participants s; micPermissionDenied := micPermissionDenied s;
     cameraPermissionDenied := cameraPermissionDenied s;
     isRequestingPermissions := isRequestingPermissions s;
     micDeviceAvailable := micDeviceAvailable s; wsRef := wsRef s;
     peersRef := peersRef s; localStreamRef := localStreamRef s;
     reconnectTimeoutRef := reconnectTimeoutRef s; sockets := sockets s;
     timers := timers s; log := log s |}.

Definition set_audioEnabled (v : bool) (s : State) : State :=
  {| selfId := selfId s; roomId := roomId s; isConnected := isConnected s;
     localStream := localStream s; remoteStreams := remoteStreams s;
     audioEnabled := v; videoEnabled := videoEnabled s;
     participants := participants s; micPermissionDenied := micPermissionDenied s;
     cameraPermissionDenied := cameraPermissionDenied s;
     isRequestingPermissions := isRequestingPermissions s;
     micDeviceAvailable := micDeviceAvailable s; wsRef := wsRef s;
     peersRef := peersRef s; localStreamRef := localStreamRef s;
     reconnectTimeoutRef := reconnectTimeoutRef s; sockets := sockets s;
     timers := timers s; log := log s |}.

Definition set_videoEnabled (v : bool) (s : State) : State :=
  {| selfId := selfId s; roomId := roomId s; isConnected := isConnected s;
     localStream := localStream s; remoteStreams := remoteStreams s;
     audioEnabled := audioEnabled s; videoEnabled := v;
     participants := participants s; micPermissionDenied := micPermissionDenied s;
     cameraPermissionDenied := cameraPermissionDenied s;
     isRequestingPermissions := isRequestingPermissions s;
     micDeviceAvailable := micDeviceAvailable s; wsRef := wsRef s;
     peersRef := peersRef s; localStreamRef := localStreamRef s;
     reconnectTimeoutRef := reconnectTimeoutRef s; sockets := sockets s;
     timers := timers s; log := log s |}.

Definition set_participants (v : list Participant) (s : State) : State :=
  {| selfId := selfId s; roomId := roomId s; isConnected := isConnected s;
     localStream := localStream s; remoteStreams := remoteStreams s;
     audioEnabled := audioEnabled s; videoEnabled := videoEnabled s;
     participants := v; micPermissionDenied := micPermissionDenied s;
     cameraPermissionDenied := cameraPermissionDenied s;
     isRequestingPermissions := isRequestingPermissions s;
     micDeviceAvailable := micDeviceAvailable s; wsRef := wsRef s;
     peersRef := peersRef s; localStreamRef := localStreamRef s;
     reconnectTimeoutRef := reconnectTimeoutRef s; sockets := sockets s;
     timers := timers s; log := log s |}.

Definition set_micPermissionDenied (v : bool) (s : State) : State :=
  {| selfId := selfId s; roomId := roomId s; isConnected := isConnected s;
     localStream := localStream s; remoteStreams := remoteStreams s;
     audioEnabled := audioEnabled s; videoEnabled := videoEnabled s;
     participants := participants s; micPermissionDenied := v;
     cameraPermissionDenied := cameraPermissionDenied s;
     isRequestingPermissions := isRequestingPermissions s;
     micDeviceAvailable := micDeviceAvailable s; wsRef := wsRef s;
     peersRef := peersRef s; localStreamRef := localStreamRef s;
     reconnectTimeoutRef := reconnectTimeoutRef s; sockets := sockets s;
     timers := timers s; log := log s |}.

Definition set_cameraPermissionDenied (v : bool) (s : State) : State :=
  {| selfId := selfId s; roomId := roomId s; isConnected := isConnected s;
     localStream := localStream s; remoteStreams := remoteStreams s;
     audioEnabled := audioEnabled s; videoEnabled := videoEnabled s;
     participants := participants s; micPermissionDenied := micPermissionDenied s;
     cameraPermissionDenied := v;
     isRequestingPermissions := isRequestingPermissions s;
     micDeviceAvailable := micDeviceAvailable s; wsRef := wsRef s;
     peersRef := peersRef s; localStreamRef := localStreamRef s;
     reconnectTimeoutRef := reconnectTimeoutRef s; sockets := sockets s;
     timers := timers s; log := log s |}.

Definition set_isRequestingPermissions (v : bool) (s : State) : State :=
  {| selfId := selfId s; roomId := roomId s; isConnected := isConnected s;
     localStream := localStream s; remoteStreams := remoteStreams s;
     audioEnabled := audioEnabled s; videoEnabled := videoEnabled s;
     participants := participants s; micPermissionDenied := micPermissionDenied s;
     cameraPermissionDenied := cameraPermissionDenied s;
     isRequestingPermissions := v; micDeviceAvailable := micDeviceAvailable s;
     wsRef := wsRef s; peersRef := peersRef s; localStreamRef := localStreamRef s;
     reconnectTimeoutRef := reconnectTimeoutRef s; sockets := sockets s;
     timers := timers s; log := log s |}.

Definition set_micDeviceAvailable (v : option bool) (s : State) : State :=
  {| selfId := selfId s; roomId := roomId s; isConnected := isConnected s;
     localStream := localStream s; remoteStreams := remoteStreams s;
     audioEnabled := audioEnabled s; videoEnabled := videoEnabled s;
     participants := participants s; micPermissionDenied := micPermissionDenied s;
     cameraPermissionDenied := cameraPermissionDenied s;
     isRequestingPermissions := isRequestingPermissions s; micDeviceAvailable := v;
     wsRef := wsRef s; peersRef := peersRef s; localStreamRef := localStreamRef s;
     reconnectTimeoutRef := reconnectTimeoutRef s; sockets := sockets s;
     timers := timers s; log := log s |}.

Definition set_wsRef (v : option nat) (s : State) : State :=
  {| selfId := selfId s; roomId := roomId s; isConnected := isConnected s;
     localStream := localStream s; remoteStreams := remoteStreams s;
     audioEnabled := audioEnabled s; videoEnabled := videoEnabled s;
     participants := participants s; micPermissionDenied := micPermissionDenied s;
     cameraPermissionDenied := cameraPermissionDenied s;
     isRequestingPermissions := isRequestingPermissions s;
     micDeviceAvailable := micDeviceAvailable s; wsRef := v; peersRef := peersRef s;
     localStreamRef := localStreamRef s;
     reconnectTimeoutRef := reconnectTimeoutRef s; sockets := sockets s;
     timers := timers s; log := log s |}.

Definition set_peersRef (v : list (string * PeerConn)) (s : State) : State :=
  {| selfId := selfId s; roomId := roomId s; isConnected := isConnected s;
     localStream := localStream s; remoteStreams := remoteStreams s;
     audioEnabled := audioEnabled s; videoEnabled := videoEnabled s;
     participants := participants s; micPermissionDenied := micPermissionDenied s;
     cameraPermissionDenied := cameraPermissionDenied s;
     isRequestingPermissions := isRequestingPermissions s;
     micDeviceAvailable := micDeviceAvailable s; wsRef := wsRef s; peersRef := v;
     localStreamRef := localStreamRef s;
     reconnectTimeoutRef := reconnectTimeoutRef s; sockets := sockets s;
     timers := timers s; log := log s |}.

Definition set_localStreamRef (v : option MediaStream) (s : State) : State :=
  {| selfId := selfId s; roomId := roomId s; isConnected := isConnected s;
     localStream := localStream s; remoteStreams := remoteStreams s;
     audioEnabled := audioEnabled s; videoEnabled := videoEnabled s;
     participants := participants s; micPermissionDenied := micPermissionDenied s;
     cameraPermissionDenied := cameraPermissionDenied s;
     isRequestingPermissions := isRequestingPermissions s;
     micDeviceAvailable := micDeviceAvailable s; wsRef := wsRef s;
     peersRef := peersRef s; localStreamRef := v;
     reconnectTimeoutRef := reconnectTimeoutRef s; sockets := sockets s;
     timers := timers s; log := log s |}.

Definition set_reconnectTimeoutRef (v : option nat) (s : State) : State :=
  {| selfId := selfId s; roomId := roomId s; isConnected := isConnected s;
     localStream := localStream s; remoteStreams := remoteStreams s;
     audioEnabled := audioEnabled s; videoEnabled := videoEnabled s;
     participants := participants s; micPermissionDenied := micPermissionDenied s;
     cameraPermissionDenied := cameraPermissionDenied s;
     isRequestingPermissions := isRequestingPermissions s;
     micDeviceAvailable := micDeviceAvailable s; wsRef := wsRef s;
     peersRef := peersRef s; localStreamRef := localStreamRef s;
     reconnectTimeoutRef := v; sockets := sockets s; timers := timers s;
     log := log s |}.

Definition set_sockets (v : list Socket) (s : State) : State :=
  {| selfId := selfId s; roomId := roomId s; isConnected := isConnected s;
     localStream := localStream s; remoteStreams := remoteStreams s;
     audioEnabled := audioEnabled s; videoEnabled := videoEnabled s;
     participants := participants s; micPermissionDenied := micPermissionDenied s;
     cameraPermissionDenied := cameraPermissionDenied s;
     isRequestingPermissions := isRequestingPermissions s;
     micDeviceAvailable := micDeviceAvailable s; wsRef := wsRef s;
     peersRef := peersRef s; localStreamRef := localStreamRef s;
     reconnectTimeoutRef := reconnectTimeoutRef s; sockets := v; timers := timers s;
     log := log s |}.

Definition set_timers (v : list Timer) (s : State) : State :=
  {| selfId := selfId s; roomId := roomId s; isConnected := isConnected s;
     localStream := localStream s; remoteStreams := remoteStreams s;
     audioEnabled := audioEnabled s; videoEnabled := videoEnabled s;
     participants := participants s; micPermissionDenied := micPermissionDenied s;
     cameraPermissionDenied := cameraPermissionDenied s;
     isRequestingPermissions := isRequestingPermissions s;
     micDeviceAvailable := micDeviceAvailable s; wsRef := wsRef s;
     peersRef := peersRef s; localStreamRef := localStreamRef s;
     reconnectTimeoutRef := reconnectTimeoutRef s; sockets := sockets s; timers := v;
     log := log s |}.

Definition set_log (v : list Effect) (s : State) : State :=
  {| selfId := selfId s; roomId := roomId s; isConnected := isConnected s;
     localStream := localStream s; remoteStreams := remoteStreams s;
     audioEnabled := audioEnabled s; videoEnabled := videoEnabled s;
     participants := participants s; micPermissionDenied := micPermissionDenied s;
     cameraPermissionDenied := cameraPermissionDenied s;
     isRequestingPermissions := isRequestingPermissions s;
     micDeviceAvailable := micDeviceAvailable s; wsRef := wsRef s;
     peersRef := peersRef s; localStreamRef := localStreamRef s;
     reconnectTimeoutRef := reconnectTimeoutRef s; sockets := sockets s;
     timers := timers s; log := v |}.

(** ** The browser as an oracle

    Whether a negotiation step on the connection to a given peer succeeds, and
    the session description the browser produces for it. *)
Inductive RtcOp :=
| OpCreateOffer | OpCreateAnswer | OpSetLocalDescription
| OpSetRemoteDescription | OpAddIceCandidate | OpReplaceTrack.

Record Browser := {
  rtc_ok : string -> RtcOp -> bool;
  rtc_sdp : string -> DescType -> string
}.

(** A browser on which every step succeeds. *)
Definition reliable : Browser :=
  {| rtc_ok := fun _ _ => true; rtc_sdp := fun p _ => p |}.

(** ** State and exceptions *)

(** A JS exception: [error.name] and [error.message]. *)
Record JsError := { err_name : string; err_message : string }.

Definition error_named (n : string) : JsError := {| err_name := n; err_message := "" |}.

Inductive Outcome (A : Type) :=
| Done (a : A)
| Thrown (e : JsError).
Arguments Done {A} a.
Arguments Thrown {A} e.

Definition Js (A : Type) : Type := State -> Outcome A * State.

Definition ret {A} (a : A) : Js A := fun s => (Done a, s).

Definition throw {A} (e : JsError) : Js A := fun s => (Thrown e, s).

Definition bind {A B} (m : Js A) (k : A -> Js B) : Js B :=
  fun s => match m s with
           | (Done a, s') => k a s'
           | (Thrown e, s') => (Thrown e, s')
           end.

Definition try_catch {A} (m : Js A) (h : JsError -> Js A) : Js A :=
  fun s => match m s with
           | (Done a, s') => (Done a, s')
           | (Thrown e, s') => h e s'
           end.

Definition gets {A} (f : State -> A) : Js A := fun s => (Done (f s), s).

Definition modify (f : State -> State) : Js unit := fun s => (Done tt, f s).

Notation "x <- m ;; k" := (bind m (fun x => k))
  (at level 100, m at next level, right associativity).
Notation "m ;; k" := (bind m (fun _ => k))
  (at level 100, right associativity).

Fixpoint for_each {A} (l : list A) (f : A -> Js unit) : Js unit :=
  match l with
  | [] => ret tt
  | x :: l' => f x ;; for_each l' f
  end.

(** Final state of a callback; an exception that escapes it is only logged
    to the console (or is an unhandled rejection). *)
Definition exec (m : Js unit) (s : State) : State := snd (m s).

Definition emit (e : Effect) : Js unit :=
  modify (fun s => set_log (log s ++ [e]) s).

Definition toast (l : ToastLevel) (text : string) : Js unit := emit (EToast l text).

(** ** Signaling socket *)

Definition readyState_of (s : State) (i : nat) : option ReadyState :=
  ws_state <$> sockets s !! i.

Definition ReadyState_eqb (a b : ReadyState) : bool :=
  match a, b with
  | CONNECTING, CONNECTING | OPEN, OPEN | CLOSING, CLOSING | CLOSED, CLOSED => true
  | _, _ => false
  end.

(** [wsRef.current?.readyState === st] *)
Definition ws_readyState_is (st : ReadyState) (s : State) : bool :=
  match wsRef s with
  | Some i => match readyState_of s i with
              | Some r => ReadyState_eqb r st
              | None => false
              end
  | None => false
  end.

(** [wsRef.current?.send(...)]: nothing without a socket; [WebSocket.send]
    throws while the socket is connecting and drops the data once it is
    closing or closed. *)
Definition ws_send (m : OutMsg) : Js unit :=
  w <- gets wsRef ;;
  match w with
  | None => ret tt
  | Some i =>
      r <- gets (fun s => readyState_of s i) ;;
      match r with
      | Some OPEN => emit (ESend i m)
      | Some CONNECTING => throw (error_named "InvalidStateError")
      | _ => ret tt
      end
  end.

(** [if (wsRef.current?.readyState === WebSocket.OPEN) wsRef.current.send(...)] *)
Definition ws_send_if_open (m : OutMsg) : Js unit :=
  o <- gets (ws_readyState_is OPEN) ;;
  if o then ws_send m else ret tt.

Section Component.
Variable browser : Browser.

(** ** Peer connection primitives *)

Definition pc_update (peerId : string) (f : PeerConn -> PeerConn) : Js unit :=
  modify (fun s => match map_get peerId (peersRef s) with
                   | Some pc => set_peersRef (map_set peerId (f pc) (peersRef s)) s
                   | None => s
                   end).

Definition rtc_step {A} (peerId : string) (op : RtcOp) (k : Js A) : Js A :=
  if rtc_ok browser peerId op then k else throw (error_named "OperationError").

Definition pc_addTrack (peerId : string) (t : Track) : Js unit :=
  emit (EAddTrack peerId t) ;;
  pc_update peerId (pc_with_senders (fun l => l ++ [Some t])).

Definition pc_createOffer (peerId : string) : Js Desc :=
  rtc_step peerId OpCreateOffer
    (ret {| dtype := offer; sdp := rtc_sdp browser peerId offer |}).

Definition pc_createAnswer (peerId : string) : Js Desc :=
  rtc_step peerId OpCreateAnswer
    (ret {| dtype := answer; sdp := rtc_sdp browser peerId answer |}).

Definition pc_setLocalDescription (peerId : string) (d : Desc) : Js unit :=
  rtc_step peerId OpSetLocalDescription (pc_update peerId (pc_with_local (Some d))).

Definition pc_setRemoteDescription (peerId : string) (d : Desc) : Js unit :=
  rtc_step peerId OpSetRemoteDescription (pc_update peerId (pc_with_remote (Some d))).

Definition pc_addIceCandidate (peerId : string) (c : Candidate) : Js unit :=
  rtc_step peerId OpAddIceCandidate (pc_update peerId (pc_with_candidate c)).

(** ** Peer connection orchestration *)

Definition createPeerConnection (peerId : string) (isInitiator : bool) : Js unit :=
  has <- gets (fun s => map_has peerId (peersRef s)) ;;
  if has then ret tt (* Already connected *)
  else
    emit (ENewPeerConnection peerId) ;;
    modify (fun s => set_peersRef (map_set peerId newPeerConn (peersRef s)) s) ;;
    ls <- gets localStreamRef ;;
    match ls with
    | Some tracks => for_each tracks (pc_addTrack peerId)
    | None => ret tt
    end ;;
    if isInitiator then
      try_catch
        (o <- pc_createOffer peerId ;;
         pc_setLocalDescription peerId o ;;
         ws_send (out_offer (Some o) peerId))
        (fun _ => ret tt)
    else ret tt.

Definition closePeerConnection (peerId : string) : Js unit :=
  pc <- gets (fun s => map_get peerId (peersRef s)) ;;
  match pc with
  | Some _ =>
      emit (EClosePeerConnection peerId) ;;
      modify (fun s => set_peersRef (map_delete peerId (peersRef s)) s)
  | None => ret tt
  end ;;
  modify (fun s => set_remoteStreams (delete peerId (remoteStreams s)) s).

(** The three callbacks [createPeerConnection] installs on the connection. *)
Definition ontrack (peerId : string) (remoteStream : nat) : Js unit :=
  modify (fun s => set_remoteStreams (<[peerId := remoteStream]> (remoteStreams s)) s).

Definition onicecandidate (peerId : string) (candidate : option Candidate) : Js unit :=
  match candidate with
  | Some c => ws_send_if_open (out_ice_candidate c peerId)
  | None => ret tt
  end.

Definition onconnectionstatechange (peerId : string) (st : ConnectionState) : Js unit :=
  match st with
  | cs_failed | cs_disconnected => closePeerConnection peerId
  | _ => ret tt
  end.

Definition handleOffer (from : string) (o : Desc) : Js unit :=
  createPeerConnection from false ;;
  pc <- gets (fun s => map_get from (peersRef s)) ;;
  match pc with
  | Some _ =>
      pc_setRemoteDescription from o ;;
      a <- pc_createAnswer from ;;
      pc_setLocalDescription from a ;;
      ws_send (out_answer a from)
  | None => ret tt
  end.

Definition handleAnswer (from : string) (a : Desc) : Js unit :=
  pc <- gets (fun s => map_get from (peersRef s)) ;;
  match pc with
  | Some _ => pc_setRemoteDescription from a
  | None => ret tt
  end.

Definition handleIceCandidate (from : string) (c : Candidate) : Js unit :=
  pc <- gets (fun s => map_get from (peersRef s)) ;;
  match pc with
  | Some _ => pc_addIceCandidate from c
  | None => ret tt
  end.

Definition handleWebSocketMessage (message : InMsg) : Js unit :=
  match message with
  | room_info ps =>
      modify (set_participants (default [] ps)) ;;
      match ps with
      | Some l =>
          me <- gets selfId ;;
          for_each l (fun participant =>
            if negb (String.eqb (user_id participant) me)
            then createPeerConnection (user_id participant) true
            else ret tt)
      | None => throw (error_named "TypeError")     (* message.participants is not iterable *)
      end
  | user_joined u =>
      modify (fun s => set_participants (participants s ++ [u]) s) ;;
      me <- gets selfId ;;
      (if negb (String.eqb (user_id u) me)
       then createPeerConnection (user_id u) true
       else ret tt) ;;
      toast t_success (String.append (user_name u) " joined the call")
  | user_left u =>
      modify (fun s => set_participants
                (filter (fun p => String.eqb (user_id p) (user_id u) = false)
                        (participants s)) s) ;;
      closePeerConnection (user_id u) ;;
      toast t_info (String.append (user_name u) " left the call")
  | in_offer from _ o => handleOffer from o
  | in_answer from to a =>
      me <- gets selfId ;;
      if bool_decide (to = Some me) then handleAnswer from a else ret tt
  | ice_candidate from _ c => handleIceCandidate from c
  | user_audio_toggled uid en =>
      toast t_info (String.append uid (if en then " unmuted" else " muted"))
  | user_video_toggled uid en =>
      toast t_info (String.append uid
                      (String.append (if en then " enabled" else " disabled") " video"))
  | unknown_type _ => ret tt
  end.

(** [ws.onmessage]: an exception of the handler is caught and logged. *)
Definition ws_onmessage (message : InMsg) : Js unit :=
  try_catch (handleWebSocketMessage message) (fun _ => ret tt).

(** ** Timers *)

Definition setTimeout (a : TimerAction) (delay : Z) : Js nat :=
  n <- gets (fun s => length (timers s)) ;;
  modify (fun s => set_timers
            (timers s ++ [{| t_delay := delay; t_action := a; t_armed := true |}]) s) ;;
  emit (ESetTimeout n delay) ;;
  ret n.

Definition clearTimeout (n : nat) : Js unit :=
  emit (EClearTimeout n) ;;
  modify (fun s => set_timers (alter timer_disarm n (timers s)) s).

(** ** Signaling channel: connection and reconnection *)

Definition sock_update (i : nat) (f : Socket -> Socket) : Js unit :=
  modify (fun s => set_sockets (alter f i (sockets s)) s).

(** [ws.close()] *)
Definition ws_close (i : nat) : Js unit :=
  emit (ECloseSocket i) ;;
  sock_update i (fun k => match ws_state k with
                          | CLOSED => k
                          | _ => sock_with_state CLOSING k
                          end).

Definition connectWebSocket (room : string) (w : Waiter) : Js unit :=
  i <- gets (fun s => length (sockets s)) ;;
  modify (fun s => set_sockets
            (sockets s ++ [{| ws_state := CONNECTING; ws_room := room;
                              ws_waiter := w; ws_settled := false |}]) s) ;;
  emit (ENewWebSocket i room) ;;
  modify (set_wsRef (Some i)) ;;
  _ <- setTimeout (ConnectTimeout i) 10000 ;;
  ret tt.

Definition scheduleReconnect (room : string) : Js unit :=
  r <- gets reconnectTimeoutRef ;;
  match r with
  | Some n => clearTimeout n
  | None => ret tt
  end ;;
  n <- setTimeout (ReconnectTimer room) 3000 ;;
  modify (set_reconnectTimeoutRef (Some n)).

(** [resolve()] of the promise of socket [i]. *)
Definition ws_resolve (i : nat) : Js unit := sock_update i sock_settle.

(** [reject(...)] of the promise of socket [i], with the reaction of whoever
    awaits it; a promise settles once. *)
Definition ws_reject (i : nat) : Js unit :=
  k <- gets (fun s => sockets s !! i) ;;
  match k with
  | Some k =>
      if ws_settled k then ret tt
      else
        sock_update i sock_settle ;;
        match ws_waiter k with
        | W_initializeCall =>
            toast t_error "Failed to connect to call server. Please try again." ;;
            _ <- setTimeout (InitRetryTimer (ws_room k)) 3000 ;;
            ret tt
        | W_retry =>
            toast t_error "Unable to connect. Please check your internet connection."
        | W_fallback =>
            toast t_error "Connection failed. Please refresh and try again."
        | W_none => ret tt
        end
  | None => ret tt
  end.

Definition ws_onopen (i : nat) : Js unit :=
  modify (set_isConnected true) ;;
  ws_resolve i.

(** [reject] is called before [scheduleReconnect]; the reaction of the awaiting
    code runs once the callback has returned. *)
Definition ws_onerror (i : nat) (room : string) : Js unit :=
  modify (set_isConnected false) ;;
  (* Still schedule reconnect attempt *)
  scheduleReconnect room ;;
  ws_reject i.

Definition ws_onclose (room : string) (code : Z) : Js unit :=
  modify (set_isConnected false) ;;
  w <- gets wsRef ;;
  if negb (code =? 1000)%Z && bool_decide (w <> None)
  then scheduleReconnect room   (* Not a normal closure - try to reconnect *)
  else ret tt.

(** What a timer runs when it fires. *)
Definition timer_callback (a : TimerAction) : Js unit :=
  match a with
  | ReconnectTimer room =>
      c <- gets (ws_readyState_is CLOSED) ;;
      if c then connectWebSocket room W_none else ret tt
  | ConnectTimeout i =>
      r <- gets (fun s => readyState_of s i) ;;
      match r with
      | Some OPEN => ret tt
      | _ => ws_close i ;; ws_reject i
      end
  | InitRetryTimer room =>
      (* [isConnected] is the value captured at mount: false *)
      toast t_info "Retrying connection..." ;;
      connectWebSocket room W_retry
  end.

(** ** Media acquisition *)

Definition getUserMedia (c : Constraints) (r : GumResult) : Js MediaStream :=
  emit (EGetUserMedia c) ;;
  match r with
  | GumOk m => ret m
  | GumErr name msg => throw {| err_name := name; err_message := msg |}
  end.

Definition add_tracks (ts : list Track) (m : MediaStream) : MediaStream :=
  foldl (fun acc t => stream_addTrack t acc) m ts.

Definition is_audioinput (d : DeviceKind) : bool :=
  match d with audioinput => true | _ => false end.

Definition checkDeviceAvailability (e : EnumResult) : Js unit :=
  match e with
  | EnumUnsupported => modify (set_micDeviceAvailable None)
  | EnumErr =>
      emit EEnumerateDevices ;;
      modify (set_micDeviceAvailable None)      (* Unknown status *)
  | EnumOk devices =>
      emit EEnumerateDevices ;;
      if (0 <? length (List.filter is_audioinput devices))%nat
      then modify (set_micDeviceAvailable (Some true))
      else modify (set_micDeviceAvailable None)
  end.

Definition startLocalStream (a v : GumResult) : Js unit :=
  modify (set_isRequestingPermissions true) ;;
  audioStream <-
    try_catch
      (m <- getUserMedia audio_processing a ;;
       modify (set_micPermissionDenied false) ;;
       ret (Some m))
      (fun audioError =>
         modify (set_micPermissionDenied true) ;;
         let name := err_name audioError in
         (if String.eqb name "NotAllowedError" then
            toast t_info "Microphone access denied. You can still join to listen/watch others."
          else if String.eqb name "NotFoundError" then
            toast t_info "No microphone detected. You can still join to listen/watch others. Enable microphone later if needed."
          else
            toast t_info "Could not access microphone. You can still join to listen/watch others.") ;;
         ret None) ;;
  videoStream <-
    try_catch
      (m <- getUserMedia video_hd v ;;
       modify (set_cameraPermissionDenied false) ;;
       ret (Some m))
      (fun videoError =>
         modify (set_cameraPermissionDenied true) ;;
         modify (set_videoEnabled false) ;;
         let name := err_name videoError in
         (if String.eqb name "NotAllowedError" then
            toast t_error "Camera access denied. You can still join with audio only."
          else if String.eqb name "NotFoundError" then
            toast t_info "No camera found. Joining with audio only."
          else
            toast t_info "Could not access camera. Joining with audio only.") ;;
         ret None) ;;
  (* the test for "neither" inside the first branch of the source never
     fires and is left out *)
  match audioStream, videoStream with
  | None, None =>
      modify (set_localStreamRef None) ;;
      modify (set_localStream None) ;;
      modify (set_audioEnabled false) ;;
      modify (set_videoEnabled false) ;;
      toast t_info "No microphone or camera access. You can still join to listen/watch others."
  | _, _ =>
      let combinedStream :=
        add_tracks (getVideoTracks (default [] videoStream))
          (add_tracks (getAudioTracks (default [] audioStream)) []) in
      modify (set_localStreamRef (Some combinedStream)) ;;
      modify (set_localStream (Some combinedStream)) ;;
      (if audioStream is None then modify (set_audioEnabled false) else ret tt) ;;
      (if videoStream is None then modify (set_videoEnabled false) else ret tt)
  end ;;
  modify (set_isRequestingPermissions false).

Definition initializeCall (r : ApiResult) (a v : GumResult) : Js unit :=
  match r with
  | ApiOk room =>
      modify (set_roomId (Some room)) ;;
      try_catch (startLocalStream a v)
                (fun _ => modify (set_isRequestingPermissions false)) ;;
      connectWebSocket room W_initializeCall
  | ApiErr status =>
      if bool_decide (status = Some 404%Z) then
        toast t_error "Meeting not found" ;; emit EOnClose
      else if bool_decide (status = Some 403%Z) then
        toast t_error "You do not have permission to join this meeting" ;; emit EOnClose
      else
        toast t_warning "Some features may not be available, but you can still try to join." ;;
        (* [roomId] here is the state variable, not the one fetched *)
        rid <- gets roomId ;;
        match rid with
        | Some room => connectWebSocket room W_fallback
        | None => ret tt
        end
  end.

(** ** Attaching local tracks to the peer connections *)

(** [peersRef.current.forEach(...)] *)
Definition forEachPeer (f : string -> Js unit) : Js unit :=
  ks <- gets (fun s => map_keys (peersRef s)) ;;
  for_each ks f.

(** The first sender carrying [track] gets a null track ([removeTrack]). *)
Fixpoint null_sender_of (track : Track) (l : list Sender) : option (list Sender) :=
  match l with
  | [] => None
  | Some t :: l' =>
      if Track_eqb t track then Some (None :: l')
      else cons (Some t) <$> null_sender_of track l'
  | None :: l' => cons None <$> null_sender_of track l'
  end.

(** [const sender = pc.getSenders().find(s => s.track === track);
     if (sender) pc.removeTrack(sender)] *)
Definition detachTrack (peerId : string) (track : Track) : Js unit :=
  pc <- gets (fun s => map_get peerId (peersRef s)) ;;
  match pc with
  | Some pc =>
      match null_sender_of track (senders pc) with
      | Some l' =>
          emit (ERemoveTrack peerId track) ;;
          pc_update peerId (pc_with_senders (fun _ => l'))
      | None => ret tt
      end
  | None => ret tt
  end.

(** [pc.getSenders().find(s => s.track && s.track.kind === k)]: position and
    current track of the first sender of that kind. *)
Fixpoint find_sender (k : Kind) (l : list Sender) : option (nat * Track) :=
  match l with
  | [] => None
  | Some t :: l' =>
      if Kind_eqb (tkind t) k then Some (0, t)
      else prod_map S id <$> find_sender k l'
  | None :: l' => prod_map S id <$> find_sender k l'
  end.

(** [existingSender.replaceTrack(track)] *)
Definition sender_replaceTrack (peerId : string) (i : nat) (old new : Track) : Js unit :=
  emit (EReplaceTrack peerId old new) ;;
  rtc_step peerId OpReplaceTrack
    (pc_update peerId (pc_with_senders (<[i := Some new]>))).

(** Replace on the existing sender of kind [k], else add.  [add_on_reject]:
    the [.catch] of [replaceTrack] adds the track as a new one; otherwise the
    rejection is only logged (or left unhandled). *)
Definition attachTrack (add_on_reject : bool) (peerId : string) (k : Kind)
    (track : Track) : Js unit :=
  pc <- gets (fun s => map_get peerId (peersRef s)) ;;
  match find_sender k (default [] (senders <$> pc)) with
  | Some (i, old) =>
      try_catch (sender_replaceTrack peerId i old track)
                (fun _ => if add_on_reject then pc_addTrack peerId track else ret tt)
  | None => pc_addTrack peerId track
  end.

(** [pc.createOffer().then(o => pc.setLocalDescription(o)).then(send)]; a
    failure is logged or left unhandled.  [guarded]: the send is under
    [readyState === OPEN]. *)
Definition renegotiate (guarded : bool) (peerId : string) : Js unit :=
  try_catch
    (o <- pc_createOffer peerId ;;
     pc_setLocalDescription peerId o ;;
     ld <- gets (fun s => map_get peerId (peersRef s) ≫= localDescription) ;;
     (if guarded then ws_send_if_open else ws_send) (out_offer ld peerId))
    (fun _ => ret tt).

Definition stopTrack (track : Track) : Js unit := emit (EStopTrack track).

(** [setLocalStream(new MediaStream(localStreamRef.current.getTracks()))] *)
Definition publishLocalStream : Js unit :=
  modify (fun s => set_localStream (localStreamRef s) s).

Definition name_in (e : JsError) (names : list string) : bool :=
  existsb (String.eqb (err_name e)) names.

(** The per-track step of [retryPermissions]: replace on the sender of the
    same kind (a rejection is logged), else add the track and send an offer. *)
Definition retryAttach (peerId : string) (track : Track) : Js unit :=
  pc <- gets (fun s => map_get peerId (peersRef s)) ;;
  match find_sender (tkind track) (default [] (senders <$> pc)) with
  | Some (i, old) =>
      try_catch (sender_replaceTrack peerId i old track) (fun _ => ret tt)
  | None =>
      pc_addTrack peerId track ;;
      renegotiate false peerId
  end.

Definition retryPermissions (a v : GumResult) : Js unit :=
  modify (set_isRequestingPermissions true) ;;
  ls <- gets localStreamRef ;;
  match ls with
  | Some cur =>
      for_each cur (fun track =>
        stopTrack track ;;
        forEachPeer (fun peerId => detachTrack peerId track))
  | None => ret tt
  end ;;
  modify (set_micPermissionDenied false) ;;
  modify (set_cameraPermissionDenied false) ;;
  startLocalStream a v ;;
  ls <- gets localStreamRef ;;
  rid <- gets roomId ;;
  match ls, rid with
  | Some _, Some _ =>
      forEachPeer (fun peerId =>
        cur <- gets localStreamRef ;;
        for_each (default [] cur) (retryAttach peerId))
  | _, _ => ret tt
  end.

(** The part the two fallback paths of [enableMicrophone] share. *)
Definition useFallbackStream (fallbackStream : MediaStream) : Js unit :=
  ls <- gets localStreamRef ;;
  match ls with
  | Some cur =>
      for_each (getAudioTracks cur) stopTrack ;;
      modify (set_localStreamRef (Some (add_tracks (getAudioTracks fallbackStream) cur)))
  | None => modify (set_localStreamRef (Some fallbackStream))
  end ;;
  publishLocalStream ;;
  modify (set_audioEnabled true) ;;
  modify (set_micPermissionDenied false).

(** [enableMicrophone], block by block.  First the two attempts: optimal
    constraints, then [{ audio: true }]. *)
Definition enableMicrophone_acquire (r1 r2 : GumResult) : Js MediaStream :=
  try_catch (getUserMedia audio_optimal r1)
            (fun _ => getUserMedia audio_true r2).

(** With a stream in hand: check it, swap the audio tracks of the local
    stream, update every peer connection. *)
Definition enableMicrophone_install (audioStream : MediaStream) : Js bool :=
  let audioTracks := getAudioTracks audioStream in
  (if (length audioTracks =? 0)%nat
   then throw {| err_name := "Error"; err_message := "No audio tracks in stream" |}
   else ret tt) ;;
  ls <- gets localStreamRef ;;
  match ls with
  | Some cur =>
      for_each (getAudioTracks cur) (fun track =>
        stopTrack track ;;
        forEachPeer (fun peerId => detachTrack peerId track)) ;;
      modify (set_localStreamRef (Some (add_tracks audioTracks cur)))
  | None => modify (set_localStreamRef (Some audioStream))
  end ;;
  publishLocalStream ;;
  modify (set_audioEnabled true) ;;
  modify (set_micPermissionDenied false) ;;
  forEachPeer (fun peerId =>
    for_each audioTracks (attachTrack true peerId audio) ;;
    renegotiate true peerId) ;;
  modify (set_isRequestingPermissions false) ;;
  toast t_success "Microphone enabled successfully! Device microphone is now active." ;;
  ret true.

(** The device-not-found branch of the catch block: one more attempt with
    [{ audio: true }] before giving up. *)
Definition enableMicrophone_notFound (r3 : GumResult) : Js bool :=
  try_catch
    (fallbackStream <- getUserMedia audio_true r3 ;;
     let fallbackTracks := getAudioTracks fallbackStream in
     if (0 <? length fallbackTracks)%nat then
       useFallbackStream fallbackStream ;;
       modify (set_micDeviceAvailable (Some true)) ;;
       forEachPeer (fun peerId =>
         for_each fallbackTracks (attachTrack true peerId audio) ;;
         renegotiate true peerId) ;;
       modify (set_isRequestingPermissions false) ;;
       toast t_success "Microphone enabled successfully!" ;;
       ret true
     else ret false)
    (fun _ =>
       (* Even minimal constraints failed *)
       modify (set_micDeviceAvailable (Some false)) ;;
       toast t_error "No microphone device found. Please check: 1) Microphone is connected, 2) Enabled in system settings, 3) Not used by another app. Click Refresh to check again." ;;
       ret false).

(** The overconstrained branch of the catch block. *)
Definition enableMicrophone_overconstrained (r3 : GumResult) : Js bool :=
  toast t_info "Microphone constraints could not be satisfied. Trying with default settings..." ;;
  try_catch
    (fallbackStream <- getUserMedia audio_true r3 ;;
     let fallbackTracks := getAudioTracks fallbackStream in
     if (0 <? length fallbackTracks)%nat then
       useFallbackStream fallbackStream ;;
       forEachPeer (fun peerId =>
         for_each fallbackTracks (attachTrack false peerId audio) ;;
         renegotiate true peerId) ;;
       toast t_success "Microphone enabled with default settings!" ;;
       ret true
     else ret false)
    (fun _ =>
       toast t_error "Could not access microphone with any settings." ;;
       ret false).

(** The catch block. *)
Definition enableMicrophone_failed (error : JsError) (r3 : GumResult) : Js bool :=
  modify (set_micPermissionDenied true) ;;
  if name_in error ["NotAllowedError"; "PermissionDeniedError"] then
    toast t_error "Microphone access denied. Please allow microphone access in your browser settings and try again." ;;
    ret false
  else if name_in error ["NotFoundError"; "DevicesNotFoundError"] then
    enableMicrophone_notFound r3
  else if name_in error ["NotReadableError"; "TrackStartError"] then
    toast t_error "Microphone is being used by another application. Please close other apps using the microphone." ;;
    ret false
  else if name_in error ["OverconstrainedError"] then
    enableMicrophone_overconstrained r3
  else
    toast t_error
      (String.append "Could not access microphone: "
         (String.append
            (if String.eqb (err_message error) "" then "Unknown error"
             else err_message error)
            ". Please check your browser permissions and device connections.")) ;;
    ret false.

Definition enableMicrophone (r1 r2 r3 : GumResult) : Js bool :=
  try_catch
    (audioStream <- enableMicrophone_acquire r1 r2 ;;
     enableMicrophone_install audioStream)
    (fun error => enableMicrophone_failed error r3).

Definition enableCamera (r : GumResult) : Js bool :=
  try_catch
    (videoStream <- getUserMedia video_hd r ;;
     ls <- gets localStreamRef ;;
     match ls with
     | Some cur =>
         for_each (getVideoTracks cur) stopTrack ;;
         modify (set_localStreamRef (Some (add_tracks (getVideoTracks videoStream) cur)))
     | None => modify (set_localStreamRef (Some videoStream))
     end ;;
     publishLocalStream ;;
     modify (set_videoEnabled true) ;;
     modify (set_cameraPermissionDenied false) ;;
     forEachPeer (fun peerId =>
       for_each (getVideoTracks videoStream) (attachTrack false peerId video) ;;
       renegotiate false peerId) ;;
     modify (set_isRequestingPermissions false) ;;
     toast t_success "Camera enabled successfully!" ;;
     ret true)
    (fun error =>
       modify (set_cameraPermissionDenied true) ;;
       (if name_in error ["NotAllowedError"] then
          toast t_error "Camera access denied. Please allow camera access in your browser settings."
        else if name_in error ["NotFoundError"] then
          toast t_error "No camera detected. Please connect a camera device."
        else
          toast t_error "Could not access camera. Please check your browser permissions.") ;;
       ret false).

Definition grantAllPermissions (r r1 r2 r3 rc : GumResult) : Js unit :=
  modify (set_isRequestingPermissions true) ;;
  toast t_info "Requesting microphone and camera permissions..." ;;
  try_catch
    (stream <- getUserMedia audio_and_video r ;;
     ls <- gets localStreamRef ;;
     match ls with
     | Some cur =>
         for_each cur (fun track =>
           stopTrack track ;;
           forEachPeer (fun peerId => detachTrack peerId track))
     | None => ret tt
     end ;;
     modify (set_localStreamRef (Some stream)) ;;
     publishLocalStream ;;
     modify (set_audioEnabled (0 <? length (getAudioTracks stream))%nat) ;;
     modify (set_videoEnabled (0 <? length (getVideoTracks stream))%nat) ;;
     modify (set_micPermissionDenied false) ;;
     modify (set_cameraPermissionDenied false) ;;
     rid <- gets roomId ;;
     (if rid is Some _ then
        forEachPeer (fun peerId =>
          for_each stream (fun track => attachTrack false peerId (tkind track) track) ;;
          renegotiate true peerId)
      else ret tt) ;;
     modify (set_isRequestingPermissions false) ;;
     toast t_success "All permissions granted! Microphone and camera are now enabled.")
    (fun error =>
       (* Try to get permissions individually *)
       micSuccess <- enableMicrophone r1 r2 r3 ;;
       cameraSuccess <- enableCamera rc ;;
       modify (set_isRequestingPermissions false) ;;
       if micSuccess && cameraSuccess then
         toast t_success "All permissions granted! Microphone and camera are now enabled."
       else if micSuccess || cameraSuccess then
         toast t_info "Some permissions were granted. You can enable the rest later."
       else if name_in error ["NotAllowedError"; "PermissionDeniedError"] then
         toast t_error "Permissions were denied. Please allow access in your browser settings."
       else
         toast t_error "Could not access media devices. Please check your browser permissions.").

(** [refreshDeviceList] once the test stream is there. *)
Definition refreshDeviceList_install (testStream : MediaStream) : Js unit :=
  let audioTracks := getAudioTracks testStream in
  if (0 <? length audioTracks)%nat then
    ls <- gets localStreamRef ;;
    match ls with
    | Some cur =>
        for_each (getAudioTracks cur) (fun track =>
          stopTrack track ;;
          forEachPeer (fun peerId => detachTrack peerId track)) ;;
        modify (set_localStreamRef (Some (add_tracks audioTracks cur)))
    | None => modify (set_localStreamRef (Some testStream))
    end ;;
    publishLocalStream ;;
    modify (set_audioEnabled true) ;;
    modify (set_micPermissionDenied false) ;;
    modify (set_micDeviceAvailable (Some true)) ;;
    forEachPeer (fun peerId =>
      for_each audioTracks (attachTrack true peerId audio) ;;
      renegotiate true peerId) ;;
    modify (set_isRequestingPermissions false) ;;
    toast t_success "Microphone detected and enabled!"
  else
    (* Stream but no audio tracks *)
    for_each testStream stopTrack ;;
    modify (set_micDeviceAvailable (Some false)) ;;
    toast t_error "Microphone device found but no audio tracks available.".

(** The catch block of [refreshDeviceList]. *)
Definition refreshDeviceList_failed (error : JsError) (e : EnumResult) : Js unit :=
  (* Update device availability based on error *)
  checkDeviceAvailability e ;;
  if name_in error ["NotAllowedError"; "PermissionDeniedError"] then
    modify (set_micPermissionDenied true) ;;
    toast t_error "Microphone permission denied. Please allow access in browser settings."
  else if name_in error ["NotFoundError"; "DevicesNotFoundError"] then
    modify (set_micDeviceAvailable (Some false)) ;;
    toast t_error "No microphone device found. Please connect a microphone and try again."
  else
    modify (set_micDeviceAvailable None) ;;
    toast t_error "Could not access microphone. Please check your device and try again.".

Definition refreshDeviceList (r : GumResult) (e : EnumResult) : Js unit :=
  toast t_info "Refreshing device list and checking microphone..." ;;
  try_catch
    (testStream <- getUserMedia audio_true r ;;
     refreshDeviceList_install testStream)
    (fun error => refreshDeviceList_failed error e).

Definition toggleAudio (r1 r2 r3 : GumResult) : Js unit :=
  ls <- gets localStreamRef ;;
  match ls with
  | Some cur =>
      let audioTracks := getAudioTracks cur in
      if (0 <? length audioTracks)%nat then
        en <- gets audioEnabled ;;
        let newState := negb en in
        for_each audioTracks (fun track => emit (ESetTrackEnabled track newState)) ;;
        modify (set_audioEnabled newState) ;;
        ws_send (out_toggle_audio newState)
      else _ <- enableMicrophone r1 r2 r3 ;; ret tt
  | None => _ <- enableMicrophone r1 r2 r3 ;; ret tt
  end.

Definition toggleVideo (r : GumResult) : Js unit :=
  ls <- gets localStreamRef ;;
  match ls with
  | Some cur =>
      let videoTracks := getVideoTracks cur in
      if (0 <? length videoTracks)%nat then
        en <- gets videoEnabled ;;
        let newState := negb en in
        for_each videoTracks (fun track => emit (ESetTrackEnabled track newState)) ;;
        modify (set_videoEnabled newState) ;;
        ws_send (out_toggle_video newState)
      else _ <- enableCamera r ;; ret tt
  | None => _ <- enableCamera r ;; ret tt
  end.

Definition cleanup : Js unit :=
  w <- gets wsRef ;;
  match w with
  | Some i => ws_close i ;; modify (set_wsRef None)
  | None => ret tt
  end ;;
  forEachPeer (fun peerId => emit (EClosePeerConnection peerId)) ;;
  modify (set_peersRef []) ;;
  ls <- gets localStreamRef ;;
  match ls with
  | Some cur => for_each cur stopTrack ;; modify (set_localStreamRef None)
  | None => ret tt
  end ;;
  r <- gets reconnectTimeoutRef ;;
  match r with
  | Some n => clearTimeout n
  | None => ret tt
  end.

Definition leaveCall : Js unit := cleanup ;; emit EOnClose.

(** ** The component as a transition system

    One event is one callback run by the browser or by the user interface.
    The browser part of an event (a socket changing state, a timer being
    consumed) is applied before the callback. *)
Inductive Event :=
| EvMount (r : ApiResult) (a v : GumResult) (e : EnumResult)
| EvSocketOpen (i : nat)
| EvSocketMessage (i : nat) (m : InMsg)
| EvSocketError (i : nat)
| EvSocketClose (i : nat) (code : Z)
| EvTimer (n : nat)
| EvTrack (peerId : string) (remoteStream : nat)
| EvIceCandidate (peerId : string) (c : option Candidate)
| EvConnectionState (peerId : string) (st : ConnectionState)
| EvRefreshDevices (r : GumResult) (e : EnumResult)
| EvRetryPermissions (a v : GumResult)
| EvEnableMicrophone (r1 r2 r3 : GumResult)
| EvEnableCamera (r : GumResult)
| EvGrantAll (r r1 r2 r3 rc : GumResult)
| EvToggleAudio (r1 r2 r3 : GumResult)
| EvToggleVideo (r : GumResult)
| EvLeave
| EvUnmount.

Definition handle (ev : Event) : Js unit :=
  match ev with
  | EvMount r a v e => initializeCall r a v ;; checkDeviceAvailability e
  | EvSocketOpen i =>
      k <- gets (fun s => sockets s !! i) ;;
      match k with
      | Some k =>
          if ReadyState_eqb (ws_state k) CONNECTING
          then sock_update i (sock_with_state OPEN) ;; ws_onopen i
          else ret tt
      | None => ret tt
      end
  | EvSocketMessage i m =>
      r <- gets (fun s => readyState_of s i) ;;
      match r with
      | Some OPEN | Some CLOSING => ws_onmessage m
      | _ => ret tt
      end
  | EvSocketError i =>
      k <- gets (fun s => sockets s !! i) ;;
      match k with
      | Some k => ws_onerror i (ws_room k)
      | None => ret tt
      end
  | EvSocketClose i code =>
      k <- gets (fun s => sockets s !! i) ;;
      match k with
      | Some k =>
          if ReadyState_eqb (ws_state k) CLOSED then ret tt
          else sock_update i (sock_with_state CLOSED) ;; ws_onclose (ws_room k) code
      | None => ret tt
      end
  | EvTimer n =>
      t <- gets (fun s => timers s !! n) ;;
      match t with
      | Some t =>
          if t_armed t
          then modify (fun s => set_timers (alter timer_disarm n (timers s)) s) ;;
               timer_callback (t_action t)
          else ret tt
      | None => ret tt
      end
  | EvTrack peerId remoteStream =>
      has <- gets (fun s => map_has peerId (peersRef s)) ;;
      if has then ontrack peerId remoteStream else ret tt
  | EvIceCandidate peerId c =>
      has <- gets (fun s => map_has peerId (peersRef s)) ;;
      if has then onicecandidate peerId c else ret tt
  | EvConnectionState peerId st =>
      has <- gets (fun s => map_has peerId (peersRef s)) ;;
      if has then onconnectionstatechange peerId st else ret tt
  | EvRefreshDevices r e => refreshDeviceList r e
  | EvRetryPermissions a v => retryPermissions a v
  | EvEnableMicrophone r1 r2 r3 => _ <- enableMicrophone r1 r2 r3 ;; ret tt
  | EvEnableCamera r => _ <- enableCamera r ;; ret tt
  | EvGrantAll r r1 r2 r3 rc => grantAllPermissions r r1 r2 r3 rc
  | EvToggleAudio r1 r2 r3 => toggleAudio r1 r2 r3
  | EvToggleVideo r => toggleVideo r
  | EvLeave => leaveCall
  | EvUnmount => cleanup
  end.

Definition step (s : State) (ev : Event) : State := exec (handle ev) s.

Definition run (evs : list Event) (s : State) : State := foldl step s evs.

End Component.

(** ** Vocabulary of the properties *)

(** *** Reading the effect log *)

(** The messages sent on the signaling socket, oldest first. *)
Definition sent (l : list Effect) : list OutMsg :=
  omap (fun e => match e with ESend _ m => Some m | _ => None end) l.

Definition is_offer_to (p : string) (m : OutMsg) : bool :=
  match m with out_offer _ q => String.eqb p q | _ => false end.

(** Number of offers addressed to [p] among the messages sent. *)
Definition offers_to (p : string) (l : list Effect) : nat :=
  length (List.filter (is_offer_to p) (sent l)).

Definition link_event (e : Effect) : bool :=
  match e with
  | ENewPeerConnection _ | EClosePeerConnection _ => true
  | _ => false
  end.

(** The creations and closings of connection objects, in order. *)
Definition link_events (l : list Effect) : list Effect := List.filter link_event l.

(** Connection objects created for [p], and closed for [p]. *)
Definition opened (p : string) (l : list Effect) : nat :=
  length (List.filter (fun e => match e with
                                | ENewPeerConnection q => String.eqb p q
                                | _ => false
                                end) l).

Definition closed (p : string) (l : list Effect) : nat :=
  length (List.filter (fun e => match e with
                                | EClosePeerConnection q => String.eqb p q
                                | _ => false
                                end) l).

(** *** Peer links *)

(** Every connection object that was created and not closed is the one the
    map holds for its participant, and the map holds one entry per key. *)
Definition links_ok (s : State) : Prop :=
  NoDup (map_keys (peersRef s)) /\
  forall p, opened p (log s) =
            (closed p (log s) + (if map_has p (peersRef s) then 1 else 0))%nat.

(** The count next to the "participants" icon. *)
Definition shown_count (s : State) : nat := length (participants s) + 1.

(** The state after the connection to [p] became [pc] and [evs] were logged. *)
Definition with_link (p : string) (pc : PeerConn) (evs : list Effect) (s : State) : State :=
  set_log (log s ++ evs) (set_peersRef (map_set p pc (peersRef s)) s).

(** The connection [createPeerConnection] builds before any negotiation. *)
Definition fresh_conn (tracks : list Track) : PeerConn :=
  pc_with_senders (fun l => l ++ map Some tracks) newPeerConn.

(** The state right after [createPeerConnection] registered a connection
    for [p] and gave it the local tracks. *)
Definition after_create (p : string) (s : State) : State :=
  let tracks := default [] (localStreamRef s) in
  with_link p (fresh_conn tracks)
    (ENewPeerConnection p :: map (EAddTrack p) tracks) s.

(** What is known about participant [p] from where a callback stands: its
    connection, the offers sent to it, the connection objects made for it. *)
Definition link_view (p : string) (s : State) : option PeerConn * nat * nat :=
  (map_get p (peersRef s), offers_to p (log s), opened p (log s)).

(** Fields other than the peer map and the log. *)
Definition outside_links (s : State) : State := set_log [] (set_peersRef [] s).

(** The socket the callbacks send on is open, and the local user is [me]. *)
Definition channel_open (i : nat) (me : string) (s : State) : Prop :=
  wsRef s = Some i /\ readyState_of s i = Some OPEN /\ selfId s = me.

(** *** Callbacks *)

(** [m] keeps [I] whatever it returns or throws. *)
Definition preserves {A} (I : State -> Prop) (m : Js A) : Prop :=
  forall s, I s -> I (snd (m s)).

(** A projection of the state no step of [m] changes. *)
Definition stable {A B} (f : State -> B) (m : Js A) : Prop :=
  forall s, f (snd (m s)) = f s.

(** [m] throws nothing. *)
Definition no_throw {A} (m : Js A) : Prop :=
  forall s, exists a, fst (m s) = Done a.


(** *** Reconnection *)

Definition is_reconnect (t : Timer) : bool :=
  match t_action t with ReconnectTimer _ => true | _ => false end.

(** Delays of the reconnect timers armed so far, oldest first. *)
Definition reconnect_delays (s : State) : list Z :=
  map t_delay (List.filter is_reconnect (timers s)).

(** Every reconnect timer in the table was armed for 3000 ms. *)
Definition timers_ok (s : State) : Prop :=
  Forall (fun t => is_reconnect t = true -> t_delay t = 3000%Z) (timers s).

(** Number of sockets opened so far. *)
Definition attempts (l : list Effect) : nat :=
  length (List.filter (fun e => match e with ENewWebSocket _ _ => true | _ => false end) l).

(** What the user was told. *)
Definition toasts (l : list Effect) : list (ToastLevel * string) :=
  omap (fun e => match e with EToast lv text => Some (lv, text) | _ => None end) l.

(** The socket the component holds is [k], the last one created, and it is
    not closed yet; [t] timers were armed so far. *)
Definition on_socket (k t : nat) (s : State) : Prop :=
  wsRef s = Some k /\ length (sockets s) = S k /\ length (timers s) = t
  /\ exists sock, sockets s !! k = Some sock /\ ws_state sock <> CLOSED.

(** *** Media *)

(** The constraints of the capture requests made so far. *)
Definition requests (l : list Effect) : list Constraints :=
  omap (fun e => match e with EGetUserMedia c => Some c | _ => None end) l.

(** What a capture attempt brought. *)
Definition acquired (r : GumResult) : MediaStream :=
  match r with GumOk m => m | GumErr _ _ => [] end.

Definition failed (r : GumResult) : bool :=
  match r with GumOk _ => false | GumErr _ _ => true end.


(** The attempt brought a stream without an audio track. *)
Definition silent (r : GumResult) : bool :=
  match r with
  | GumOk m => (length (getAudioTracks m) =? 0)%nat
  | GumErr _ _ => false
  end.




Section Vocabulary.
Variable browser : Browser.

(** The descriptions the browser produces for the connection to [p]. *)
Definition local_offer (p : string) : Desc :=
  {| dtype := offer; sdp := rtc_sdp browser p offer |}.

Definition local_answer (p : string) : Desc :=
  {| dtype := answer; sdp := rtc_sdp browser p answer |}.

(** The body of the [room_info] loop, for a local user [me]. *)
Definition discover (me : string) (participant : Participant) : Js unit :=
  if negb (String.eqb (user_id participant) me)
  then createPeerConnection browser (user_id participant) true
  else ret tt.

End Vocabulary.

(** ** Concrete runs *)



(** No capture device answers. *)
Definition not_found : GumResult := GumErr "NotFoundError" "".

(** A call that starts without media and whose socket opens. *)
Definition call_start : list Event :=
  [EvMount (ApiOk "r1") not_found not_found EnumUnsupported; EvSocketOpen 0].

(** [n] times: the current socket closes abnormally, the reconnect timer
    fires. *)
Fixpoint outage_from (k t n : nat) : list Event :=
  match n with
  | 0 => []
  | S n' => EvSocketClose k 1006 :: EvTimer t :: outage_from (S k) (t + 2) n'
  end.

Definition outage (n : nat) : list Event := outage_from 0 1 n.

(** A client whose signaling socket is open. *)
Definition connected (uid : string) : State :=
  set_sockets [{| ws_state := OPEN; ws_room := "r1"; ws_waiter := W_initializeCall;
                  ws_settled := true |}]
    (set_wsRef (Some 0) (set_isConnected true (initialState uid))).

Definition alice : Participant := {| user_id := "A"; user_name := "Alice" |}.
Definition bob : Participant := {| user_id := "B"; user_name := "Bob" |}.

(** ** Further vocabulary *)

(** What a callback establishes from a state: [Q] on the value it returns and
    the state it leaves, [E] on the error it throws and the state it leaves. *)
Definition wp {A} (m : Js A) (Q : A -> State -> Prop) (E : JsError -> State -> Prop)
    (s : State) : Prop :=
  match m s with
  | (Done a, s') => Q a s'
  | (Thrown e, s') => E e s'
  end.

(** A reconnect timer that has not fired and was not cleared. *)
Definition pending_reconnect (t : Timer) : bool := t_armed t && is_reconnect t.

(** Every pending reconnect timer is the one [reconnectTimeoutRef] holds. *)
Definition reconnect_held (s : State) : Prop :=
  forall n t, timers s !! n = Some t -> pending_reconnect t = true ->
              reconnectTimeoutRef s = Some n.

(** The 3 s retry of [initializeCall]. *)
Definition is_init_retry (t : Timer) : bool :=
  match t_action t with InitRetryTimer _ => true | _ => false end.

(** Nothing is left that would open a signaling socket again: no socket is
    held, no retry of [initializeCall] is pending, and [initializeCall] awaits
    no connection any more. *)
Definition quiet (s : State) : Prop :=
  wsRef s = None
  /\ Forall (fun t => t_armed t && is_init_retry t = false) (timers s)
  /\ Forall (fun k => match ws_waiter k with
                      | W_initializeCall => ws_settled k = true
                      | _ => True
                      end) (sockets s).

(** [quiet], with the number of sockets opened so far. *)
Definition quiet_at (n : nat) (s : State) : Prop := quiet s /\ attempts (log s) = n.

Definition is_mount (ev : Event) : bool :=
  match ev with EvMount _ _ _ _ => true | _ => false end.

Definition is_teardown (ev : Event) : bool :=
  match ev with EvLeave | EvUnmount => true | _ => false end.

(** The messages on which the dispatcher may create a peer connection, and
    the one on which it closes one. *)
Definition opens_links (m : InMsg) : bool :=
  match m with
  | room_info _ | user_joined _ | in_offer _ _ _ => true
  | _ => false
  end.

Definition closes_links (m : InMsg) : bool :=
  match m with user_left _ => true | _ => false end.

(** What a negotiation that fails leaves of the link to [p]: it is in the
    map, nothing more was sent, it was not closed. *)
Definition silent_link (p : string) (s0 s : State) : Prop :=
  map_has p (peersRef s) = true
  /\ sent (log s) = sent (log s0) /\ closed p (log s) = closed p (log s0).

(** Every remote stream shown belongs to a peer that has a connection. *)
Definition streams_have_links (s : State) : Prop :=
  forall p, is_Some (remoteStreams s !! p) -> map_has p (peersRef s) = true.


(** The microphone is in use: the flags say so, the local stream has an
    audio track and the stream shown is the one the connections use. *)
Definition microphone_on (s : State) : Prop :=
  micPermissionDenied s = false /\ audioEnabled s = true
  /\ getAudioTracks (default [] (localStreamRef s)) <> []
  /\ localStream s = localStreamRef s.


(** The camera is in use, with the video tracks [ts]. *)
Definition camera_on (ts : list Track) (s : State) : Prop :=
  cameraPermissionDenied s = false /\ videoEnabled s = true
  /\ (forall t, t ∈ ts -> t ∈ default [] (localStreamRef s))
  /\ localStream s = localStreamRef s.

Definition camera_result (ts : list Track) (b : bool) (s : State) : Prop :=
  if b then camera_on ts s else cameraPermissionDenied s = true.

(** The local stream has grown from [m]: it holds the tracks of [m], in
    their order, and maybe more after them. *)
Definition grown_from (m : MediaStream) (s : State) : Prop :=
  exists m', localStreamRef s = Some m' /\ m `prefix_of` m'.




(** The permission overlay is not shown. *)
Definition dismissed (s : State) : Prop := isRequestingPermissions s = false.

(** ** Probing for a microphone

    [checkMicrophoneAvailable]; [supported]: [navigator.mediaDevices] and its
    [getUserMedia] exist.  A [return] inside a [try] is the value of the
    block. *)
Definition checkMicrophoneAvailable (supported : bool) (e : EnumResult)
    (r : GumResult) : Js bool :=
  try_catch
    (if negb supported then ret false
     else
       devices <-
         try_catch
           (match e with
            | EnumOk devices => emit EEnumerateDevices ;; ret (Some devices)
            | EnumErr => emit EEnumerateDevices ;; throw (error_named "Error")
            | EnumUnsupported => throw (error_named "TypeError")
            end)
           (fun _ => ret None) ;;
       match devices with
       | None => ret true        (* Assume available, let getUserMedia handle it *)
       | Some devices =>
           if (0 <? length (List.filter is_audioinput devices))%nat then ret true
           else
             try_catch
               (testStream <- getUserMedia audio_true r ;;
                let hasAudio := (0 <? length (getAudioTracks testStream))%nat in
                (* Stop the test stream immediately *)
                for_each testStream stopTrack ;;
                ret hasAudio)
               (fun _ => ret false)
       end)
    (fun _ => ret true).

(** The enumeration answered, and listed no audio input. *)
Definition lists_no_microphone (e : EnumResult) : bool :=
  match e with
  | EnumOk devices => (length (List.filter is_audioinput devices) =? 0)%nat
  | _ => false
  end.

(** ** The signaling URL

    The address [connectWebSocket] opens, built from the API base URL of the
    build, the protocol of the page, the room, the stored token and the
    signed-in user. *)

(** [s.startsWith(p)] *)
Definition startsWith (s p : string) : bool := String.prefix p s.

(** The string without its first [n] characters. *)
Fixpoint string_drop (n : nat) (s : string) : string :=
  match n, s with
  | S n', String _ s' => string_drop n' s'
  | _, _ => s
  end.

(** [s.replace(pat, rep)] with a string pattern and a replacement without
    [$]: the first occurrence only. *)
Fixpoint replace (pat rep s : string) : string :=
  if String.prefix pat s
  then String.append rep (string_drop (String.length pat) s)
  else match s with
       | EmptyString => EmptyString
       | String c s' => String c (replace pat rep s')
       end.

(** [s.replace(/^https?:\/\//, '')] *)
Definition strip_http (s : string) : string :=
  if String.prefix "https://" s then string_drop 8 s
  else if String.prefix "http://" s then string_drop 7 s
  else s.

(** [x || d] on a string that may be missing. *)
Definition or_else (x : option string) (d : string) : string :=
  match x with
  | Some s => if String.eqb s "" then d else s
  | None => d
  end.

(** [import.meta.env.VITE_API_URL || 'http://localhost:8000'] *)
Definition apiUrl_of (env : option string) : string :=
  or_else env "http://localhost:8000".

(** Convert HTTP/HTTPS URL to WebSocket URL; [protocol] is
    [window.location.protocol]. *)
Definition wsUrl_of (apiUrl protocol : string) : string :=
  if startsWith apiUrl "https://" then replace "https://" "wss://" apiUrl
  else if startsWith apiUrl "http://" then replace "http://" "ws://" apiUrl
  else
    String.append (if String.eqb protocol "https:" then "wss:" else "ws:")
      (String.append "//" (strip_http apiUrl)).

Section SignalingUrl.
Variable encodeURIComponent : string -> string.

(** [token]: what [localStorage] holds; [uid]: [user?.id] as the template
    prints it; [full_name]: [user?.full_name]. *)
Definition fullWsUrl (env : option string) (protocol room : string)
    (token : option string) (uid : string) (full_name : option string) : string :=
  String.append (wsUrl_of (apiUrl_of env) protocol)
    (String.append "/api/webrtc/ws/"
       (String.append room
          (String.append "?token="
             (String.append (or_else token "")
                (String.append "&user_id="
                   (String.append uid
                      (String.append "&user_name="
                         (encodeURIComponent (or_else full_name "User"))))))))).
End SignalingUrl.

(** ** The API client

    The two interceptors every request of the application goes through,
    the room lookup of [initializeCall] included. *)

(** What the interceptors read and write of the page. *)
Record Page := {
  localStorage : gmap string string;
  pathname : string;                    (* window.location.pathname *)
  location_href : option string         (* the last assignment to window.location.href *)
}.

Definition removeItem (k : string) (p : Page) : Page :=
  {| localStorage := delete k (localStorage p); pathname := pathname p;
     location_href := location_href p |}.

Definition navigate (url : string) (p : Page) : Page :=
  {| localStorage := localStorage p; pathname := pathname p;
     location_href := Some url |}.

(** Add token to requests: the headers of the request as it leaves. *)
Definition request_interceptor (p : Page) (headers : gmap string string)
    : gmap string string :=
  match localStorage p !! "token" with
  | Some token =>
      if String.eqb token "" then headers
      else <["Authorization" := String.append "Bearer " token]> headers
  | None => headers
  end.

(** What the error handler reads of an axios error. *)
Record AxiosError := {
  response_status : option Z;           (* error.response?.status *)
  config_url : option string            (* error.config?.url *)
}.

(** [s.includes(pat)] *)
Fixpoint includes (s pat : string) : bool :=
  String.prefix pat s
  || match s with
     | EmptyString => false
     | String _ s' => includes s' pat
     end.

(** Handle token expiration and unauthorized errors: the page after the
    handler ran; the error is rejected again in every case. *)
Definition response_error_interceptor (error : AxiosError) (p : Page) : Page :=
  if bool_decide (response_status error = Some 401%Z) then
    let currentPath := pathname p in
    let isLoginPage :=
      String.eqb currentPath "/login" || String.eqb currentPath "/register" in
    let isAuthEndpoint :=
      match config_url error with
      | Some url => includes url "/auth/login" || includes url "/auth/register"
      | None => false
      end in
    if negb isLoginPage && negb isAuthEndpoint then
      let p1 := removeItem "user" (removeItem "token" p) in
      if negb (String.eqb currentPath "/login") then navigate "/login" p1 else p1
    else p
  else p.

(** The session is thrown away on this error, from this page. *)
Definition expires_session (error : AxiosError) (p : Page) : bool :=
  bool_decide (response_status error = Some 401%Z)
  && negb (String.eqb (pathname p) "/login")
  && negb (String.eqb (pathname p) "/register")
  && match config_url error with
     | Some url => negb (includes url "/auth/login") && negb (includes url "/auth/register")
     | None => true
     end.

(** ** What the component shows

    The parts of the rendered tree that depend on the call: the header, the
    permission overlay and banners, the local tile and the control bar. *)

(** [!localStream || localStream.getAudioTracks().length === 0] *)
Definition without_tracks (f : MediaStream -> list Track) (ls : option MediaStream) : bool :=
  match ls with
  | Some m => (length (f m) =? 0)%nat
  | None => true
  end.

(** [localStream && localStream.getAudioTracks().length > 0] *)
Definition with_tracks (f : MediaStream -> list Track) (ls : option MediaStream) : bool :=
  match ls with
  | Some m => (0 <? length (f m))%nat
  | None => false
  end.

Inductive MicNote := NoMicDevice | MicUnknown.

Inductive Badge :=
| ListeningMode (note : option MicNote)
| MicrophoneActive.

(** The microphone badges of the header, in the order they are written. *)
Definition header_badges (s : State) : list Badge :=
  (if without_tracks getAudioTracks (localStream s)
   then [ListeningMode match micDeviceAvailable s with
                       | Some false => Some NoMicDevice
                       | None => Some MicUnknown
                       | Some true => None
                       end]
   else [])
  ++ (if with_tracks getAudioTracks (localStream s) then [MicrophoneActive] else []).

(** The connection indicator and the participant count of the header. *)
Definition header_status (s : State) : string :=
  if isConnected s then "Connected" else "Connecting...".

Definition header_count (s : State) : nat * string :=
  (length (participants s) + 1,
   if negb (length (participants s) =? 0)%nat then "participants" else "participant").

(** The permission request overlay. *)
Definition overlay_shown (s : State) : bool := isRequestingPermissions s.

(** The microphone banner: its text, and whether it offers [Refresh]. *)
Definition mic_banner (s : State) : option (string * bool) :=
  if micPermissionDenied s && negb (isRequestingPermissions s) then
    Some (if bool_decide (micDeviceAvailable s = Some false)
          then "No microphone device found. Please connect a microphone."
          else "Microphone not available. Click to enable microphone access.",
          bool_decide (micDeviceAvailable s = Some false))
  else None.

(** The banner that offers to grant all permissions. *)
Definition grant_banner (s : State) : bool :=
  match localStream s with
  | None => true
  | Some m => (length (getAudioTracks m) =? 0)%nat && (length (getVideoTracks m) =? 0)%nat
  end
  && negb (isRequestingPermissions s).

Inductive LocalTile := TileVideo | TileAudioOnly | TileNoMedia.

Definition local_tile (s : State) : LocalTile :=
  if with_tracks getVideoTracks (localStream s) then TileVideo
  else if with_tracks getAudioTracks (localStream s) then TileAudioOnly
  else TileNoMedia.

(** The two suffixes of the name under the local tile. *)
Definition local_label (s : State) : string * string :=
  (if without_tracks getVideoTracks (localStream s) then " (No Video)"
   else if videoEnabled s then "" else " (Video Off)",
   if without_tracks getAudioTracks (localStream s) then " (No Audio)"
   else if audioEnabled s then "" else " (Muted)").


Definition camera_button (s : State) : bool * string :=
  (videoEnabled s, if videoEnabled s then "Turn off camera" else "Turn on camera").

(** The remote tile of a peer: its stream and the name under it. *)
Definition remote_tile (s : State) (peerId : string) : option (nat * string) :=
  stream ← remoteStreams s !! peerId ;
  Some (stream,
        match List.find (fun p => String.eqb (user_id p) peerId) (participants s) with
        | Some p => if String.eqb (user_name p) "" then "Participant" else user_name p
        | None => "Participant"
        end).

(** * Properties *)

(** ** The JS Map *)
Section JsMapFacts.
Context {V : Type}.
Implicit Types (m : list (string * V)) (k : string) (v : V).

Lemma map_get_set_eq k v m : map_get k (map_set k v m) = Some v.
Proof.
  induction m as [|[k' v'] m IH]; cbn.
  - by rewrite String.eqb_refl.
  - destruct (String.eqb k k') eqn:E; cbn; by rewrite E.
Qed.

Lemma map_get_set_ne k k' v m :
  k <> k' -> map_get k' (map_set k v m) = map_get k' m.
Proof.
  intros Hne. induction m as [|[k0 v0] m IH]; cbn.
  - apply String.eqb_neq in Hne. rewrite String.eqb_sym in Hne. by rewrite Hne.
  - destruct (String.eqb k k0) eqn:E; cbn; [|by rewrite IH].
    apply String.eqb_eq in E; subst k0.
    apply String.eqb_neq in Hne. rewrite String.eqb_sym in Hne. by rewrite Hne.
Qed.

Lemma map_has_set_eq k v m : map_has k (map_set k v m) = true.
Proof. unfold map_has. by rewrite map_get_set_eq. Qed.

Lemma map_has_set_ne k k' v m :
  k <> k' -> map_has k' (map_set k v m) = map_has k' m.
Proof. intros. unfold map_has. by rewrite map_get_set_ne. Qed.

Lemma map_get_delete_eq k m : map_get k (map_delete k m) = None.
Proof.
  induction m as [|[k' v'] m IH]; cbn; [done|].
  destruct (String.eqb k k') eqn:E; cbn; [done|]. by rewrite E.
Qed.

Lemma map_get_delete_ne k k' m :
  k <> k' -> map_get k' (map_delete k m) = map_get k' m.
Proof.
  intros Hne. induction m as [|[k0 v0] m IH]; cbn; [done|].
  destruct (String.eqb k k0) eqn:E; cbn; [|by rewrite IH].
  apply String.eqb_eq in E; subst k0.
  apply String.eqb_neq in Hne. rewrite String.eqb_sym in Hne. by rewrite Hne.
Qed.

Lemma map_has_keys k m : map_has k m = true <-> k ∈ map_keys m.
Proof.
  unfold map_has, map_keys. induction m as [|[k' v'] m IH]; cbn.
  - split; [done|]. by intros ?%elem_of_nil.
  - rewrite elem_of_cons. destruct (String.eqb k k') eqn:E.
    + apply String.eqb_eq in E. split; [auto|done].
    + apply String.eqb_neq in E. rewrite IH. split; [auto|]. by intros [?|?].
Qed.

Lemma map_keys_set_has k v m :
  map_has k m = true -> map_keys (map_set k v m) = map_keys m.
Proof.
  unfold map_has, map_keys. induction m as [|[k' v'] m IH]; cbn; [done|].
  destruct (String.eqb k k') eqn:E; cbn; [done|]. intros H. by rewrite IH.
Qed.

Lemma map_keys_set_new k v m :
  map_has k m = false -> map_keys (map_set k v m) = map_keys m ++ [k].
Proof.
  unfold map_has, map_keys. induction m as [|[k' v'] m IH]; cbn; [done|].
  destruct (String.eqb k k') eqn:E; cbn; [done|]. intros H. by rewrite IH.
Qed.

Lemma map_keys_delete k m :
  map_keys (map_delete k m) = filter (fun k' => k' <> k) (map_keys m).
Proof.
  unfold map_keys. induction m as [|[k' v'] m IH]; [done|].
  cbn [map_delete map fst]. destruct (String.eqb k k') eqn:E.
  - apply String.eqb_eq in E; subst. rewrite filter_cons_False; [done|]. by intros ?.
  - apply String.eqb_neq in E. rewrite filter_cons_True; [|by intros ->].
    cbn [map fst]. by rewrite IH.
Qed.

Lemma map_set_same k v m : map_get k m = Some v -> map_set k v m = m.
Proof.
  induction m as [|[k' v'] m IH]; cbn; [done|].
  destruct (String.eqb k k') eqn:E.
  - by intros [= ->].
  - intros H. by rewrite IH.
Qed.

Lemma map_set_set k v v' m : map_set k v (map_set k v' m) = map_set k v m.
Proof.
  induction m as [|[k' v0] m IH]; cbn.
  - by rewrite String.eqb_refl.
  - destruct (String.eqb k k') eqn:E; cbn; rewrite E; [done|]. by rewrite IH.
Qed.

Lemma map_has_false_get k m : map_has k m = false <-> map_get k m = None.
Proof. unfold map_has. destruct (map_get k m); split; done. Qed.

Lemma map_has_true_get k m : map_has k m = true <-> exists v, map_get k m = Some v.
Proof.
  unfold map_has. destruct (map_get k m); split; eauto; try done.
  by intros [? ?].
Qed.
End JsMapFacts.

(** ** Reasoning about callbacks *)

Section Preservation.
Context (I : State -> Prop).

Lemma preserves_ret {A} (a : A) : preserves I (ret a).
Proof. by intros s. Qed.

Lemma preserves_throw {A} e : preserves I (@throw A e).
Proof. by intros s. Qed.

Lemma preserves_gets {A} (f : State -> A) : preserves I (gets f).
Proof. by intros s. Qed.

Lemma preserves_modify (g : State -> State) :
  (forall s, I s -> I (g s)) -> preserves I (modify g).
Proof. intros H s Hs. by apply H. Qed.

Lemma preserves_bind {A B} (m : Js A) (k : A -> Js B) :
  preserves I m -> (forall a, preserves I (k a)) -> preserves I (bind m k).
Proof.
  intros Hm Hk s Hs. unfold bind. specialize (Hm s Hs).
  destruct (m s) as [[a|e] s']; cbn in *; [by apply Hk|done].
Qed.

Lemma preserves_try_catch {A} (m : Js A) (h : JsError -> Js A) :
  preserves I m -> (forall e, preserves I (h e)) -> preserves I (try_catch m h).
Proof.
  intros Hm Hh s Hs. unfold try_catch. specialize (Hm s Hs).
  destruct (m s) as [[a|e] s']; cbn in *; [done|by apply Hh].
Qed.

Lemma preserves_for_each {A} (l : list A) (f : A -> Js unit) :
  (forall x, preserves I (f x)) -> preserves I (for_each l f).
Proof.
  intros Hf. induction l as [|x l IH]; cbn [for_each].
  - apply preserves_ret.
  - apply preserves_bind; auto.
Qed.
End Preservation.

(** One step of a preservation proof: a combinator, a case split on what the
    code branches on, or the body of the callback. *)
Ltac pres_step :=
  lazymatch goal with
  | |- preserves _ (bind _ _) => apply preserves_bind; [|intros ?]
  | |- preserves _ (ret _) => apply preserves_ret
  | |- preserves _ (throw _) => apply preserves_throw
  | |- preserves _ (gets _) => apply preserves_gets
  | |- preserves _ (try_catch _ _) => apply preserves_try_catch; [|intros ?]
  | |- preserves _ (for_each _ _) => apply preserves_for_each; intros ?
  | |- preserves _ (modify _) => apply preserves_modify; intros ? ?
  | |- preserves _ (match ?x with _ => _ end) => destruct x
  | |- preserves _ (let _ := _ in _) => cbv zeta
  | |- preserves _ (?h _ _ _ _ _ _ _) => unfold h
  | |- preserves _ (?h _ _ _ _ _ _) => unfold h
  | |- preserves _ (?h _ _ _ _ _) => unfold h
  | |- preserves _ (?h _ _ _ _) => unfold h
  | |- preserves _ (?h _ _ _) => unfold h
  | |- preserves _ (?h _ _) => unfold h
  | |- preserves _ (?h _) => unfold h
  | |- preserves _ ?h => unfold h
  end.

Create HintDb pres discriminated.

Ltac pres := repeat first [ solve [eauto 2 with pres] | pres_step ].

Lemma stable_preserves {A B} (f : State -> B) (m : Js A) :
  (forall b, preserves (fun s => f s = b) m) -> stable f m.
Proof. intros H s. by apply (H (f s)). Qed.

(** ** Observations on the effect log *)

Lemma sent_app l l' : sent (l ++ l') = sent l ++ sent l'.
Proof. unfold sent. by rewrite omap_app. Qed.

Lemma offers_to_app p l l' : offers_to p (l ++ l') = (offers_to p l + offers_to p l')%nat.
Proof. unfold offers_to. by rewrite sent_app, List.filter_app, length_app. Qed.

Lemma link_events_app l l' : link_events (l ++ l') = link_events l ++ link_events l'.
Proof. apply List.filter_app. Qed.

Lemma opened_app p l l' : opened p (l ++ l') = (opened p l + opened p l')%nat.
Proof. unfold opened. by rewrite List.filter_app, length_app. Qed.

Lemma closed_app p l l' : closed p (l ++ l') = (closed p l + closed p l')%nat.
Proof. unfold closed. by rewrite List.filter_app, length_app. Qed.

Lemma offers_to_snoc p l e :
  offers_to p (l ++ [e]) =
  (offers_to p l + match e with
                   | ESend _ (out_offer _ q) => if String.eqb p q then 1 else 0
                   | _ => 0
                   end)%nat.
Proof.
  rewrite offers_to_app. f_equal. destruct e as [| | | | | | |? []| | | | | | | |]; try done.
  all: unfold offers_to; cbn; by destruct (String.eqb p _).
Qed.

Lemma opened_snoc p l e :
  opened p (l ++ [e]) =
  (opened p l + match e with
                | ENewPeerConnection q => if String.eqb p q then 1 else 0
                | _ => 0
                end)%nat.
Proof.
  rewrite opened_app. f_equal. destruct e; try done.
  all: unfold opened; cbn; by destruct (String.eqb p _).
Qed.

Lemma closed_snoc p l e :
  closed p (l ++ [e]) =
  (closed p l + match e with
                | EClosePeerConnection q => if String.eqb p q then 1 else 0
                | _ => 0
                end)%nat.
Proof.
  rewrite closed_app. f_equal. destruct e; try done.
  all: unfold closed; cbn; by destruct (String.eqb p _).
Qed.

Lemma sent_snoc l e :
  sent (l ++ [e]) = sent l ++ match e with ESend _ m => [m] | _ => [] end.
Proof. rewrite sent_app. f_equal. by destruct e. Qed.

Lemma link_events_snoc l e :
  link_events (l ++ [e]) = link_events l ++ (if link_event e then [e] else []).
Proof. by rewrite link_events_app. Qed.

#[global] Arguments map_keys : simpl never.
#[global] Arguments map_has : simpl never.
#[global] Arguments createPeerConnection : simpl never.
#[global] Arguments closePeerConnection : simpl never.
#[global] Arguments offers_to : simpl never.
#[global] Arguments opened : simpl never.
#[global] Arguments closed : simpl never.
#[global] Arguments sent : simpl never.
#[global] Arguments link_events : simpl never.
#[global] Arguments attempts : simpl never.
#[global] Arguments requests : simpl never.
#[global] Arguments add_tracks : simpl never.
#[global] Arguments toasts : simpl never.

(** Closing a leaf of a preservation proof: the state is a stack of field
    updates, the log grew by one effect. *)
Ltac leaf :=
  repeat case_match; cbn in *;
  rewrite ?offers_to_snoc, ?opened_snoc, ?closed_snoc, ?sent_snoc, ?link_events_snoc;
  cbn;
  rewrite ?Nat.add_0_r, ?app_nil_r;
  try done.

Section NoThrow.
Lemma no_throw_ret {A} (a : A) : no_throw (ret a).
Proof. intros s. by exists a. Qed.

Lemma no_throw_gets {A} (f : State -> A) : no_throw (gets f).
Proof. intros s. by eexists. Qed.

Lemma no_throw_modify g : no_throw (modify g).
Proof. intros s. by eexists. Qed.

Lemma no_throw_bind {A B} (m : Js A) (k : A -> Js B) :
  no_throw m -> (forall a, no_throw (k a)) -> no_throw (bind m k).
Proof.
  intros Hm Hk s. unfold bind. destruct (Hm s) as [a Ha].
  destruct (m s) as [[a'|e] s']; cbn in Ha; [|done]. apply Hk.
Qed.

Lemma no_throw_try_catch {A} (m : Js A) (h : JsError -> Js A) :
  (forall e, no_throw (h e)) -> no_throw (try_catch m h).
Proof.
  intros Hh s. unfold try_catch. destruct (m s) as [[a|e] s']; [by exists a|apply Hh].
Qed.

Lemma no_throw_for_each {A} (l : list A) (f : A -> Js unit) :
  (forall x, no_throw (f x)) -> no_throw (for_each l f).
Proof.
  intros Hf. induction l as [|x l IH]; cbn [for_each].
  - apply no_throw_ret.
  - apply no_throw_bind; auto.
Qed.
Lemma no_throw_try_catch_body {A} (m : Js A) h : no_throw m -> no_throw (try_catch m h).
Proof.
  intros H s. unfold try_catch. destruct (H s) as [a Ha].
  destruct (m s) as [[a'|e] s1]; cbn in *; [by eexists|done].
Qed.

End NoThrow.

Create HintDb nothrow discriminated.

(** A callback throws nothing when all it may throw is caught: either the
    handler of a [try_catch] throws nothing, or its body does not. *)
Ltac no_throw_step :=
  lazymatch goal with
  | |- no_throw (bind _ _) => apply no_throw_bind; [|intros ?]
  | |- no_throw (ret _) => apply no_throw_ret
  | |- no_throw (gets _) => apply no_throw_gets
  | |- no_throw (modify _) => apply no_throw_modify
  | |- no_throw (for_each _ _) => apply no_throw_for_each; intros ?
  | |- no_throw (match ?x with _ => _ end) => destruct x
  | |- no_throw (let _ := _ in _) => cbv zeta
  | |- no_throw (?h _ _ _ _ _) => unfold h
  | |- no_throw (?h _ _ _ _) => unfold h
  | |- no_throw (?h _ _ _) => unfold h
  | |- no_throw (?h _ _) => unfold h
  | |- no_throw (?h _) => unfold h
  | |- no_throw ?h => unfold h
  end.

Ltac nothrow :=
  repeat first
    [ solve [eauto 2 with nothrow]
    | lazymatch goal with
      | |- no_throw (try_catch _ _) =>
          first [ solve [apply no_throw_try_catch; intros ?; nothrow]
                | apply no_throw_try_catch_body ]
      end
    | no_throw_step ].

Lemma exec_bind {A} (m : Js A) (k : A -> Js unit) s a :
  fst (m s) = Done a -> exec (bind m k) s = exec (k a) (snd (m s)).
Proof. unfold exec, bind. destruct (m s) as [[a'|e] s']; cbn; [by intros [= ->]|done]. Qed.

Lemma with_link_same p pc s :
  map_get p (peersRef s) = Some pc -> with_link p pc [] s = s.
Proof.
  intros H. unfold with_link. destruct s; cbn in *.
  by rewrite app_nil_r, map_set_same.
Qed.

Lemma with_link_with_link p pc pc' evs evs' s :
  with_link p pc' evs' (with_link p pc evs s) = with_link p pc' (evs ++ evs') s.
Proof.
  unfold with_link. destruct s; cbn. by rewrite map_set_set, app_assoc.
Qed.

Lemma pc_with_senders_id pc : pc_with_senders (fun l => l ++ map Some []) pc = pc.
Proof. destruct pc; unfold pc_with_senders; cbn. by rewrite app_nil_r. Qed.

Section Properties.
Variable browser : Browser.

Lemma createPeerConnection_no_throw p b : no_throw (createPeerConnection browser p b).
Proof. nothrow. Qed.

Lemma closePeerConnection_no_throw p : no_throw (closePeerConnection p).
Proof. nothrow. Qed.

Lemma createPeerConnection_present p b s :
  map_has p (peersRef s) = true ->
  createPeerConnection browser p b s = (Done tt, s).
Proof. intros H. unfold createPeerConnection, bind, gets. by rewrite H. Qed.

Lemma pc_update_link p f pc s :
  map_get p (peersRef s) = Some pc ->
  pc_update p f s = (Done tt, with_link p (f pc) [] s).
Proof.
  intros H. unfold pc_update, modify, with_link. rewrite H.
  destruct s; cbn. by rewrite app_nil_r.
Qed.

Lemma pc_addTrack_link p t pc s :
  map_get p (peersRef s) = Some pc ->
  pc_addTrack p t s =
  (Done tt, with_link p (pc_with_senders (fun l => l ++ [Some t]) pc) [EAddTrack p t] s).
Proof.
  intros H. unfold pc_addTrack, bind, emit, modify. cbn.
  unfold pc_update, modify. cbn. rewrite H. done.
Qed.

Lemma for_each_addTrack tracks p pc s :
  map_get p (peersRef s) = Some pc ->
  for_each tracks (pc_addTrack p) s =
  (Done tt, with_link p (pc_with_senders (fun l => l ++ map Some tracks) pc)
                       (map (EAddTrack p) tracks) s).
Proof.
  revert pc s. induction tracks as [|t tracks IH]; intros pc s H.
  - cbn [for_each map]. rewrite pc_with_senders_id, with_link_same; done.
  - cbn [for_each]. unfold bind at 1. rewrite (pc_addTrack_link _ _ pc) by done.
    erewrite IH; [|by apply map_get_set_eq].
    rewrite with_link_with_link. cbn [map app].
    replace (pc_with_senders (fun l => l ++ map Some tracks)
               (pc_with_senders (fun l => l ++ [Some t]) pc))
      with (pc_with_senders (fun l => l ++ Some t :: map Some tracks) pc); [done|].
    destruct pc; unfold pc_with_senders; cbn. by rewrite <- app_assoc.
Qed.

Lemma createPeerConnection_absent p b s :
  map_has p (peersRef s) = false ->
  createPeerConnection browser p b s =
  (if b then
     try_catch
       (o <- pc_createOffer browser p ;;
        pc_setLocalDescription browser p o ;;
        ws_send (out_offer (Some o) p))
       (fun _ => ret tt)
   else ret tt) (after_create p s).
Proof.
  intros H. unfold createPeerConnection, bind at 1, gets at 1. rewrite H.
  unfold bind at 1, emit at 1, modify at 1.
  unfold bind at 1, modify at 1.
  unfold bind at 1, gets at 1.
  set (s1 := set_peersRef _ _).
  assert (Hs1 : map_get p (peersRef s1) = Some newPeerConn) by apply map_get_set_eq.
  unfold bind at 1.
  replace (match localStreamRef s1 with Some tracks => for_each tracks (pc_addTrack p) | None => ret tt end s1)
    with (for_each (default [] (localStreamRef s)) (pc_addTrack p) s1)
    by (subst s1; cbn; by destruct (localStreamRef s)).
  rewrite (for_each_addTrack _ _ _ _ Hs1). f_equal.
  subst s1. unfold after_create, with_link, fresh_conn. destruct s; cbn.
  by rewrite map_set_set, <- app_assoc.
Qed.

Lemma emit_link e p pc s :
  map_get p (peersRef s) = Some pc ->
  emit e s = (Done tt, with_link p pc [e] s).
Proof.
  intros H. unfold emit, modify, with_link. destruct s; cbn in *.
  by rewrite map_set_same.
Qed.

Lemma ws_send_open m i s :
  wsRef s = Some i -> readyState_of s i = Some OPEN ->
  ws_send m s = emit (ESend i m) s.
Proof. intros Hw Hr. unfold ws_send, bind, gets. by rewrite Hw, Hr. Qed.

Lemma offer_block_open p pc i s :
  map_get p (peersRef s) = Some pc ->
  wsRef s = Some i -> readyState_of s i = Some OPEN ->
  rtc_ok browser p OpCreateOffer = true ->
  rtc_ok browser p OpSetLocalDescription = true ->
  try_catch
    (o <- pc_createOffer browser p ;;
     pc_setLocalDescription browser p o ;;
     ws_send (out_offer (Some o) p))
    (fun _ => ret tt) s =
  (Done tt, with_link p (pc_with_local (Some (local_offer browser p)) pc)
              [ESend i (out_offer (Some (local_offer browser p)) p)] s).
Proof.
  intros Hpc Hw Hr Ho Hl.
  unfold try_catch, bind, pc_createOffer, pc_setLocalDescription, rtc_step.
  rewrite Ho, Hl. unfold ret at 1.
  rewrite (pc_update_link _ _ pc) by done.
  rewrite ws_send_open with (i := i) by done.
  erewrite emit_link; [|by apply map_get_set_eq].
  by rewrite with_link_with_link.
Qed.

Lemma createPeerConnection_other p q b v :
  q <> p ->
  preserves (fun s => link_view p s = v) (createPeerConnection browser q b).
Proof.
  intros Hne. apply String.eqb_neq in Hne as Hqp.
  assert (Hpq : String.eqb p q = false) by (by rewrite String.eqb_sym).
  pres.
  all: unfold link_view in *; leaf.
  all: rewrite ?Hpq, ?Nat.add_0_r, ?map_get_set_ne by done; try done.
Qed.

Lemma createPeerConnection_known p q b v pc :
  fst (fst v) = Some pc ->
  preserves (fun s => link_view p s = v) (createPeerConnection browser q b).
Proof.
  intros Hv. destruct (decide (q = p)) as [->|Hne].
  - intros s Hs. rewrite createPeerConnection_present; [done|].
    unfold link_view in Hs. subst v. cbn in Hv. apply map_has_true_get; eauto.
  - by apply createPeerConnection_other.
Qed.

Lemma createPeerConnection_has p b s :
  map_has p (peersRef (exec (createPeerConnection browser p b) s)) = true.
Proof.
  destruct (map_has p (peersRef s)) eqn:H.
  - unfold exec. by rewrite createPeerConnection_present.
  - unfold exec. rewrite createPeerConnection_absent by done.
    assert (H0 : map_has p (peersRef (after_create p s)) = true)
      by apply map_has_set_eq.
    revert H0. generalize (after_create p s).
    change (preserves (fun s => map_has p (peersRef s) = true)
              (if b then
                 try_catch
                   (o <- pc_createOffer browser p ;;
                    pc_setLocalDescription browser p o ;;
                    ws_send (out_offer (Some o) p))
                   (fun _ => ret tt)
               else ret tt)).
    pres; leaf. by rewrite map_has_set_eq.
Qed.

Lemma createPeerConnection_outside p b :
  stable outside_links (createPeerConnection browser p b).
Proof. apply stable_preserves; intros v. pres; leaf. Qed.

Lemma user_joined_known u s :
  map_has (user_id u) (peersRef s) = true \/ user_id u = selfId s ->
  exec (ws_onmessage browser (user_joined u)) s =
  set_log (log s ++ [EToast t_success (String.append (user_name u) " joined the call")])
    (set_participants (participants s ++ [u]) s).
Proof.
  intros H. unfold exec, ws_onmessage, try_catch, handleWebSocketMessage.
  unfold bind, modify, gets. cbn.
  destruct (String.eqb (user_id u) (selfId s)) eqn:E; cbn; [done|].
  destruct H as [H|H]; [|apply String.eqb_neq in E; done].
  rewrite createPeerConnection_present by done. done.
Qed.

Lemma user_joined_participants u s :
  participants (exec (ws_onmessage browser (user_joined u)) s) = participants s ++ [u].
Proof.
  unfold exec, ws_onmessage, handleWebSocketMessage.
  set (rest := bind (gets selfId) _).
  assert (Hst : stable participants (try_catch rest (fun _ => ret tt))).
  { apply stable_preserves; intros l. subst rest. pres; leaf. }
  exact (Hst (set_participants (participants s ++ [u]) s)).
Qed.

Lemma user_joined_then_known u s :
  let s1 := exec (ws_onmessage browser (user_joined u)) s in
  map_has (user_id u) (peersRef s1) = true \/ user_id u = selfId s1.
Proof.
  cbn zeta. unfold exec, ws_onmessage, try_catch, handleWebSocketMessage.
  unfold bind, modify, gets. cbn.
  destruct (String.eqb (user_id u) (selfId s)) eqn:E; cbn.
  - right. by apply String.eqb_eq.
  - left. set (s0 := set_participants _ s).
    pose proof (createPeerConnection_has (user_id u) true s0) as Hh.
    pose proof (createPeerConnection_no_throw (user_id u) true s0) as [[] Hd].
    unfold exec in Hh.
    destruct (createPeerConnection browser (user_id u) true s0) as [[[]|e] s2];
      cbn in *; done.
Qed.

(** C10. Every [user_joined] appends its descriptor to the participants list,
    whatever the peer map says: a second delivery of the same message makes
    the list (and the count shown) grow again, while the peer map, the
    messages sent and the connection objects stay as they were. *)
Theorem user_joined_appends_unconditionally (u : Participant) (s : State) :
  let s1 := exec (ws_onmessage browser (user_joined u)) s in
  let s2 := exec (ws_onmessage browser (user_joined u)) s1 in
  participants s1 = participants s ++ [u]
  /\ participants s2 = participants s ++ [u; u]
  /\ shown_count s2 = S (shown_count s1)
  /\ peersRef s2 = peersRef s1
  /\ sent (log s2) = sent (log s1)
  /\ link_events (log s2) = link_events (log s1).
Proof.
  intros s1 s2.
  assert (H1 : participants s1 = participants s ++ [u])
    by apply user_joined_participants.
  assert (H2 : participants s2 = participants s ++ [u; u]).
  { subst s2. rewrite user_joined_participants, H1, <- app_assoc. done. }
  split; [done|]. split; [done|].
  split. { unfold shown_count. rewrite H2, H1, !length_app. cbn. lia. }
  subst s2. rewrite user_joined_known by apply user_joined_then_known.
  cbn. rewrite sent_snoc, link_events_snoc. cbn. by rewrite !app_nil_r.
Qed.

(** *** Accounting of connection objects *)

Lemma opened_link_events p l : opened p (link_events l) = opened p l.
Proof.
  unfold opened, link_events. induction l as [|e l IH]; [done|].
  destruct e; cbn; try done.
  all: destruct (String.eqb p _); cbn; by rewrite IH.
Qed.

Lemma closed_link_events p l : closed p (link_events l) = closed p l.
Proof.
  unfold closed, link_events. induction l as [|e l IH]; [done|].
  destruct e; cbn; try done.
  all: destruct (String.eqb p _); cbn; by rewrite IH.
Qed.

Lemma map_has_by_keys {V} p (m m' : list (string * V)) :
  map_keys m' = map_keys m -> map_has p m' = map_has p m.
Proof.
  intros H. destruct (map_has p m) eqn:E.
  - apply map_has_keys. rewrite H. by apply map_has_keys.
  - destruct (map_has p m') eqn:E'; [|done].
    apply map_has_keys in E'. rewrite H in E'. apply map_has_keys in E'. congruence.
Qed.

Lemma links_ok_view s s' :
  map_keys (peersRef s') = map_keys (peersRef s) ->
  link_events (log s') = link_events (log s) ->
  links_ok s -> links_ok s'.
Proof.
  intros Hk Hl [Hn Hc]. split; [by rewrite Hk|]. intros p.
  rewrite <- opened_link_events, <- closed_link_events, Hl.
  rewrite opened_link_events, closed_link_events, (map_has_by_keys p _ _ Hk).
  apply Hc.
Qed.

Lemma map_keys_update {V} q (f : V -> V) (m : list (string * V)) pc :
  map_get q m = Some pc -> map_keys (map_set q (f pc) m) = map_keys m.
Proof. intros H. apply map_keys_set_has. apply map_has_true_get. eauto. Qed.

(** A leaf that leaves the keys of the peer map and the connection events
    alone keeps the accounting. *)
Ltac links_leaf :=
  lazymatch goal with
  | H : links_ok ?s |- links_ok _ =>
      refine (links_ok_view s _ _ _ H); leaf;
      try (erewrite map_keys_update by eassumption; done)
  end.

Lemma sent_addTracks p tracks : sent (map (EAddTrack p) tracks) = [].
Proof. by induction tracks. Qed.

Lemma offers_to_addTracks q p tracks : offers_to q (map (EAddTrack p) tracks) = 0.
Proof. unfold offers_to. by rewrite sent_addTracks. Qed.

Lemma opened_addTracks q p tracks : opened q (map (EAddTrack p) tracks) = 0.
Proof. by induction tracks. Qed.

Lemma closed_addTracks q p tracks : closed q (map (EAddTrack p) tracks) = 0.
Proof. by induction tracks. Qed.

Lemma links_ok_after_create p s :
  map_has p (peersRef s) = false -> links_ok s -> links_ok (after_create p s).
Proof.
  intros H [Hn Hc]. split.
  - cbn. rewrite map_keys_set_new by done. apply NoDup_app. split; [done|].
    split; [|apply NoDup_singleton].
    intros x Hx ->%list_elem_of_singleton. apply map_has_keys in Hx. congruence.
  - intros q. cbn.
    change (ENewPeerConnection p :: ?l) with ([ENewPeerConnection p] ++ l).
    rewrite app_assoc, opened_app, closed_app, opened_addTracks, closed_addTracks.
    rewrite opened_snoc, closed_snoc, !Nat.add_0_r, Hc.
    destruct (String.eqb q p) eqn:E.
    + apply String.eqb_eq in E; subst q. rewrite map_has_set_eq, H. lia.
    + apply String.eqb_neq in E. rewrite map_has_set_ne by done. lia.
Qed.

Lemma createPeerConnection_links_ok p b :
  preserves links_ok (createPeerConnection browser p b).
Proof.
  intros s Hs. destruct (map_has p (peersRef s)) eqn:H.
  - by rewrite createPeerConnection_present.
  - rewrite createPeerConnection_absent by done.
    apply (links_ok_after_create p) in Hs; [|done].
    revert Hs. generalize (after_create p s).
    change (preserves links_ok
              (if b then
                 try_catch
                   (o <- pc_createOffer browser p ;;
                    pc_setLocalDescription browser p o ;;
                    ws_send (out_offer (Some o) p))
                   (fun _ => ret tt)
               else ret tt)).
    pres; links_leaf.
Qed.

Lemma map_has_delete_ne {V} p q (m : list (string * V)) :
  p <> q -> map_has q (map_delete p m) = map_has q m.
Proof. intros. unfold map_has. by rewrite map_get_delete_ne. Qed.

Lemma closePeerConnection_links_ok p : preserves links_ok (closePeerConnection p).
Proof.
  intros s Hs. unfold closePeerConnection, bind, gets, emit, modify.
  destruct (map_get p (peersRef s)) as [pc|] eqn:Epc; cbn; [|links_leaf].
  destruct Hs as [Hn Hc]. split; cbn.
  - rewrite map_keys_delete. by apply NoDup_filter.
  - intros q. rewrite opened_snoc, closed_snoc, Nat.add_0_r, Hc.
    destruct (String.eqb q p) eqn:E.
    + apply String.eqb_eq in E; subst q.
      assert (map_has p (peersRef s) = true) as -> by (apply map_has_true_get; eauto).
      assert (map_has p (map_delete p (peersRef s)) = false) as ->
        by (apply map_has_false_get, map_get_delete_eq).
      lia.
    + apply String.eqb_neq in E. rewrite map_has_delete_ne by congruence. lia.
Qed.

Lemma for_each_close ks s :
  for_each ks (fun p => emit (EClosePeerConnection p)) s =
  (Done tt, set_log (log s ++ map EClosePeerConnection ks) s).
Proof.
  revert s. induction ks as [|k ks IH]; intros s.
  - cbn. unfold ret. destruct s; cbn. by rewrite app_nil_r.
  - cbn [for_each]. unfold bind, emit at 1, modify. rewrite IH. cbn.
    by rewrite <- app_assoc.
Qed.

Lemma opened_closes q ks : opened q (map EClosePeerConnection ks) = 0.
Proof. by induction ks. Qed.

Lemma closed_closes q ks :
  NoDup ks ->
  closed q (map EClosePeerConnection ks) = if bool_decide (q ∈ ks) then 1 else 0.
Proof.
  induction 1 as [|k ks Hk Hn IH]; [done|].
  cbn [map]. change (?e :: ?l) with ([e] ++ l).
  rewrite closed_app, IH. unfold closed at 1. cbn.
  destruct (String.eqb q k) eqn:E.
  - apply String.eqb_eq in E; subst k.
    rewrite (bool_decide_eq_false_2 (q ∈ ks)) by done.
    rewrite bool_decide_eq_true_2 by (apply elem_of_cons; by left). done.
  - apply String.eqb_neq in E. cbn.
    destruct (bool_decide (q ∈ ks)) eqn:E'.
    + apply bool_decide_eq_true in E'.
      rewrite bool_decide_eq_true_2 by (apply elem_of_cons; by right). done.
    + apply bool_decide_eq_false in E'. rewrite bool_decide_eq_false_2; [done|].
      intros [?|?]%elem_of_cons; done.
Qed.

Lemma cleanup_links_ok : preserves links_ok cleanup.
Proof.
  unfold cleanup. apply preserves_bind; [pres|]. intros w.
  apply preserves_bind; [pres; links_leaf|]. intros _.
  intros s Hs. unfold bind at 1, forEachPeer, bind at 1, gets at 1.
  rewrite for_each_close. unfold bind at 1, modify at 1.
  set (s2 := set_peersRef _ _).
  assert (H2 : links_ok s2).
  { destruct Hs as [Hn Hc]. subst s2. split; cbn; [apply NoDup_nil_2|].
    intros q. rewrite opened_app, closed_app, opened_closes, closed_closes by done.
    rewrite Hc. change (map_has q []) with false.
    destruct (map_has q (peersRef s)) eqn:E.
    - rewrite bool_decide_eq_true_2 by (by apply map_has_keys). lia.
    - rewrite bool_decide_eq_false_2; [lia|]. intros ?%map_has_keys. congruence. }
  revert H2. generalize s2. clear.
  match goal with |- forall s, links_ok s -> links_ok (snd (?m s)) =>
    change (preserves links_ok m) end.
  pres; links_leaf.
Qed.

Lemma emit_links_ok e : link_event e = false -> preserves links_ok (emit e).
Proof. intros H s Hs. unfold emit, modify. links_leaf. by rewrite H, app_nil_r. Qed.

Lemma pc_update_links_ok p f : preserves links_ok (pc_update p f).
Proof. unfold pc_update. pres. links_leaf. Qed.

#[local] Hint Resolve createPeerConnection_links_ok closePeerConnection_links_ok
  cleanup_links_ok pc_update_links_ok : pres.
#[local] Hint Extern 1 (preserves links_ok (emit _)) =>
  (apply emit_links_ok; reflexivity) : pres.

Lemma handle_links_ok ev : preserves links_ok (handle browser ev).
Proof.
  destruct ev; unfold handle.
  all: pres.
  all: try links_leaf.
Qed.

Lemma initialState_links_ok uid : links_ok (initialState uid).
Proof. split; [apply NoDup_nil_2|done]. Qed.

Lemma run_links_ok evs s : links_ok s -> links_ok (run browser evs s).
Proof.
  revert s. induction evs as [|ev evs IH]; intros s Hs; [done|].
  cbn. apply IH. by apply handle_links_ok.
Qed.

Lemma answer_block from o pc i s :
  map_get from (peersRef s) = Some pc ->
  wsRef s = Some i -> readyState_of s i = Some OPEN ->
  rtc_ok browser from OpSetRemoteDescription = true ->
  rtc_ok browser from OpCreateAnswer = true ->
  rtc_ok browser from OpSetLocalDescription = true ->
  (pc_setRemoteDescription browser from o ;;
   a <- pc_createAnswer browser from ;;
   pc_setLocalDescription browser from a ;;
   ws_send (out_answer a from)) s =
  (Done tt,
   with_link from
     (pc_with_local (Some (local_answer browser from)) (pc_with_remote (Some o) pc))
     [ESend i (out_answer (local_answer browser from) from)] s).
Proof.
  intros Hpc Hw Hr H1 H2 H3.
  unfold bind, pc_setRemoteDescription, pc_createAnswer, pc_setLocalDescription, rtc_step.
  rewrite H1, H2, H3. unfold ret at 1.
  rewrite (pc_update_link _ _ pc) by done.
  erewrite pc_update_link; [|by apply map_get_set_eq].
  rewrite ws_send_open with (i := i) by done.
  erewrite emit_link; [|by apply map_get_set_eq].
  by rewrite !with_link_with_link.
Qed.

(** C8. An offer from [from] makes the client the responder: a connection is
    created for [from] only if there is none, and then without an offer of
    its own; the offer becomes the remote description, the answer the local
    one, and the one message sent is that answer, addressed to [from]. *)
Theorem offer_is_answered (from : string) (to : option string) (o : Desc)
    (i : nat) (s : State) :
  wsRef s = Some i -> readyState_of s i = Some OPEN ->
  rtc_ok browser from OpSetRemoteDescription = true ->
  rtc_ok browser from OpCreateAnswer = true ->
  rtc_ok browser from OpSetLocalDescription = true ->
  let s' := exec (ws_onmessage browser (in_offer from to o)) s in
  let a := local_answer browser from in
  (exists pc, map_get from (peersRef s') = Some pc
              /\ remoteDescription pc = Some o /\ localDescription pc = Some a)
  /\ log s' =
     log s ++
     (if map_has from (peersRef s) then []
      else ENewPeerConnection from :: map (EAddTrack from) (default [] (localStreamRef s)))
     ++ [ESend i (out_answer a from)]
  /\ sent (log s') = sent (log s) ++ [out_answer a from].
Proof.
  intros Hw Hr H1 H2 H3 s' a.
  assert (Hs' : exists pc evs,
             s' = with_link from
                    (pc_with_local (Some a) (pc_with_remote (Some o) pc))
                    (evs ++ [ESend i (out_answer a from)]) s
             /\ evs = (if map_has from (peersRef s) then []
                       else ENewPeerConnection from ::
                            map (EAddTrack from) (default [] (localStreamRef s)))).
  { subst s'. unfold exec, ws_onmessage, handleWebSocketMessage, try_catch, handleOffer.
    unfold bind at 1. destruct (map_has from (peersRef s)) eqn:Hh.
    - rewrite createPeerConnection_present by done.
      apply map_has_true_get in Hh as [pc Hpc]. unfold bind at 1, gets at 1.
      rewrite Hpc. rewrite (answer_block _ _ pc i) by done. cbn [snd]. by exists pc, [].
    - rewrite createPeerConnection_absent by done. unfold ret at 1.
      set (pc := fresh_conn (default [] (localStreamRef s))).
      assert (Hpc : map_get from (peersRef (after_create from s)) = Some pc)
        by apply map_get_set_eq.
      unfold bind at 1, gets at 1. rewrite Hpc.
      rewrite (answer_block _ _ pc i) by done. cbn [snd].
      unfold after_create. rewrite with_link_with_link. by eexists pc, _. }
  destruct Hs' as (pc & evs & -> & Hevs). split; [|split].
  - eexists. split; [apply map_get_set_eq|]. done.
  - cbn. by rewrite Hevs.
  - cbn. rewrite !sent_app. rewrite Hevs. f_equal.
    destruct (map_has from (peersRef s)); [done|].
    change (ENewPeerConnection from :: ?l) with ([ENewPeerConnection from] ++ l).
    by rewrite sent_app, sent_addTracks.
Qed.

(** C3. For a participant that already has an entry in the peer map,
    discovery is a no-op: [createPeerConnection] returns at once with the
    state untouched, a repeated [user_joined] changes neither the map nor
    what was sent nor the connection objects, a [room_info] listing the
    participant again leaves its connection, the offers sent to it and the
    objects created for it as they were; and in every reachable state the map
    has one entry per participant, with at most one connection object alive
    for each. *)
Theorem discovery_is_idempotent (p : string) (s : State) :
  map_has p (peersRef s) = true ->
  (forall b, createPeerConnection browser p b s = (Done tt, s))
  /\ (forall u, user_id u = p ->
        let s' := exec (ws_onmessage browser (user_joined u)) s in
        peersRef s' = peersRef s
        /\ sent (log s') = sent (log s)
        /\ link_events (log s') = link_events (log s))
  /\ (forall l,
        let s' := exec (ws_onmessage browser (room_info (Some l))) s in
        link_view p s' = link_view p s)
  /\ (forall uid evs q,
        let r := run browser evs (initialState uid) in
        NoDup (map_keys (peersRef r))
        /\ opened q (log r) <= closed q (log r) + 1).
Proof.
  intros Hp. split; [|split; [|split]].
  - intros b. by apply createPeerConnection_present.
  - intros u <- s'. subst s'. rewrite user_joined_known by auto.
    cbn. by rewrite sent_snoc, link_events_snoc, !app_nil_r.
  - intros l s'. subst s'.
    apply map_has_true_get in Hp as [pc Hpc].
    assert (Hk : forall q b, preserves (fun s' => link_view p s' = link_view p s)
                               (createPeerConnection browser q b)).
    { intros q b. apply createPeerConnection_known with pc. by cbn. }
    assert (H : preserves (fun s' => link_view p s' = link_view p s)
                  (ws_onmessage browser (room_info (Some l)))).
    { unfold ws_onmessage, handleWebSocketMessage. pres. }
    by apply H.
  - intros uid evs q r.
    destruct (run_links_ok evs _ (initialState_links_ok uid)) as [Hn Hc].
    split; [done|]. subst r. rewrite Hc. destruct (map_has q _); lia.
Qed.

(** C4. When the transport to [p] reports [failed] or [disconnected], the
    link is dropped on the spot: the connection is closed and leaves the peer
    map, the remote stream of [p] is forgotten, nothing is created or sent in
    its place, the other links are untouched, and the participants list is
    what it was. *)
Theorem transport_failure_tears_down (p : string) (st : ConnectionState) (s : State) :
  st = cs_failed \/ st = cs_disconnected ->
  let s' := exec (onconnectionstatechange p st) s in
  map_get p (peersRef s') = None
  /\ remoteStreams s' !! p = None
  /\ participants s' = participants s
  /\ log s' = log s ++ (if map_has p (peersRef s) then [EClosePeerConnection p] else [])
  /\ (forall q, q <> p ->
        map_get q (peersRef s') = map_get q (peersRef s)
        /\ remoteStreams s' !! q = remoteStreams s !! q).
Proof.
  intros Hst s'.
  assert (Hs' : s' = exec (closePeerConnection p) s) by (by destruct Hst; subst).
  rewrite Hs'. clear. unfold exec, closePeerConnection, bind, gets, emit, modify.
  unfold map_has. destruct (map_get p (peersRef s)) as [pc|] eqn:E; cbn.
  - rewrite map_get_delete_eq, lookup_delete_eq. repeat split; try done.
    + by apply map_get_delete_ne.
    + by apply lookup_delete_ne.
  - rewrite E, lookup_delete_eq, app_nil_r. repeat split; try done.
    by apply lookup_delete_ne.
Qed.


(** *** Who initiates *)

Lemma channel_open_outside i me s s' :
  outside_links s' = outside_links s -> channel_open i me s -> channel_open i me s'.
Proof.
  intros H (Hw & Hr & Hm). repeat split.
  - change (wsRef (outside_links s') = Some i). by rewrite H.
  - change (readyState_of (outside_links s') i = Some OPEN). by rewrite H.
  - change (selfId (outside_links s') = me). by rewrite H.
Qed.

(** Discovering an unknown participant as initiator: one connection object,
    one offer. *)
Lemma createPeerConnection_offers p i me s :
  channel_open i me s ->
  map_has p (peersRef s) = false ->
  rtc_ok browser p OpCreateOffer = true ->
  rtc_ok browser p OpSetLocalDescription = true ->
  let s' := exec (createPeerConnection browser p true) s in
  offers_to p (log s') = offers_to p (log s) + 1
  /\ opened p (log s') = opened p (log s) + 1
  /\ map_has p (peersRef s') = true.
Proof.
  intros (Hw & Hr & Hm) Hh Ho Hl s'. subst s'. unfold exec.
  rewrite createPeerConnection_absent by done.
  rewrite (offer_block_open p (fresh_conn (default [] (localStreamRef s))) i);
    try done; [|apply map_get_set_eq].
  unfold after_create. rewrite with_link_with_link. cbn.
  change (ENewPeerConnection p :: ?l) with ([ENewPeerConnection p] ++ l).
  rewrite !offers_to_app, !opened_app, offers_to_addTracks, opened_addTracks.
  rewrite map_has_set_eq.
  unfold offers_to, opened, sent; cbn. rewrite String.eqb_refl. cbn. lia.
Qed.

Lemma discover_no_throw me x : no_throw (discover browser me x).
Proof.
  unfold discover. destruct (negb _); [apply createPeerConnection_no_throw|apply no_throw_ret].
Qed.

Lemma discover_outside me x : stable outside_links (discover browser me x).
Proof.
  unfold discover. destruct (negb _); [apply createPeerConnection_outside|done].
Qed.

Lemma for_each_discover_known p me l s pc :
  map_get p (peersRef s) = Some pc ->
  link_view p (exec (for_each l (discover browser me)) s) = link_view p s.
Proof.
  intros Hpc.
  assert (H : preserves (fun s' => link_view p s' = link_view p s)
                (for_each l (discover browser me))).
  { apply preserves_for_each. intros x. unfold discover.
    destruct (negb _); [|apply preserves_ret].
    by apply createPeerConnection_known with pc. }
  by apply H.
Qed.

Lemma for_each_discover p i me l s :
  p <> me ->
  channel_open i me s ->
  map_has p (peersRef s) = false ->
  rtc_ok browser p OpCreateOffer = true ->
  rtc_ok browser p OpSetLocalDescription = true ->
  p ∈ map user_id l ->
  let s' := exec (for_each l (discover browser me)) s in
  offers_to p (log s') = offers_to p (log s) + 1
  /\ opened p (log s') = opened p (log s) + 1
  /\ map_has p (peersRef s') = true.
Proof.
  intros Hme Hch Hh Ho Hl. revert s Hch Hh.
  induction l as [|x l IH]; intros s Hch Hh Hin; [by apply elem_of_nil in Hin|].
  cbn [for_each]. cbn zeta.
  rewrite (exec_bind _ _ _ tt)
    by (destruct (discover_no_throw me x s) as [[] ?]; done).
  fold (exec (discover browser me x) s).
  destruct (decide (user_id x = p)) as [Hx|Hx].
  - assert (Hd : discover browser me x = createPeerConnection browser p true).
    { unfold discover. rewrite Hx.
      apply String.eqb_neq in Hme. by rewrite Hme. }
    rewrite Hd.
    destruct (createPeerConnection_offers p i me s Hch Hh Ho Hl) as (H1 & H2 & H3).
    apply map_has_true_get in H3 as [pc Hpc].
    pose proof (for_each_discover_known p me l _ pc Hpc) as Hv.
    unfold link_view in Hv. injection Hv as Hv1 Hv2 Hv3.
    rewrite Hv2, Hv3, H1, H2. repeat split; try done.
    apply map_has_true_get. rewrite Hv1. eauto.
  - assert (Hv : link_view p (exec (discover browser me x) s) = link_view p s).
    { unfold discover. destruct (negb _); [|done].
      by apply (createPeerConnection_other p (user_id x) true (link_view p s)). }
    unfold link_view in Hv. injection Hv as Hv1 Hv2 Hv3.
    rewrite <- Hv2, <- Hv3. apply IH.
    + eapply channel_open_outside; [|done]. apply discover_outside.
    + apply map_has_false_get. rewrite Hv1. by apply map_has_false_get.
    + cbn in Hin. apply elem_of_cons in Hin as [?|?]; [congruence|done].
Qed.

(** C1 (as the code has it). Both discovery paths make the local client the
    initiator.  For a participant [u] other than the local user and not yet
    in the peer map (socket open, offer creation succeeding): the existing
    member, on [user_joined u], creates one connection for [u] and sends one
    offer to [u]; the new joiner, on a [room_info] that lists [u], does the
    same; a connection is created without an offer only when the offer of
    [u] arrives first. *)
Theorem both_discovery_paths_initiate (u : Participant) (i : nat) (s : State) :
  user_id u <> selfId s ->
  map_has (user_id u) (peersRef s) = false ->
  wsRef s = Some i -> readyState_of s i = Some OPEN ->
  rtc_ok browser (user_id u) OpCreateOffer = true ->
  rtc_ok browser (user_id u) OpSetLocalDescription = true ->
  let p := user_id u in
  (let s' := exec (ws_onmessage browser (user_joined u)) s in
   offers_to p (log s') = offers_to p (log s) + 1
   /\ opened p (log s') = opened p (log s) + 1
   /\ map_has p (peersRef s') = true)
  /\ (forall l, u ∈ l ->
        let s' := exec (ws_onmessage browser (room_info (Some l))) s in
        offers_to p (log s') = offers_to p (log s) + 1
        /\ opened p (log s') = opened p (log s) + 1
        /\ map_has p (peersRef s') = true)
  /\ (forall to o,
        let s' := exec (ws_onmessage browser (in_offer p to o)) s in
        offers_to p (log s') = offers_to p (log s)
        /\ opened p (log s') = opened p (log s) + 1
        /\ map_has p (peersRef s') = true).
Proof.
  intros Hme Hh Hw Hr Ho Hl p.
  assert (Hch : channel_open i (selfId s) s) by done.
  split; [|split].
  - intros s'.
    assert (Hs' : s' = exec (toast t_success (String.append (user_name u) " joined the call"))
                         (exec (createPeerConnection browser p true)
                               (set_participants (participants s ++ [u]) s))).
    { subst s'. unfold exec, ws_onmessage, handleWebSocketMessage, try_catch.
      unfold bind at 1, modify at 1. unfold bind at 1, gets at 1.
      cbn [selfId set_participants].
      apply String.eqb_neq in Hme as Hme'. rewrite Hme'. cbn [negb]. fold p.
      unfold bind.
      destruct (createPeerConnection_no_throw p true
                  (set_participants (participants s ++ [u]) s)) as [[] Hd].
      by destruct (createPeerConnection browser p true _) as [[[]|e] s1]. }
    clearbody s'. subst s'.
    destruct (createPeerConnection_offers p i (selfId s)
                (set_participants (participants s ++ [u]) s) Hch Hh Ho Hl)
      as (H1 & H2 & H3).
    cbn. by rewrite offers_to_snoc, opened_snoc, !Nat.add_0_r.
  - intros l Hin s'.
    assert (Hs' : s' = exec (for_each l (discover browser (selfId s)))
                         (set_participants l s)).
    { subst s'. unfold exec, ws_onmessage, handleWebSocketMessage, try_catch.
      unfold bind at 1, modify at 1. unfold bind at 1, gets at 1.
      cbn [selfId set_participants default]. unfold discover.
      by destruct (for_each l _ _) as [[[]|e] s1]. }
    clearbody s'. subst s'.
    assert (Hin' : p ∈ map user_id l) by (apply list_elem_of_fmap; eauto).
    exact (for_each_discover p i (selfId s) l (set_participants l s)
             Hme Hch Hh Ho Hl Hin').
  - intros to o s'.
    set (rest := (pc <- gets (fun s => map_get p (peersRef s)) ;;
                  match pc with
                  | Some _ =>
                      pc_setRemoteDescription browser p o ;;
                      a <- pc_createAnswer browser p ;;
                      pc_setLocalDescription browser p a ;;
                      ws_send (out_answer a p)
                  | None => ret tt
                  end)).
    assert (Hs' : s' = snd (rest (after_create p s))).
    { subst s'. unfold exec, ws_onmessage, handleWebSocketMessage, try_catch, handleOffer.
      unfold bind at 1. rewrite createPeerConnection_absent by done. unfold ret at 1.
      fold rest. by destruct (rest _) as [[[]|e] s2]. }
    clearbody s'. subst s'.
    assert (Hp : forall n k,
               preserves (fun s => offers_to p (log s) = n /\ opened p (log s) = k
                                   /\ map_has p (peersRef s) = true) rest).
    { intros n k. subst rest. pres; leaf.
      all: repeat split; try tauto.
      all: try (rewrite map_has_set_eq; done).
      all: try (rewrite ?Nat.add_0_r; tauto). }
    apply Hp. cbn. rewrite map_has_set_eq.
    change (ENewPeerConnection p :: ?l) with ([ENewPeerConnection p] ++ l).
    rewrite !offers_to_app, !opened_app, offers_to_addTracks, opened_addTracks.
    unfold offers_to, opened, sent; cbn. rewrite String.eqb_refl. cbn. lia.
Qed.

(** *** Reconnection of the signaling channel *)

Lemma timers_ok_snoc s t :
  (is_reconnect t = true -> t_delay t = 3000%Z) ->
  Forall (fun t => is_reconnect t = true -> t_delay t = 3000%Z) (timers s) ->
  Forall (fun t => is_reconnect t = true -> t_delay t = 3000%Z) (timers s ++ [t]).
Proof. intros Ht H. apply Forall_app. split; [done|]. by apply Forall_singleton. Qed.

Lemma timers_ok_disarm s n :
  Forall (fun t => is_reconnect t = true -> t_delay t = 3000%Z) (timers s) ->
  Forall (fun t => is_reconnect t = true -> t_delay t = 3000%Z)
         (alter timer_disarm n (timers s)).
Proof.
  intros H. apply Forall_lookup. intros j t Hj.
  destruct (decide (n = j)) as [->|Hne].
  - rewrite list_lookup_alter_eq in Hj.
    destruct (timers s !! j) as [t0|] eqn:E; [|done]. cbn in Hj. injection Hj as <-.
    rewrite Forall_lookup in H. exact (H j t0 E).
  - rewrite list_lookup_alter_ne in Hj by done.
    rewrite Forall_lookup in H. exact (H j t Hj).
Qed.

Ltac timers_leaf :=
  unfold timers_ok in *; leaf;
  first [ done
        | apply timers_ok_snoc; [by cbn|done]
        | by apply timers_ok_disarm ].

Lemma handle_timers_ok ev : preserves timers_ok (handle browser ev).
Proof.
  destruct ev; unfold handle.
  all: pres.
  all: try timers_leaf.
Qed.

Lemma run_timers_ok evs s : timers_ok s -> timers_ok (run browser evs s).
Proof.
  revert s. induction evs as [|ev evs IH]; intros s Hs; [done|].
  cbn. apply IH. by apply handle_timers_ok.
Qed.

Lemma reconnect_delays_ok s : timers_ok s -> Forall (eq 3000%Z) (reconnect_delays s).
Proof.
  unfold timers_ok, reconnect_delays. induction 1 as [|t l Ht Hl IH]; [constructor|].
  cbn. destruct (is_reconnect t) eqn:E; [|done]. cbn. constructor; [|done].
  symmetry. by apply Ht.
Qed.

Lemma attempts_snoc l e :
  attempts (l ++ [e]) =
  attempts l + match e with ENewWebSocket _ _ => 1 | _ => 0 end.
Proof.
  unfold attempts. rewrite List.filter_app, length_app. f_equal. by destruct e.
Qed.

(** The state once socket [k] was closed by the browser and [ws.onclose]
    has run with an abnormal code. *)
Lemma abnormal_close s k sock code :
  wsRef s = Some k -> sockets s !! k = Some sock -> ws_state sock <> CLOSED ->
  code <> 1000%Z ->
  step browser s (EvSocketClose k code) =
  let t := length (timers s) in
  let armed := {| t_delay := 3000; t_action := ReconnectTimer (ws_room sock);
                  t_armed := true |} in
  set_reconnectTimeoutRef (Some t)
    (set_log (log s ++ match reconnectTimeoutRef s with
                       | Some n => [EClearTimeout n]
                       | None => []
                       end ++ [ESetTimeout t 3000])
       (set_timers (match reconnectTimeoutRef s with
                    | Some n => alter timer_disarm n (timers s)
                    | None => timers s
                    end ++ [armed])
          (set_isConnected false
             (set_sockets (alter (sock_with_state CLOSED) k (sockets s)) s)))).
Proof.
  intros Hw Hs Hst Hc.
  unfold step, exec, handle, bind at 1, gets at 1. rewrite Hs.
  assert (ReadyState_eqb (ws_state sock) CLOSED = false) as ->
    by (by destruct (ws_state sock)).
  unfold bind at 1, sock_update at 1, modify at 1.
  unfold ws_onclose, bind at 1, modify at 1, bind at 1, gets at 1.
  cbn [wsRef set_isConnected set_sockets]. rewrite Hw.
  assert ((code =? 1000)%Z = false) as -> by (by apply Z.eqb_neq).
  rewrite bool_decide_eq_true_2 by done. cbn [negb andb].
  unfold scheduleReconnect, bind at 1, gets at 1.
  cbn [reconnectTimeoutRef set_isConnected set_sockets].
  destruct (reconnectTimeoutRef s) as [n|]; cbn.
  - by rewrite length_alter, <- app_assoc.
  - done.
Qed.

(** The state once the reconnect timer armed by that close has fired. *)
Lemma reconnect_timer_fires s k t room :
  wsRef s = Some k ->
  (ws_state <$> sockets s !! k) = Some CLOSED ->
  timers s !! t = Some {| t_delay := 3000; t_action := ReconnectTimer room;
                          t_armed := true |} ->
  step browser s (EvTimer t) =
  let i := length (sockets s) in
  let n := length (timers s) in
  set_log (log s ++ [ENewWebSocket i room; ESetTimeout n 10000])
    (set_timers (alter timer_disarm t (timers s)
                 ++ [{| t_delay := 10000; t_action := ConnectTimeout i;
                        t_armed := true |}])
       (set_wsRef (Some i)
          (set_sockets (sockets s ++ [{| ws_state := CONNECTING; ws_room := room;
                                         ws_waiter := W_none; ws_settled := false |}])
             s))).
Proof.
  intros Hw Hs Ht.
  unfold step, exec, handle, bind at 1, gets at 1. rewrite Ht. cbn [t_armed t_action].
  unfold bind at 1, modify at 1. unfold timer_callback, bind at 1, gets at 1.
  unfold ws_readyState_is, readyState_of. cbn [wsRef sockets set_timers].
  rewrite Hw, Hs. cbn. by rewrite length_alter, <- app_assoc.
Qed.

Lemma reconnect_delays_disarm n (l : list Timer) :
  map t_delay (List.filter is_reconnect (alter timer_disarm n l)) =
  map t_delay (List.filter is_reconnect l).
Proof.
  revert n. induction l as [|t l IH]; intros [|n]; cbn; try done.
  - change (is_reconnect (timer_disarm t)) with (is_reconnect t).
    by destruct (is_reconnect t).
  - destruct (is_reconnect t); cbn; by rewrite IH.
Qed.

Lemma outage_cycle s k t code :
  on_socket k t s -> code <> 1000%Z ->
  let s' := run browser [EvSocketClose k code; EvTimer t] s in
  on_socket (S k) (t + 2) s'
  /\ attempts (log s') = attempts (log s) + 1
  /\ toasts (log s') = toasts (log s)
  /\ reconnect_delays s' = reconnect_delays s ++ [3000%Z].
Proof.
  intros (Hw & Hls & Hlt & sock & Hs & Hst) Hc s'. subst s'. cbn [run foldl].
  rewrite (abnormal_close s k sock code) by done. cbv zeta.
  set (s1 := set_reconnectTimeoutRef _ _).
  assert (Hlen : length (match reconnectTimeoutRef s with
                         | Some n => alter timer_disarm n (timers s)
                         | None => timers s
                         end) = t).
  { destruct (reconnectTimeoutRef s); by rewrite ?length_alter. }
  rewrite (reconnect_timer_fires s1 k t (ws_room sock)).
  - cbv zeta. subst s1. unfold on_socket, reconnect_delays. cbn.
    rewrite !length_app, !length_alter, !length_app, Hlen, Hls. cbn.
    split; [repeat split; try lia|split; [|split]].
    + eexists. split; [|shelve].
      rewrite lookup_app_r; rewrite length_alter, Hls; [|done].
      by rewrite Nat.sub_diag.
      Unshelve. done.
    + unfold attempts. rewrite !List.filter_app, !length_app.
      destruct (reconnectTimeoutRef s); cbn; lia.
    + unfold toasts. rewrite !omap_app.
      destruct (reconnectTimeoutRef s); cbn; by rewrite !app_nil_r.
    + rewrite List.filter_app, map_app. cbn. rewrite app_nil_r.
      rewrite reconnect_delays_disarm, List.filter_app, map_app. cbn. f_equal.
      destruct (reconnectTimeoutRef s); [apply reconnect_delays_disarm|done].
  - done.
  - subst s1. cbn. rewrite list_lookup_alter_eq, Hs. done.
  - subst s1. cbn. rewrite lookup_app_r; rewrite Hlen; [|done].
    by rewrite Nat.sub_diag.
Qed.

Lemma outage_from_run n : forall s k t,
  on_socket k t s ->
  let s' := run browser (outage_from k t n) s in
  on_socket (k + n) (t + 2 * n) s'
  /\ attempts (log s') = attempts (log s) + n
  /\ toasts (log s') = toasts (log s)
  /\ reconnect_delays s' = reconnect_delays s ++ repeat 3000%Z n.
Proof.
  induction n as [|n IH]; intros s k t Hon; cbn zeta.
  - replace (k + 0) with k by lia. replace (t + 2 * 0) with t by lia.
    cbn [outage_from run foldl repeat]. rewrite Nat.add_0_r, app_nil_r. auto.
  - cbn [outage_from].
    change (run browser (?a :: ?b :: ?l) s) with (run browser l (run browser [a; b] s)).
    destruct (outage_cycle s k t 1006 Hon ltac:(done)) as (H1 & H2 & H3 & H4).
    destruct (IH _ _ _ H1) as (I1 & I2 & I3 & I4).
    rewrite I2, I3, I4, H2, H3, H4. split; [|split; [|split]].
    + replace (k + S n) with (S k + n) by lia.
      replace (t + 2 * S n) with (t + 2 + 2 * n) by lia. done.
    + lia.
    + done.
    + by rewrite <- app_assoc.
Qed.

(** C2 (as the code has it). Reconnection is a fixed 3000 ms timer with no
    attempt counter: every reconnect timer ever armed has that delay;
    whatever happened before, an abnormal close of the current socket arms
    one more, and its firing opens one more socket, without a word to the
    user; so [n] outages in a row give [n] further attempts, for every [n]. *)
Theorem reconnection_has_fixed_delay_and_no_ceiling (uid : string) :
  (forall evs, Forall (eq 3000%Z) (reconnect_delays (run browser evs (initialState uid))))
  /\ (forall s k t code,
        on_socket k t s -> code <> 1000%Z ->
        let s' := run browser [EvSocketClose k code; EvTimer t] s in
        on_socket (S k) (t + 2) s'
        /\ attempts (log s') = attempts (log s) + 1
        /\ toasts (log s') = toasts (log s)
        /\ reconnect_delays s' = reconnect_delays s ++ [3000%Z])
  /\ (forall n,
        let s0 := run browser call_start (initialState uid) in
        let s' := run browser (outage n) s0 in
        attempts (log s') = S n
        /\ toasts (log s') = toasts (log s0)
        /\ reconnect_delays s' = repeat 3000%Z n).
Proof.
  split; [|split].
  - intros evs. apply reconnect_delays_ok, run_timers_ok. constructor.
  - intros s k t code. apply outage_cycle.
  - intros n s0 s'.
    assert (H0 : on_socket 0 1 s0).
    { subst s0. repeat split. eexists. split; [reflexivity|done]. }
    destruct (outage_from_run n s0 0 1 H0) as (_ & H2 & H3 & H4).
    fold (outage n) in H2, H3, H4. fold s' in H2, H3, H4. done.
Qed.

(** *** Media acquisition *)

Lemma Track_eqb_eq a b : Track_eqb a b = true <-> a = b.
Proof.
  unfold Track_eqb. destruct a as [ka ia], b as [kb ib]; cbn.
  rewrite andb_true_iff, Nat.eqb_eq. split.
  - intros [Hk ->]. by destruct ka, kb.
  - intros [= -> ->]. by destruct kb.
Qed.

Lemma elem_of_stream_addTrack t x m : t ∈ stream_addTrack x m <-> t ∈ m \/ t = x.
Proof.
  unfold stream_addTrack. destruct (existsb (Track_eqb x) m) eqn:E.
  - split; [auto|]. intros [?| ->]; [done|].
    apply existsb_exists in E as (y & Hy & Hxy). apply Track_eqb_eq in Hxy as ->.
    by apply list_elem_of_In.
  - rewrite elem_of_app, list_elem_of_singleton. done.
Qed.

Lemma elem_of_add_tracks t ts m : t ∈ add_tracks ts m <-> t ∈ m \/ t ∈ ts.
Proof.
  unfold add_tracks. revert m. induction ts as [|x ts IH]; intros m; cbn.
  - split; [auto|]. intros [?|?%elem_of_nil]; done.
  - rewrite IH, elem_of_stream_addTrack, elem_of_cons. tauto.
Qed.

Lemma requests_snoc l e :
  requests (l ++ [e]) = requests l ++ match e with EGetUserMedia c => [c] | _ => [] end.
Proof. unfold requests. rewrite omap_app. f_equal. by destruct e. Qed.


(** *** Attaching a new local track *)








(** *** The microphone-presence signal *)









Lemma attachTrack_no_throw b p k t : no_throw (attachTrack browser b p k t).
Proof. nothrow. Qed.

Lemma renegotiate_no_throw g p : no_throw (renegotiate browser g p).
Proof. nothrow. Qed.

Lemma detachTrack_no_throw p t : no_throw (detachTrack p t).
Proof. nothrow. Qed.

Lemma useFallbackStream_no_throw m : no_throw (useFallbackStream m).
Proof. nothrow. Qed.

#[local] Hint Resolve attachTrack_no_throw renegotiate_no_throw detachTrack_no_throw
  useFallbackStream_no_throw createPeerConnection_no_throw closePeerConnection_no_throw
  : nothrow.












End Properties.

(** ** Concrete scenarios *)

(** *** A round trip

    [A] is told that [B] joined and offers; [B] answers that offer; [A]
    applies the answer: the connection of [A] to [B] holds the local offer
    and the remote answer. *)
Example signaling_round_trip :
  let a1 := step reliable (connected "A") (EvSocketMessage 0 (user_joined bob)) in
  let offerA := {| dtype := offer; sdp := "B" |} in
  let b1 := step reliable (connected "B") (EvSocketMessage 0 (in_offer "A" (Some "B") offerA)) in
  let answerB := {| dtype := answer; sdp := "A" |} in
  let a2 := step reliable a1 (EvSocketMessage 0 (in_answer "B" (Some "A") answerB)) in
  sent (log a1) = [out_offer (Some offerA) "B"]
  /\ sent (log b1) = [out_answer answerB "A"]
  /\ map_get "B" (peersRef a2)
     = Some {| senders := []; localDescription := Some offerA;
               remoteDescription := Some answerB; iceCandidates := [] |}
  /\ map_get "A" (peersRef b1)
     = Some {| senders := []; localDescription := Some answerB;
               remoteDescription := Some offerA; iceCandidates := [] |}.
Proof. by vm_compute. Qed.

(** *** Where the code departs from what was claimed *)

(** C1 fails as stated: when [B] joins a room where [A] is, [B] is told of [A]
    by [room_info] and [A] of [B] by [user_joined]; each creates its
    connection as initiator and each sends an offer to the other. *)
Lemma joiner_and_member_both_offer :
  let joiner := exec (ws_onmessage reliable (room_info (Some [alice]))) (connected "B") in
  let member := exec (ws_onmessage reliable (user_joined bob)) (connected "A") in
  sent (log joiner) = [out_offer (Some {| dtype := offer; sdp := "A" |}) "A"]
  /\ sent (log member) = [out_offer (Some {| dtype := offer; sdp := "B" |}) "B"]
  /\ ~ (offers_to "A" (log joiner) = 0 /\ offers_to "B" (log member) = 1).
Proof. vm_compute. repeat split; try done. by intros [? _]. Qed.

(** C2 fails as stated: over three outages in a row the three reconnect
    delays are the same, a fourth socket is opened, and the user is told
    nothing beyond what the start of the call said. *)
Lemma reconnect_delays_do_not_grow :
  let s0 := run reliable call_start (initialState "7") in
  let s := run reliable (outage 3) s0 in
  reconnect_delays s = [3000; 3000; 3000]%Z
  /\ attempts (log s) = 4
  /\ toasts (log s) = toasts (log s0).
Proof. by vm_compute. Qed.



(** *** The theorems at work *)

(** C1: the member [A], told that [B] joined, sends [B] one offer. *)
Lemma both_discovery_paths_initiate_witness :
  let s := connected "A" in
  offers_to "B" (log (exec (ws_onmessage reliable (user_joined bob)) s)) = 1.
Proof.
  intros s.
  refine (proj1 (proj1 (both_discovery_paths_initiate reliable bob 0 s _ _ _ _ _ _))).
  all: vm_compute; congruence.
Defined.

(** C3: [A] already holds a connection to [B]; creating it again changes
    nothing. *)
Lemma discovery_is_idempotent_witness :
  let s := exec (ws_onmessage reliable (user_joined bob)) (connected "A") in
  map_has "B" (peersRef s) = true
  /\ createPeerConnection reliable "B" true s = (Done tt, s).
Proof.
  intros s. split; [reflexivity|].
  exact (proj1 (discovery_is_idempotent reliable "B" s eq_refl) true).
Defined.

(** C4: the transport to [B] fails; the link is gone, [B] is still listed. *)
Lemma transport_failure_tears_down_witness :
  let s := exec (ws_onmessage reliable (user_joined bob)) (connected "A") in
  let s' := exec (onconnectionstatechange "B" cs_failed) s in
  map_get "B" (peersRef s') = None /\ participants s' = [bob].
Proof.
  intros s s'.
  pose proof (transport_failure_tears_down "B" cs_failed s (or_introl eq_refl)) as H.
  cbv zeta in H. split; [exact (proj1 H)|exact (proj1 (proj2 (proj2 H)))].
Defined.


(** C8: [B] receives the offer of [A] and sends back one answer. *)
Lemma offer_is_answered_witness :
  let o := {| dtype := offer; sdp := "from A" |} in
  sent (log (exec (ws_onmessage reliable (in_offer "A" (Some "B") o)) (connected "B")))
  = [out_answer {| dtype := answer; sdp := "A" |} "A"].
Proof.
  intros o.
  exact (proj2 (proj2 (offer_is_answered reliable "A" (Some "B") o 0 (connected "B")
                         eq_refl eq_refl eq_refl eq_refl eq_refl))).
Defined.


(** * Further properties of the component *)

(** ** What a callback establishes *)

Section Wp.
Context {A : Type}.
Implicit Types (Q : A -> State -> Prop) (E : JsError -> State -> Prop).

Lemma wp_ret (a : A) Q E s : Q a s -> wp (ret a) Q E s.
Proof. done. Qed.

Lemma wp_throw e Q E s : E e s -> wp (@throw A e) Q E s.
Proof. done. Qed.

Lemma wp_gets (f : State -> A) Q E s : Q (f s) s -> wp (gets f) Q E s.
Proof. done. Qed.

Lemma wp_bind {B} (m : Js B) (k : B -> Js A) Q E s :
  wp m (fun b => wp (k b) Q E) E s -> wp (bind m k) Q E s.
Proof. unfold wp, bind. by destruct (m s) as [[b|e] s']. Qed.

Lemma wp_try_catch (m : Js A) h Q E s :
  wp m Q (fun e => wp (h e) Q E) s -> wp (try_catch m h) Q E s.
Proof. unfold wp, try_catch. by destruct (m s) as [[b|e] s']. Qed.

Lemma wp_mono (m : Js A) Q Q' E E' s :
  wp m Q E s ->
  (forall a s', Q a s' -> Q' a s') -> (forall e s', E e s' -> E' e s') ->
  wp m Q' E' s.
Proof. unfold wp. destruct (m s) as [[b|e] s']; auto. Qed.

Lemma wp_preserves (I : State -> Prop) (m : Js A) s :
  preserves I m -> I s -> wp m (fun _ => I) (fun _ => I) s.
Proof. intros H Hs. specialize (H s Hs). unfold wp. by destruct (m s) as [[b|e] s']. Qed.

Lemma wp_no_throw (m : Js A) Q E s :
  no_throw m -> wp m Q (fun _ _ => True) s -> wp m Q E s.
Proof.
  intros H. destruct (H s) as [a Ha]. unfold wp.
  destruct (m s) as [[b|e] s']; cbn in *; done.
Qed.

Lemma wp_total (m : Js A) Q s :
  wp m Q (fun _ _ => False) s -> exists a, m s = (Done a, snd (m s)) /\ Q a (snd (m s)).
Proof. unfold wp. destruct (m s) as [[b|e] s']; cbn; [eauto|done]. Qed.
End Wp.

Lemma wp_modify g (Q : unit -> State -> Prop) E s : Q tt (g s) -> wp (modify g) Q E s.
Proof. done. Qed.

Lemma wp_emit e (Q : unit -> State -> Prop) E s :
  Q tt (set_log (log s ++ [e]) s) -> wp (emit e) Q E s.
Proof. done. Qed.


(** A loop that keeps [I] and throws nothing. *)
Lemma wp_loop {A} (I : State -> Prop) (m : Js A) (Q : A -> State -> Prop) E s :
  no_throw m -> preserves I m -> I s -> (forall a s', I s' -> Q a s') -> wp m Q E s.
Proof.
  intros Hn Hp Hs HQ. apply wp_no_throw; [done|].
  eapply wp_mono; [by apply (wp_preserves I)|..]; auto.
Qed.

(** One step through straight-line code. *)
Ltac wp_step :=
  lazymatch goal with
  | |- wp (bind _ _) _ _ _ => apply wp_bind
  | |- wp (ret _) _ _ _ => apply wp_ret
  | |- wp (throw _) _ _ _ => apply wp_throw
  | |- wp (gets _) _ _ _ => apply wp_gets
  | |- wp (modify _) _ _ _ => apply wp_modify
  | |- wp (emit _) _ _ _ => apply wp_emit
  | |- wp (toast _ _) _ _ _ => apply wp_emit
  | |- wp (stopTrack _) _ _ _ => apply wp_emit
  | |- wp publishLocalStream _ _ _ => apply wp_modify
  | |- wp (try_catch _ _) _ _ _ => apply wp_try_catch
  | |- wp (let _ := _ in _) _ _ _ => cbv zeta
  end; cbn beta.

Ltac wp_steps := repeat wp_step.

(** ** Lists *)

Lemma filter_at_most_one {A} (P : A -> bool) (l : list A) :
  (forall i j x y, l !! i = Some x -> l !! j = Some y ->
                   P x = true -> P y = true -> i = j) ->
  length (List.filter P l) <= 1.
Proof.
  induction l as [|x l IH]; intros H; cbn; [lia|].
  destruct (P x) eqn:E; cbn.
  - assert (Hn : List.filter P l = []).
    { destruct (List.filter P l) as [|y r] eqn:Ef; [done|]. exfalso.
      assert (Hy : List.In y (List.filter P l)) by (rewrite Ef; by left).
      apply List.filter_In in Hy as [Hy Py].
      apply list_elem_of_In, list_elem_of_lookup in Hy as [j Hj].
      specialize (H 0 (S j) x y eq_refl Hj E Py). lia. }
    rewrite Hn. cbn. lia.
  - apply IH. intros i j a b Hi Hj Pa Pb.
    specialize (H (S i) (S j) a b Hi Hj Pa Pb). lia.
Qed.

(** ** Leaving the call *)

Lemma for_each_stop ts s :
  for_each ts stopTrack s = (Done tt, set_log (log s ++ map EStopTrack ts) s).
Proof.
  revert s. induction ts as [|t ts IH]; intros s.
  - cbn. unfold ret. destruct s; cbn. by rewrite app_nil_r.
  - cbn [for_each]. unfold bind, stopTrack at 1, emit at 1, modify. rewrite IH. cbn.
    by rewrite <- app_assoc.
Qed.

(** What [cleanup] leaves, field by field. *)
Lemma cleanup_spec s :
  let s' := snd (cleanup s) in
  fst (cleanup s) = Done tt
  /\ wsRef s' = None /\ peersRef s' = [] /\ localStreamRef s' = None
  /\ log s' = log s
       ++ match wsRef s with Some i => [ECloseSocket i] | None => [] end
       ++ map EClosePeerConnection (map_keys (peersRef s))
       ++ map EStopTrack (default [] (localStreamRef s))
       ++ match reconnectTimeoutRef s with Some n => [EClearTimeout n] | None => [] end
  /\ timers s' = match reconnectTimeoutRef s with
                 | Some n => alter timer_disarm n (timers s)
                 | None => timers s
                 end
  /\ sockets s' = match wsRef s with
                  | Some i => alter (fun k => match ws_state k with
                                              | CLOSED => k
                                              | _ => sock_with_state CLOSING k
                                              end) i (sockets s)
                  | None => sockets s
                  end
  /\ participants s' = participants s /\ remoteStreams s' = remoteStreams s
  /\ reconnectTimeoutRef s' = reconnectTimeoutRef s.
Proof.
  destruct s as [me rid ic ls rs ae ve ps md cd rq mda w peers lsr rt socks tms lg].
  destruct w as [i|], lsr as [cur|], rt as [n|].
  all: match goal with |- context [cleanup ?s] =>
         eassert (H : cleanup s = (Done tt, _));
         [ unfold cleanup, forEachPeer, bind, gets, ws_close, sock_update, clearTimeout;
           cbn [wsRef peersRef localStreamRef reconnectTimeoutRef];
           unfold emit, modify; cbn;
           rewrite ?for_each_close; cbn; rewrite ?for_each_stop; cbn; reflexivity
         | rewrite H; cbn; rewrite <- ?app_assoc, ?app_nil_r; cbn; done ]
       end.
Qed.

(** ** Reconnect timers *)

Lemma pending_disarm t : pending_reconnect (timer_disarm t) = false.
Proof. done. Qed.

Lemma reconnect_held_fields s s' :
  timers s' = timers s -> reconnectTimeoutRef s' = reconnectTimeoutRef s ->
  reconnect_held s -> reconnect_held s'.
Proof. unfold reconnect_held. intros -> ->. done. Qed.

Lemma reconnect_held_disarm s s' n :
  timers s' = alter timer_disarm n (timers s) ->
  reconnectTimeoutRef s' = reconnectTimeoutRef s ->
  reconnect_held s -> reconnect_held s'.
Proof.
  unfold reconnect_held. intros -> -> H m t Hm Hp.
  destruct (decide (n = m)) as [->|Hne].
  - rewrite list_lookup_alter_eq in Hm.
    destruct (timers s !! m); cbn in Hm; [|done]. injection Hm as <-. done.
  - rewrite list_lookup_alter_ne in Hm by done. eauto.
Qed.

Lemma reconnect_held_arm s s' t :
  timers s' = timers s ++ [t] -> is_reconnect t = false ->
  reconnectTimeoutRef s' = reconnectTimeoutRef s ->
  reconnect_held s -> reconnect_held s'.
Proof.
  unfold reconnect_held. intros -> Ht -> H m t' Hm Hp.
  apply lookup_app_Some in Hm as [Hm|[_ Hm]]; [eauto|].
  apply list_lookup_singleton_Some in Hm as [_ <-].
  unfold pending_reconnect in Hp. rewrite Ht in Hp. by destruct (t_armed t).
Qed.

Lemma scheduleReconnect_spec room s :
  scheduleReconnect room s =
  (Done tt,
   let t := length (timers s) in
   set_reconnectTimeoutRef (Some t)
     (set_log (log s ++ match reconnectTimeoutRef s with
                        | Some n => [EClearTimeout n]
                        | None => []
                        end ++ [ESetTimeout t 3000])
        (set_timers (match reconnectTimeoutRef s with
                     | Some n => alter timer_disarm n (timers s)
                     | None => timers s
                     end ++ [{| t_delay := 3000; t_action := ReconnectTimer room;
                                t_armed := true |}]) s))).
Proof.
  unfold scheduleReconnect, bind at 1, gets at 1.
  destruct (reconnectTimeoutRef s) as [n|]; cbn.
  - by rewrite length_alter, <- app_assoc.
  - done.
Qed.

Lemma scheduleReconnect_held room : preserves reconnect_held (scheduleReconnect room).
Proof.
  intros s H. rewrite scheduleReconnect_spec. cbn.
  intros m t Hm Hp. cbn in *.
  apply lookup_app_Some in Hm as [Hm|[Hl Hm]].
  - exfalso. destruct (reconnectTimeoutRef s) as [n|] eqn:E.
    + destruct (decide (n = m)) as [->|Hne].
      * rewrite list_lookup_alter_eq in Hm.
        destruct (timers s !! m); cbn in Hm; [|done]. injection Hm as <-. done.
      * rewrite list_lookup_alter_ne in Hm by done.
        specialize (H m t Hm Hp). congruence.
    + specialize (H m t Hm Hp). congruence.
  - apply list_lookup_singleton_Some in Hm as [Hm _]. f_equal.
    destruct (reconnectTimeoutRef s); rewrite ?length_alter in *; lia.
Qed.

Ltac held_leaf :=
  repeat case_match;
  lazymatch goal with
  | H : reconnect_held ?s |- reconnect_held _ =>
      first [ by apply (reconnect_held_fields s)
            | by eapply (reconnect_held_disarm s)
            | by eapply (reconnect_held_arm s) ]
  end.


(** ** After the call was left *)

Lemma quiet_timers_disarm (l : list Timer) n :
  Forall (fun t => t_armed t && is_init_retry t = false) l ->
  Forall (fun t => t_armed t && is_init_retry t = false) (alter timer_disarm n l).
Proof. intros H. apply Forall_alter; [done|]. by intros. Qed.

Lemma quiet_timers_arm (l : list Timer) t :
  is_init_retry t = false ->
  Forall (fun t => t_armed t && is_init_retry t = false) l ->
  Forall (fun t => t_armed t && is_init_retry t = false) (l ++ [t]).
Proof.
  intros Ht H. apply Forall_app. split; [done|]. apply Forall_singleton.
  rewrite Ht. apply andb_false_r.
Qed.

Lemma quiet_sockets_alter (l : list Socket) f i :
  (forall k, ws_waiter (f k) = ws_waiter k) ->
  (forall k, ws_settled k = true -> ws_settled (f k) = true) ->
  Forall (fun k => match ws_waiter k with
                   | W_initializeCall => ws_settled k = true
                   | _ => True
                   end) l ->
  Forall (fun k => match ws_waiter k with
                   | W_initializeCall => ws_settled k = true
                   | _ => True
                   end) (alter f i l).
Proof.
  intros Hw Hs H. apply Forall_alter; [done|]. intros k _. rewrite Hw.
  destruct (ws_waiter k); auto.
Qed.

Ltac quiet_leaf :=
  repeat case_match;
  lazymatch goal with
  | H : quiet_at _ ?s |- quiet_at _ _ =>
      destruct H as ((? & ? & ?) & ?); unfold quiet_at, quiet; cbn;
      rewrite ?attempts_snoc; cbn; rewrite ?Nat.add_0_r;
      split_and!;
      first [ done
            | by apply quiet_timers_disarm
            | by apply quiet_timers_arm
            | apply quiet_sockets_alter; [by intros []|by intros []|done]
            | (apply quiet_sockets_alter; [| |done]; intros k0; by destruct k0 as [[] ? ? ?]) ]
  end.


Section More.
Variable browser : Browser.

#[local] Hint Resolve scheduleReconnect_held : pres.

Lemma handle_reconnect_held ev : preserves reconnect_held (handle browser ev).
Proof.
  destruct ev; unfold handle.
  all: pres.
  all: try held_leaf.
Qed.

Lemma run_reconnect_held evs s :
  reconnect_held s -> reconnect_held (run browser evs s).
Proof.
  revert s. induction evs as [|ev evs IH]; intros s Hs; [done|].
  cbn. apply IH. by apply handle_reconnect_held.
Qed.

Lemma initialState_reconnect_held uid : reconnect_held (initialState uid).
Proof. intros n t Hn. done. Qed.


Lemma ws_reject_quiet n i : preserves (quiet_at n) (ws_reject i).
Proof.
  intros s H. unfold ws_reject, bind at 1, gets at 1.
  destruct (sockets s !! i) as [k|] eqn:E; [|done].
  destruct (ws_settled k) eqn:Es; [done|].
  assert (Hk : ws_waiter k <> W_initializeCall).
  { intros Hwk. destruct H as ((_ & _ & Hf) & _).
    rewrite Forall_lookup in Hf. specialize (Hf i k E). rewrite Hwk in Hf. congruence. }
  revert s H E. 
  match goal with |- forall s, ?I s -> _ -> ?I (snd (?m s)) =>
    intros s H _; revert s H; change (preserves I m) end.
  destruct (ws_waiter k); [done|..]; pres; quiet_leaf.
Qed.

#[local] Hint Resolve ws_reject_quiet : pres.

Lemma timer_quiet n m : preserves (quiet_at n) (handle browser (EvTimer m)).
Proof.
  intros s H. unfold handle, bind at 1, gets at 1.
  destruct (timers s !! m) as [t|] eqn:E; [|done].
  destruct (t_armed t) eqn:Ea; [|done].
  assert (Hr : is_init_retry t = false).
  { destruct H as ((_ & Hf & _) & _). rewrite Forall_lookup in Hf.
    specialize (Hf m t E). by rewrite Ea in Hf. }
  unfold bind at 1, modify at 1.
  set (s1 := set_timers _ s).
  assert (H1 : quiet_at n s1) by (subst s1; quiet_leaf).
  destruct H1 as ((Hw & Ht & Hk) & Ha).
  assert (H1 : quiet_at n s1) by done.
  clearbody s1. clear H E s.
  destruct (t_action t) as [room|j|room] eqn:Et.
  - unfold timer_callback, bind, gets, ws_readyState_is. by rewrite Hw.
  - revert s1 H1 Hw Ht Hk Ha. 
    match goal with |- forall s, ?I s -> _ -> _ -> _ -> _ -> ?I (snd (?m s)) =>
      intros s H _ _ _ _; revert s H; change (preserves I m) end.
    pres; quiet_leaf.
  - unfold is_init_retry in Hr. by rewrite Et in Hr.
Qed.

Lemma handle_quiet n ev :
  is_mount ev = false -> preserves (quiet_at n) (handle browser ev).
Proof.
  intros Hev. destruct ev; try done.
  all: try lazymatch goal with
           | |- preserves _ (handle _ (EvTimer _)) => apply timer_quiet
           end.
  all: unfold handle.
  all: pres.
  all: try quiet_leaf.
Qed.


End More.

Lemma attempts_app l l' : attempts (l ++ l') = attempts l + attempts l'.
Proof. unfold attempts. by rewrite List.filter_app, length_app. Qed.

Lemma attempts_map {A} (f : A -> Effect) (l : list A) :
  (forall x, match f x with ENewWebSocket _ _ => False | _ => True end) ->
  attempts (map f l) = 0.
Proof.
  intros Hf. unfold attempts. induction l as [|x l IH]; [done|]. cbn.
  specialize (Hf x). by destruct (f x).
Qed.

Section Teardown.
Variable browser : Browser.

(** X8. Over every run of the component, at most one reconnect timer is
    pending, and it is the one [reconnectTimeoutRef] holds:
    [scheduleReconnect] clears the timer it holds before it arms the next. *)
Theorem at_most_one_pending_reconnect (uid : string) (evs : list Event) :
  let s := run browser evs (initialState uid) in
  length (List.filter pending_reconnect (timers s)) <= 1
  /\ reconnect_held s.
Proof.
  intros s.
  assert (H : reconnect_held s)
    by apply run_reconnect_held, initialState_reconnect_held.
  split; [|done]. apply filter_at_most_one. intros i j x y Hi Hj Px Py.
  pose proof (H i x Hi Px). pose proof (H j y Hj Py). congruence.
Qed.

Lemma leaveCall_spec s :
  exists s1, cleanup s = (Done tt, s1)
             /\ step browser s EvLeave = set_log (log s1 ++ [EOnClose]) s1.
Proof.
  destruct (cleanup_spec s) as (Hd & _).
  unfold step, exec, handle, leaveCall, bind.
  destruct (cleanup s) as [[[]|e] s1]; cbn in *; [|done]. by exists s1.
Qed.

(** X1. Leaving the call, from any state the component can reach: the
    socket is closed and dropped, every peer connection of the map is closed
    and the map emptied (so every connection object ever created has been
    closed), every local track is stopped, and no reconnect timer is left
    pending.  Remote streams and the participant list are left as they were. *)
Theorem leaving_releases_everything (uid : string) (evs : list Event) :
  let s := run browser evs (initialState uid) in
  let s' := step browser s EvLeave in
  wsRef s' = None /\ peersRef s' = [] /\ localStreamRef s' = None
  /\ (forall p, opened p (log s') = closed p (log s'))
  /\ Forall (fun t => pending_reconnect t = false) (timers s')
  /\ log s' = log s
       ++ match wsRef s with Some i => [ECloseSocket i] | None => [] end
       ++ map EClosePeerConnection (map_keys (peersRef s))
       ++ map EStopTrack (default [] (localStreamRef s))
       ++ match reconnectTimeoutRef s with Some n => [EClearTimeout n] | None => [] end
       ++ [EOnClose]
  /\ remoteStreams s' = remoteStreams s /\ participants s' = participants s.
Proof.
  intros s s'.
  assert (Hl : links_ok s') by apply handle_links_ok, run_links_ok, initialState_links_ok.
  assert (Hh : reconnect_held s) by apply run_reconnect_held, initialState_reconnect_held.
  destruct (leaveCall_spec s) as (s1 & Hc & Hs'). fold s' in Hs'.
  destruct (cleanup_spec s) as (_ & Hw & Hp & Hls & Hlog & Ht & Hk & Hpa & Hr & _).
  rewrite Hc in Hw, Hp, Hls, Hlog, Ht, Hk, Hpa, Hr. cbn [snd] in *.
  assert (Hp' : peersRef s' = []) by (by rewrite Hs').
  split_and!; try (by rewrite Hs').
  - intros p. destruct Hl as [_ Hl]. rewrite (Hl p), Hp'. change (map_has p []) with false. cbn. lia.
  - rewrite Hs'. cbn. rewrite Ht. apply Forall_lookup. intros m t Hm.
    apply Bool.not_true_is_false. intros Hpt.
    destruct (reconnectTimeoutRef s) as [n|] eqn:E.
    + destruct (decide (n = m)) as [->|Hne].
      * rewrite list_lookup_alter_eq in Hm.
        destruct (timers s !! m); cbn in Hm; [|done]. injection Hm as <-. done.
      * rewrite list_lookup_alter_ne in Hm by done.
        specialize (Hh m t Hm Hpt). congruence.
    + specialize (Hh m t Hm Hpt). congruence.
  - rewrite Hs'. cbn. rewrite Hlog, <- !app_assoc. done.
Qed.

Lemma run_quiet n evs s :
  Forall (fun ev => is_mount ev = false) evs ->
  quiet_at n s -> quiet_at n (run browser evs s).
Proof.
  intros Hevs. revert s. induction Hevs as [|ev evs Hev _ IH]; intros s Hs; [done|].
  cbn. apply IH. by apply handle_quiet.
Qed.

(** X2. Once the call is left while [initializeCall] awaits no connection
    and has no retry pending, no later event (short of mounting again) opens
    a signaling socket: a close of the old socket, whatever its code, a
    socket error, a reconnect timer that still fires, all find [wsRef] empty
    and connect nothing. *)
Theorem nothing_reconnects_after_leaving (s : State) (evs : list Event) :
  Forall (fun t => t_armed t && is_init_retry t = false) (timers s) ->
  Forall (fun k => ws_waiter k = W_initializeCall -> ws_settled k = true) (sockets s) ->
  Forall (fun ev => is_mount ev = false) evs ->
  let s1 := step browser s EvLeave in
  let s' := run browser evs s1 in
  attempts (log s') = attempts (log s) /\ wsRef s' = None /\ quiet s1.
Proof.
  intros Ht Hk Hevs s1 s'.
  assert (H1 : quiet_at (attempts (log s)) s1).
  { destruct (leaveCall_spec s) as (s0 & Hc & Hs'). fold s1 in Hs'.
    destruct (cleanup_spec s) as (_ & Hw & _ & _ & Hlog & Ht' & Hk' & _).
    rewrite Hc in Hw, Hlog, Ht', Hk'. cbn [snd] in *.
    rewrite Hs'. split; [split_and!|]; cbn.
    - done.
    - rewrite Ht'. destruct (reconnectTimeoutRef s); [|done].
      by apply quiet_timers_disarm.
    - rewrite Hk'.
      assert (Hk0 : Forall (fun k => match ws_waiter k with
                                     | W_initializeCall => ws_settled k = true
                                     | _ => True
                                     end) (sockets s)).
      { eapply Forall_impl; [exact Hk|]. intros k Hi. destruct (ws_waiter k) eqn:Ew; auto. }
      destruct (wsRef s); [|done].
      apply quiet_sockets_alter; [| |done]; intros k; by destruct k as [[] ? ? ?].
    - rewrite attempts_snoc, Hlog, !attempts_app, !attempts_map by done.
      destruct (wsRef s), (reconnectTimeoutRef s); unfold attempts; cbn; lia. }
  pose proof (run_quiet _ evs s1 Hevs H1) as ((Hw & _) & Ha).
  split_and!; [done|done|]. by destruct H1.
Qed.

End Teardown.

Lemma nothing_reconnects_after_leaving_witness :
  let s := run reliable call_start (initialState "A") in
  let s1 := step reliable s EvLeave in
  let s' := run reliable [EvSocketClose 0 1006; EvSocketError 0; EvTimer 0; EvTimer 1] s1 in
  attempts (log s') = attempts (log s) /\ wsRef s' = None /\ quiet s1.
Proof.
  apply (nothing_reconnects_after_leaving reliable
           (run reliable call_start (initialState "A"))
           [EvSocketClose 0 1006; EvSocketError 0; EvTimer 0; EvTimer 1]).
  - vm_compute. repeat constructor.
  - vm_compute. repeat constructor.
  - repeat constructor.
Defined.

(** ** Participants joining and leaving *)

Lemma toasts_snoc l e :
  toasts (l ++ [e]) = toasts l ++ match e with EToast lv text => [(lv, text)] | _ => [] end.
Proof. unfold toasts. rewrite omap_app. f_equal. by destruct e. Qed.

Lemma map_delete_set_new {V} p (v : V) (m : list (string * V)) :
  map_get p m = None -> map_delete p (map_set p v m) = m.
Proof.
  induction m as [|[k x] m IH]; cbn.
  - by rewrite String.eqb_refl.
  - destruct (String.eqb p k) eqn:E; [done|]. intros H. cbn. rewrite E. by rewrite IH.
Qed.

Lemma preserves_at {A} (I : State -> Prop) (m : Js A) :
  preserves I m -> forall s, I s -> I (snd (m s)).
Proof. done. Qed.

Section Membership.
Variable browser : Browser.

(** The state [user_left] leaves. *)
Lemma user_left_spec u s :
  exec (ws_onmessage browser (user_left u)) s =
  let p := user_id u in
  let s1 := set_participants
              (filter (fun x => String.eqb (user_id x) p = false) (participants s)) s in
  let s2 := if map_has p (peersRef s)
            then set_peersRef (map_delete p (peersRef s))
                   (set_log (log s ++ [EClosePeerConnection p]) s1)
            else s1 in
  set_log (log s2 ++ [EToast t_info (String.append (user_name u) " left the call")])
    (set_remoteStreams (delete p (remoteStreams s)) s2).
Proof.
  unfold exec, ws_onmessage, try_catch, handleWebSocketMessage, closePeerConnection.
  unfold bind, modify, gets, toast, emit, modify. cbn.
  unfold map_has. destruct (map_get (user_id u) (peersRef s)); cbn; done.
Qed.



(** What [createPeerConnection] does to the map when [p] is new: one entry
    for [p] is appended, the others are not touched. *)
Lemma createPeerConnection_keys p b s :
  map_get p (peersRef s) = None ->
  exists pc, peersRef (exec (createPeerConnection browser p b) s)
             = map_set p pc (peersRef s).
Proof.
  intros Hn. unfold exec. rewrite createPeerConnection_absent
    by (by apply map_has_false_get).
  assert (H0 : exists pc, peersRef (after_create p s) = map_set p pc (peersRef s)).
  { eexists. unfold after_create, with_link. cbn. reflexivity. }
  revert H0. generalize (after_create p s).
  apply (preserves_at (fun s0 => exists pc, peersRef s0 = map_set p pc (peersRef s))).
  pres; leaf.
  all: match goal with H : exists _, _ |- _ => destruct H as [pc0 Hpc] end.
  all: try (by eexists).
  all: rewrite Hpc; eexists; by rewrite map_set_set.
Qed.

(** The state [user_joined] leaves. *)
Lemma user_joined_spec u s :
  exec (ws_onmessage browser (user_joined u)) s =
  let s0 := set_participants (participants s ++ [u]) s in
  let s1 := if String.eqb (user_id u) (selfId s) then s0
            else exec (createPeerConnection browser (user_id u) true) s0 in
  set_log (log s1 ++ [EToast t_success (String.append (user_name u) " joined the call")]) s1.
Proof.
  unfold exec, ws_onmessage, try_catch, handleWebSocketMessage.
  unfold bind at 1, modify at 1. unfold bind at 1, gets at 1. cbn [selfId set_participants].
  unfold bind at 1.
  destruct (String.eqb (user_id u) (selfId s)) eqn:E; cbn [negb]; [done|].
  set (s0 := set_participants _ s).
  pose proof (createPeerConnection_no_throw browser (user_id u) true s0) as [[] Hd].
  destruct (createPeerConnection browser (user_id u) true s0) as [[[]|e] s3]; cbn in *; done.
Qed.

Lemma createPeerConnection_opened p b s :
  map_get p (peersRef s) = None ->
  opened p (log (exec (createPeerConnection browser p b) s)) = opened p (log s) + 1.
Proof.
  intros Hn. unfold exec. rewrite createPeerConnection_absent by (by apply map_has_false_get).
  assert (H0 : opened p (log (after_create p s)) = opened p (log s) + 1).
  { unfold after_create, with_link. cbn. rewrite opened_app.
    change (ENewPeerConnection p :: ?l) with ([ENewPeerConnection p] ++ l).
    rewrite opened_app, opened_addTracks. unfold opened at 2. cbn.
    rewrite String.eqb_refl. cbn. lia. }
  revert H0. generalize (after_create p s).
  apply (preserves_at (fun s0 => opened p (log s0) = opened p (log s) + 1)).
  pres; leaf.
Qed.

(** X4. A [user_joined] followed by the [user_left] of the same user is a
    round trip on the participants list, the peer map and the remote
    streams, when the user was in none of them before: the one connection
    object that was created is closed again. *)
Theorem join_then_leave_restores (u : Participant) (s : State) :
  Forall (fun x => user_id x <> user_id u) (participants s) ->
  map_get (user_id u) (peersRef s) = None ->
  remoteStreams s !! user_id u = None ->
  let s1 := exec (ws_onmessage browser (user_joined u)) s in
  let s2 := exec (ws_onmessage browser (user_left u)) s1 in
  participants s2 = participants s
  /\ peersRef s2 = peersRef s
  /\ remoteStreams s2 = remoteStreams s
  /\ opened (user_id u) (log s2) + closed (user_id u) (log s)
     = closed (user_id u) (log s2) + opened (user_id u) (log s).
Proof.
  intros Hps Hn Hr s1 s2.
  set (p := user_id u) in *.
  set (s0 := set_participants (participants s ++ [u]) s).
  set (sc := if String.eqb p (selfId s) then s0
             else exec (createPeerConnection browser p true) s0).
  assert (Hs1 : s1 = set_log (log sc ++ [EToast t_success
                        (String.append (user_name u) " joined the call")]) sc)
    by apply user_joined_spec.
  assert (Hout : outside_links sc = outside_links s0).
  { subst sc. destruct (String.eqb p (selfId s)); [done|].
    apply createPeerConnection_outside. }
  assert (Hpart : participants sc = participants s ++ [u]).
  { change (participants (outside_links sc) = participants s ++ [u]). by rewrite Hout. }
  assert (Hrem : remoteStreams sc = remoteStreams s).
  { change (remoteStreams (outside_links sc) = remoteStreams s). by rewrite Hout. }
  assert (Hlinks : (peersRef sc = peersRef s /\ opened p (log sc) = opened p (log s)
                    /\ closed p (log sc) = closed p (log s))
                   \/ ((exists pc, peersRef sc = map_set p pc (peersRef s))
                       /\ opened p (log sc) = opened p (log s) + 1
                       /\ closed p (log sc) = closed p (log s))).
  { assert (Hcl : closed p (log sc) = closed p (log s)).
    { subst sc. destruct (String.eqb p (selfId s)); [done|].
      change (closed p (log s)) with (closed p (log s0)).
      generalize s0. intros s3. unfold exec.
      apply (preserves_at (fun s4 => closed p (log s4) = closed p (log s3))); [|done].
      pres; leaf. }
    subst sc. destruct (String.eqb p (selfId s)); [by left|]. right.
    split_and!; [|by rewrite (createPeerConnection_opened p true s0 Hn)|done].
    destruct (createPeerConnection_keys p true s0 Hn) as [pc Hpc]. by exists pc. }
  assert (Hs2 : s2 = exec (ws_onmessage browser (user_left u)) s1) by done.
  rewrite user_left_spec in Hs2. cbv zeta in Hs2. fold p in Hs2.
  rewrite Hs1 in Hs2. cbn [participants peersRef log remoteStreams set_log] in Hs2.
  assert (Hfilter : filter (fun x => String.eqb (user_id x) p = false) (participants sc)
                    = participants s).
  { rewrite Hpart, filter_app, filter_cons, filter_nil.
    fold p. rewrite String.eqb_refl. rewrite decide_False by done.
    rewrite app_nil_r. clear -Hps. induction Hps as [|x l Hx _ IH]; [done|].
    rewrite filter_cons, IH. rewrite decide_True; [done|]. by apply String.eqb_neq. }
  rewrite Hfilter, Hrem in Hs2. rewrite (delete_id _ _ Hr) in Hs2.
  destruct Hlinks as [(Hp & Ho & Hc)|([pc Hp] & Ho & Hc)].
  - assert (Hh : map_has p (peersRef sc) = false)
      by (rewrite Hp; by apply map_has_false_get).
    rewrite Hh in Hs2. rewrite Hs2. cbn.
    rewrite !opened_snoc, !closed_snoc. cbn. split_and!; [done..|lia].
  - assert (Hh : map_has p (peersRef sc) = true) by (rewrite Hp; apply map_has_set_eq).
    rewrite Hh in Hs2. rewrite Hs2. cbn. rewrite Hp, map_delete_set_new by done.
    rewrite !opened_snoc, !closed_snoc. cbn. rewrite String.eqb_refl.
    split_and!; [done..|lia].
Qed.


Lemma discover_links me x s :
  let s' := exec (discover browser me x) s in
  (forall p, map_has p (peersRef s') = true <->
             map_has p (peersRef s) = true \/ (p <> me /\ user_id x = p))
  /\ (forall p, map_has p (peersRef s) = true ->
                map_get p (peersRef s') = map_get p (peersRef s)).
Proof.
  unfold discover. destruct (String.eqb (user_id x) me) eqn:E; cbn [negb].
  - apply String.eqb_eq in E. cbn. split; [|done]. intros p. split; [by left|].
    intros [H|[H1 H2]]; [done|congruence].
  - apply String.eqb_neq in E. set (q := user_id x) in *. cbv zeta. split.
    + intros p. destruct (decide (p = q)) as [->|Hne].
      * rewrite createPeerConnection_has. split; [by right|done].
      * pose proof (createPeerConnection_other browser p q true (link_view p s)
                      ltac:(congruence) s eq_refl) as Hv.
        unfold link_view in Hv. injection Hv as Hv _ _.
        unfold exec, map_has. rewrite Hv. split; [by left|].
        intros [H|[_ H]]; [done|congruence].
    + intros p Hp. apply map_has_true_get in Hp as [pc Hpc].
      pose proof (createPeerConnection_known browser p q true (link_view p s) pc
                    ltac:(done) s eq_refl) as Hv.
      unfold link_view in Hv. by injection Hv as Hv _ _.
Qed.

Lemma for_each_discover_links me l s :
  let s' := exec (for_each l (discover browser me)) s in
  (forall p, map_has p (peersRef s') = true <->
             map_has p (peersRef s) = true
             \/ (p <> me /\ exists x, x ∈ l /\ user_id x = p))
  /\ (forall p, map_has p (peersRef s) = true ->
                map_get p (peersRef s') = map_get p (peersRef s)).
Proof.
  revert s. induction l as [|x l IH]; intros s; cbv zeta.
  - cbn. split; [|done]. intros p. split; [by left|].
    intros [H|(_ & x & Hx & _)]; [done|]. by apply elem_of_nil in Hx.
  - cbn [for_each]. rewrite exec_bind with (a := tt).
    2:{ destruct (discover_no_throw browser me x s) as [[] Hd]. done. }
    fold (exec (discover browser me x) s).
    destruct (discover_links me x s) as [H1 H2].
    destruct (IH (exec (discover browser me x) s)) as [H3 H4].
    cbv zeta in *. split.
    + intros p. rewrite H3, H1. split.
      * intros [[H|[Hne Hx]]|(Hne & y & Hy & Hyp)]; [by left|right..].
        -- split; [done|]. exists x. split; [by left|done].
        -- split; [done|]. exists y. split; [by right|done].
      * intros [H|(Hne & y & Hy & Hyp)]; [by left; left|].
        apply elem_of_cons in Hy as [->|Hy]; [left; right; done|].
        right. split; [done|]. by exists y.
    + intros p Hp. rewrite H4, H2; [done|done|]. apply H1. by left.
Qed.

(** X5. [room_info] replaces the participants list by the list received,
    as it is (the local user included when the server lists it); afterwards
    the peer map has a connection for exactly the keys it had and the listed
    users other than the local one, and the connections it had are the same
    objects in the same state.  A [room_info] without a list empties the
    participants and does nothing else. *)
Theorem room_info_links_exactly_the_others (l : list Participant) (s : State) :
  let s' := exec (ws_onmessage browser (room_info (Some l))) s in
  participants s' = l
  /\ shown_count s' = length l + 1
  /\ (forall p, map_has p (peersRef s') = true <->
                map_has p (peersRef s) = true
                \/ (p <> selfId s /\ exists x, x ∈ l /\ user_id x = p))
  /\ (forall p, map_has p (peersRef s) = true ->
                map_get p (peersRef s') = map_get p (peersRef s))
  /\ exec (ws_onmessage browser (room_info None)) s = set_participants [] s.
Proof.
  intros s'.
  assert (Hs' : s' = exec (for_each l (discover browser (selfId s)))
                       (set_participants l s)).
  { subst s'. unfold exec, ws_onmessage, try_catch, handleWebSocketMessage.
    unfold bind at 1, modify at 1. unfold bind at 1, gets at 1.
    cbn [default selfId set_participants].
    change (fun participant : Participant => if negb (String.eqb (user_id participant) (selfId s))
               then createPeerConnection browser (user_id participant) true
               else ret tt) with (discover browser (selfId s)).
    change (id l) with l.
    by destruct (for_each l (discover browser (selfId s)) (set_participants l s))
      as [[[]|e] s3]. }
  assert (Hout : outside_links s' = outside_links (set_participants l s)).
  { rewrite Hs'. unfold exec.
    assert (Hst : stable outside_links (for_each l (discover browser (selfId s)))).
    { apply stable_preserves. intros v. apply preserves_for_each. intros x.
      intros s0 <-. apply discover_outside. }
    apply Hst. }
  assert (Hp : participants s' = l).
  { change (participants (outside_links s') = l). by rewrite Hout. }
  destruct (for_each_discover_links (selfId s) l (set_participants l s)) as [H1 H2].
  cbv zeta in H1, H2. rewrite <- Hs' in H1, H2.
  split_and!; [done| |exact H1|exact H2|done].
  unfold shown_count. by rewrite Hp.
Qed.

End Membership.

Lemma join_then_leave_restores_witness :
  let s := connected "A" in
  let s1 := exec (ws_onmessage reliable (user_joined bob)) s in
  let s2 := exec (ws_onmessage reliable (user_left bob)) s1 in
  participants s2 = participants s
  /\ peersRef s2 = peersRef s
  /\ remoteStreams s2 = remoteStreams s
  /\ opened (user_id bob) (log s2) + closed (user_id bob) (log s)
     = closed (user_id bob) (log s2) + opened (user_id bob) (log s).
Proof.
  apply (join_then_leave_restores reliable bob (connected "A")).
  - constructor.
  - reflexivity.
  - reflexivity.
Defined.

(** ** What a message may touch *)

Lemma preserves_bind_throw {A B} (I : State -> Prop) e (k : A -> Js B) :
  preserves I (bind (throw e) k).
Proof. by intros s. Qed.

#[global] Hint Resolve preserves_bind_throw : pres.

(** A leaf of a frame proof: the log grew by one effect that the observation
    does not count. *)
Ltac frame_leaf :=
  leaf; rewrite ?attempts_snoc, ?requests_snoc, ?toasts_snoc; cbn;
  rewrite ?Nat.add_0_r, ?app_nil_r; try done.

Lemma exec_catch_ret (m : Js unit) s :
  exec (try_catch m (fun _ => ret tt)) s = exec m s.
Proof. unfold exec, try_catch. by destruct (m s) as [[[]|e] s']. Qed.

Section Messages.
Variable browser : Browser.

Lemma rtc_step_fail {A} p op (k : Js A) :
  rtc_ok browser p op = false ->
  rtc_step browser p op k = throw (error_named "OperationError").
Proof. intros H. unfold rtc_step. by rewrite H. Qed.

Lemma ws_onmessage_frame {B} (f : State -> B) m :
  (forall s e, f (set_log (log s ++ [e]) s) = f s \/
               match e with
               | ENewPeerConnection _ | EClosePeerConnection _ | EAddTrack _ _
               | ESend _ _ | EToast _ _ => False
               | _ => True
               end) ->
  (forall s v, f (set_peersRef v s) = f s) ->
  (forall s v, f (set_participants v s) = f s) ->
  (forall s v, f (set_remoteStreams v s) = f s) ->
  stable f (ws_onmessage browser m).
Proof.
  intros Hlog Hpeers Hpart Hrem. apply stable_preserves. intros v.
  destruct m; unfold ws_onmessage, handleWebSocketMessage.
  all: pres.
  all: repeat case_match; subst; rewrite ?Hpeers, ?Hpart, ?Hrem; try done.
  all: match goal with |- _ (set_log (log ?s ++ [?e]) ?s) = _ =>
         destruct (Hlog s e) as [->|[]]; done end.
Qed.


(** X6. Handling a signaling message never opens or closes a socket, arms
    or clears a timer, asks for a capture device or changes the local stream.
    Peer connections are created only on [room_info], [user_joined] and
    offers, and closed only on [user_left]. *)
Theorem messages_touch_only_links (m : InMsg) (s : State) :
  let s' := exec (ws_onmessage browser m) s in
  sockets s' = sockets s /\ timers s' = timers s /\ wsRef s' = wsRef s
  /\ attempts (log s') = attempts (log s)
  /\ requests (log s') = requests (log s)
  /\ localStreamRef s' = localStreamRef s /\ localStream s' = localStream s
  /\ (opens_links m = false -> forall p, opened p (log s') = opened p (log s))
  /\ (closes_links m = false -> forall p, closed p (log s') = closed p (log s)).
Proof.
  cbv zeta. unfold exec. split_and!.
  - apply (ws_onmessage_frame sockets); auto.
  - apply (ws_onmessage_frame timers); auto.
  - apply (ws_onmessage_frame wsRef); auto.
  - apply (ws_onmessage_frame (fun s => attempts (log s))); try done.
    intros s0 e. destruct e; auto; left; cbn; by rewrite attempts_snoc, Nat.add_0_r.
  - apply (ws_onmessage_frame (fun s => requests (log s))); try done.
    intros s0 e. destruct e; auto; left; cbn; by rewrite requests_snoc, app_nil_r.
  - apply (ws_onmessage_frame localStreamRef); auto.
  - apply (ws_onmessage_frame localStream); auto.
  - intros Hm p.
    apply (preserves_at (fun s0 => opened p (log s0) = opened p (log s))); [|done].
    destruct m; try done; unfold ws_onmessage, handleWebSocketMessage.
    all: pres; leaf.
  - intros Hm p.
    apply (preserves_at (fun s0 => closed p (log s0) = closed p (log s))); [|done].
    destruct m; try done; unfold ws_onmessage, handleWebSocketMessage.
    all: pres; leaf.
Qed.


Lemma createPeerConnection_quiet p b s :
  (b = true -> rtc_ok browser p OpCreateOffer = false
               \/ rtc_ok browser p OpSetLocalDescription = false) ->
  silent_link p s (exec (createPeerConnection browser p b) s).
Proof.
  intros Hb. split; [apply createPeerConnection_has|].
  apply (preserves_at (fun s0 => sent (log s0) = sent (log s)
                                 /\ closed p (log s0) = closed p (log s))); [|done].
  unfold createPeerConnection.
  apply preserves_bind; [pres|]. intros has. destruct has; [pres|].
  apply preserves_bind; [pres; leaf|]. intros _.
  apply preserves_bind; [pres; leaf|]. intros _.
  apply preserves_bind; [pres|]. intros ls.
  apply preserves_bind; [pres; leaf|]. intros _.
  destruct b; [|pres]. destruct (Hb eq_refl) as [H|H].
  - unfold pc_createOffer. rewrite (rtc_step_fail _ _ _ H). pres.
  - unfold pc_createOffer, pc_setLocalDescription.
    destruct (rtc_ok browser p OpCreateOffer) eqn:E.
    + unfold rtc_step at 1. rewrite E.
      apply preserves_try_catch; [|intros ?; pres]. apply preserves_bind; [pres|]. intros o.
      rewrite (rtc_step_fail _ _ _ H). pres.
    + rewrite (rtc_step_fail _ _ _ E). pres.
Qed.

(** X7. A negotiation step that fails leaves a link behind.  When
    [createOffer] or [setLocalDescription] fails for a user who joined, or
    [setRemoteDescription], [createAnswer] or [setLocalDescription] fails
    for an offer received, the connection is (still) in the map, no offer or
    answer is sent, and nothing is closed. *)
Theorem failed_negotiation_leaves_a_silent_link (p : string) (s : State) :
  (forall u, user_id u = p -> p <> selfId s ->
     rtc_ok browser p OpCreateOffer = false
     \/ rtc_ok browser p OpSetLocalDescription = false ->
     silent_link p s (exec (ws_onmessage browser (user_joined u)) s))
  /\ (forall to o,
        rtc_ok browser p OpSetRemoteDescription = false
        \/ rtc_ok browser p OpCreateAnswer = false
        \/ rtc_ok browser p OpSetLocalDescription = false ->
        silent_link p s (exec (ws_onmessage browser (in_offer p to o)) s)).
Proof.
  split_and!.
  - intros u Hu Hne Hf. rewrite user_joined_spec. cbv zeta. rewrite Hu.
    apply String.eqb_neq in Hne. rewrite Hne.
    set (s0 := set_participants _ s).
    destruct (createPeerConnection_quiet p true s0 (fun _ => Hf)) as (H1 & H2 & H3).
    split_and!; cbn; [done|..].
    + rewrite sent_snoc. cbn. by rewrite app_nil_r.
    + rewrite closed_snoc, H3. cbn. lia.
  - intros to o Hf. unfold exec, ws_onmessage, handleWebSocketMessage, handleOffer.
    set (rest := bind (gets _) _).
    assert (Hrest : preserves (silent_link p s) rest).
    { subst rest. unfold silent_link. apply preserves_bind; [pres|].
      intros [pc|]; [|pres].
      unfold pc_setRemoteDescription, pc_createAnswer, pc_setLocalDescription.
      destruct (rtc_ok browser p OpSetRemoteDescription) eqn:E1.
      2:{ rewrite (rtc_step_fail _ _ _ E1). pres. }
      apply preserves_bind.
      { unfold rtc_step. rewrite E1. pres. leaf.
        erewrite map_has_by_keys; [done|]. by erewrite map_keys_update. }
      intros _.
      destruct (rtc_ok browser p OpCreateAnswer) eqn:E2.
      2:{ rewrite (rtc_step_fail _ _ _ E2). pres. }
      apply preserves_bind. { unfold rtc_step. rewrite E2. pres. }
      intros a.
      destruct Hf as [Hf|[Hf|Hf]]; try congruence.
      rewrite (rtc_step_fail _ _ _ Hf). pres. }
    pose proof (createPeerConnection_quiet p false s ltac:(done)) as H0.
    pose proof (createPeerConnection_no_throw browser p false s) as [[] Hd].
    fold (exec (try_catch (createPeerConnection browser p false ;; rest) (fun _ => ret tt)) s).
    rewrite exec_catch_ret, (exec_bind _ _ _ _ Hd). by apply Hrest.
Qed.

End Messages.

(** ** Remote streams *)

Lemma map_has_set_mono {V} q p (v : V) (m : list (string * V)) :
  map_has q m = true -> map_has q (map_set p v m) = true.
Proof.
  intros H. destruct (decide (q = p)) as [->|Hne].
  - apply map_has_set_eq.
  - by rewrite map_has_set_ne.
Qed.

Lemma streams_have_links_peers s s' :
  remoteStreams s' = remoteStreams s ->
  (forall q, map_has q (peersRef s) = true -> map_has q (peersRef s') = true) ->
  streams_have_links s -> streams_have_links s'.
Proof. unfold streams_have_links. intros -> Hm H p Hp. auto. Qed.

Ltac streams_leaf :=
  repeat case_match;
  lazymatch goal with
  | H : streams_have_links ?s |- streams_have_links _ =>
      apply (streams_have_links_peers s); [done| |done]; cbn;
      first [ done | intros ?; apply map_has_set_mono ]
  end.

Section Streams.
Variable browser : Browser.

Lemma closePeerConnection_streams p : preserves streams_have_links (closePeerConnection p).
Proof.
  intros s H.
  assert (Hs : (closePeerConnection p s).2 =
               set_remoteStreams (delete p (remoteStreams s))
                 (if map_has p (peersRef s)
                  then set_peersRef (map_delete p (peersRef s))
                         (set_log (log s ++ [EClosePeerConnection p]) s)
                  else s)).
  { unfold closePeerConnection, bind, gets, emit, modify, map_has.
    by destruct (map_get p (peersRef s)). }
  rewrite Hs. intros q Hq. cbn in Hq.
  destruct (decide (q = p)) as [->|Hne].
  - rewrite lookup_delete_eq in Hq. by destruct Hq.
  - rewrite lookup_delete_ne in Hq by done. specialize (H q Hq).
    destruct (map_has p (peersRef s)); cbn; [|done].
    by rewrite map_has_delete_ne.
Qed.

#[local] Hint Resolve closePeerConnection_streams : pres.

Lemma handle_streams ev :
  is_teardown ev = false -> preserves streams_have_links (handle browser ev).
Proof.
  intros Hev. destruct ev; try done.
  all: try lazymatch goal with
           | |- preserves _ (handle _ (EvTrack ?p ?r)) =>
               intros s H; unfold handle, bind, gets;
               destruct (map_has p (peersRef s)) eqn:E; [|done];
               intros q Hq; cbn in Hq |- *;
               destruct (decide (q = p)) as [->|Hne]; [done|];
               rewrite lookup_insert_ne in Hq by done; by apply H
           end.
  all: unfold handle.
  all: pres.
  all: try streams_leaf.
Qed.

(** X9. Every remote stream on show belongs to a peer that has a
    connection, in every state the component reaches from its initial one
    before it is torn down: an [ontrack] of a connection that was closed
    shows nothing, and closing a connection takes its stream away.  (The
    teardown itself closes the connections and leaves the streams.) *)
Theorem remote_streams_have_links (uid : string) (evs : list Event) :
  Forall (fun ev => is_teardown ev = false) evs ->
  streams_have_links (run browser evs (initialState uid)).
Proof.
  assert (H0 : streams_have_links (initialState uid)).
  { intros p [x Hx]. cbn in Hx. by rewrite lookup_empty in Hx. }
  revert H0. generalize (initialState uid).
  intros s H Hevs. revert s H.
  induction Hevs as [|ev evs Hev _ IH]; intros s H; [done|].
  cbn. apply IH. by apply handle_streams.
Qed.

End Streams.

Lemma remote_streams_have_links_witness :
  Forall (fun ev => is_teardown ev = false)
    (call_start ++ [EvSocketMessage 0 (user_joined bob); EvTrack "B" 7;
                    EvSocketMessage 0 (user_left bob); EvTrack "B" 8])
  /\ streams_have_links
       (run reliable
          (call_start ++ [EvSocketMessage 0 (user_joined bob); EvTrack "B" 7;
                          EvSocketMessage 0 (user_left bob); EvTrack "B" 8])
          (initialState "A")).
Proof.
  split; [repeat constructor|].
  apply (remote_streams_have_links reliable "A"). repeat constructor.
Defined.

(** ** Exceptions nobody catches, and the toggle buttons *)



Section Uncaught.
Variable browser : Browser.













End Uncaught.



(** ** What the media callbacks return *)


Lemma getVideoTracks_add_tracks ts m :
  getVideoTracks ts <> [] -> getVideoTracks (add_tracks (getVideoTracks ts) m) <> [].
Proof.
  intros H. destruct (getVideoTracks ts) as [|t l] eqn:E; [done|]. clear H.
  assert (Ht : t ∈ getVideoTracks ts) by (rewrite E; by left).
  unfold getVideoTracks in Ht. apply list_elem_of_filter in Ht as [Hk _].
  assert (Hin : t ∈ getVideoTracks (add_tracks (t :: l) m)).
  { unfold getVideoTracks. apply list_elem_of_filter. split; [done|].
    apply elem_of_add_tracks. right. by left. }
  intros Hnil. rewrite Hnil in Hin. by apply elem_of_nil in Hin.
Qed.

Lemma wp_for_each_stop ts (Q : unit -> State -> Prop) E s :
  Q tt (set_log (log s ++ map EStopTrack ts) s) -> wp (for_each ts stopTrack) Q E s.
Proof. intros H. unfold wp. by rewrite for_each_stop. Qed.

Ltac on_leaf :=
  repeat case_match;
  unfold microphone_on, camera_on in *; cbn in *; try done.

Ltac pure_leaf := repeat case_match; unfold dismissed in *; cbn in *; try done.

Section Media.
Variable browser : Browser.














Lemma camera_loop_no_throw ts :
  no_throw (forEachPeer (fun peerId =>
              for_each ts (attachTrack browser false peerId video) ;;
              renegotiate browser false peerId)).
Proof. nothrow. Qed.

Lemma camera_loop_camera_on ts' ts :
  preserves (camera_on ts')
    (forEachPeer (fun peerId =>
       for_each ts (attachTrack browser false peerId video) ;;
       renegotiate browser false peerId)).
Proof. pres; on_leaf. Qed.

Lemma enableCamera_wp r s :
  wp (enableCamera browser r)
     (fun b s' => b = negb (failed r)
                  /\ camera_result (getVideoTracks (acquired r)) b s')
     (fun _ _ => False) s.
Proof.
  unfold enableCamera, getUserMedia. destruct r as [m|n msg]; wp_steps.
  2:{ repeat case_match; wp_steps; done. }
  set (Q := fun (_ : unit) (s' : State) =>
              forall t, t ∈ getVideoTracks m -> t ∈ default [] (localStreamRef s')).
  apply wp_mono with (Q := Q) (E := fun _ _ => False); [| |done].
  { cbn [localStreamRef set_log].
    destruct (localStreamRef s) as [cur|]; wp_steps.
    - apply wp_for_each_stop. wp_steps. subst Q. cbn. intros t Ht.
      apply elem_of_add_tracks. by right.
    - subst Q. cbn. intros t Ht. unfold getVideoTracks in Ht.
      by apply list_elem_of_filter in Ht as [_ Ht]. }
  intros [] s1 Hs. subst Q. cbn beta in Hs. wp_steps.
  apply wp_loop with (I := camera_on (getVideoTracks m));
    [apply camera_loop_no_throw|apply camera_loop_camera_on| |].
  - unfold camera_on. by cbn.
  - intros _ s' Hs'. wp_steps. split; [done|]. revert Hs'.
    unfold camera_result, camera_on. by cbn.
Qed.

(** X12. [enableCamera] always returns, true exactly when the capture
    request succeeded.  After true the camera is not marked denied, video is
    enabled, and every video track of the answer is in the local stream,
    which is the stream shown; after false the camera is marked denied. *)
Theorem enableCamera_result_tells_the_state (r : GumResult) (s : State) :
  let b := negb (failed r) in
  enableCamera browser r s = (Done b, snd (enableCamera browser r s))
  /\ camera_result (getVideoTracks (acquired r)) b (snd (enableCamera browser r s)).
Proof.
  destruct (wp_total _ _ _ (enableCamera_wp r s)) as (b & Hb & -> & H2). done.
Qed.

End Media.

(** ** The local stream only grows *)

Lemma add_tracks_prefix ts m : m `prefix_of` add_tracks ts m.
Proof.
  unfold add_tracks. revert m. induction ts as [|t ts IH]; intros m; cbn; [done|].
  etrans; [|apply IH]. unfold stream_addTrack.
  destruct (existsb (Track_eqb t) m); [done|]. by apply prefix_app_r.
Qed.

Lemma grown_from_fields m s s' :
  localStreamRef s' = localStreamRef s -> grown_from m s -> grown_from m s'.
Proof. unfold grown_from. by intros ->. Qed.

Ltac grown_leaf :=
  repeat case_match;
  lazymatch goal with
  | H : grown_from _ ?s |- grown_from _ _ => by apply (grown_from_fields _ s)
  | H : localStreamRef ?s = _ |- localStreamRef _ = _ => by rewrite <- H
  end.

(** The place where a callback swaps tracks of the local stream: the old
    ones are stopped and stay, the new ones are added after them. *)
Lemma grown_swap {B} m (loop : MediaStream -> Js unit) ts X (k : Js B) :
  (forall cur, preserves (fun s => localStreamRef s = Some cur) (loop cur)) ->
  preserves (grown_from m) k ->
  preserves (grown_from m)
    (ls <- gets localStreamRef ;;
     match ls with
     | Some cur => loop cur ;; modify (set_localStreamRef (Some (add_tracks ts cur)))
     | None => modify (set_localStreamRef (Some X))
     end ;;
     k).
Proof.
  intros Hloop Hk s (m' & H & Hp). unfold bind at 1, gets at 1. rewrite H.
  unfold bind at 1, bind at 1.
  specialize (Hloop m' s H).
  destruct (loop m' s) as [[[]|e] s1]; cbn in *.
  - apply Hk. exists (add_tracks ts m'). split; [done|].
    etrans; [done|apply add_tracks_prefix].
  - by exists m'.
Qed.

Section Grows.
Variable browser : Browser.

Lemma detach_loop_keeps cur (ts : list Track) :
  preserves (fun s => localStreamRef s = Some cur)
    (for_each ts (fun track =>
       stopTrack track ;;
       forEachPeer (fun peerId => detachTrack peerId track))).
Proof. pres; grown_leaf. Qed.

Lemma stop_loop_keeps cur (ts : list Track) :
  preserves (fun s => localStreamRef s = Some cur) (for_each ts stopTrack).
Proof. pres; grown_leaf. Qed.

Lemma useFallbackStream_grows m fb : preserves (grown_from m) (useFallbackStream fb).
Proof.
  unfold useFallbackStream.
  apply (grown_swap m (fun cur => for_each (getAudioTracks cur) stopTrack)).
  - intros cur. apply stop_loop_keeps.
  - pres; grown_leaf.
Qed.


Lemma enableMicrophone_install_grows m a :
  preserves (grown_from m) (enableMicrophone_install browser a).
Proof.
  unfold enableMicrophone_install. cbv zeta.
  apply preserves_bind; [pres|]. intros _.
  apply (grown_swap m (fun cur => for_each (getAudioTracks cur) (fun track =>
            stopTrack track ;;
            forEachPeer (fun peerId => detachTrack peerId track)))).
  - intros cur. apply detach_loop_keeps.
  - pres; grown_leaf.
Qed.

Lemma refreshDeviceList_install_grows m a :
  preserves (grown_from m) (refreshDeviceList_install browser a).
Proof.
  unfold refreshDeviceList_install. cbv zeta.
  destruct (0 <? length (getAudioTracks a))%nat; [|pres; grown_leaf].
  apply (grown_swap m (fun cur => for_each (getAudioTracks cur) (fun track =>
            stopTrack track ;;
            forEachPeer (fun peerId => detachTrack peerId track)))).
  - intros cur. apply detach_loop_keeps.
  - pres; grown_leaf.
Qed.

Lemma enableCamera_grows m r : preserves (grown_from m) (enableCamera browser r).
Proof.
  unfold enableCamera. apply preserves_try_catch; [|intros ?; pres; grown_leaf].
  apply preserves_bind; [pres; grown_leaf|]. intros videoStream.
  apply (grown_swap m (fun cur => for_each (getVideoTracks cur) stopTrack)).
  - intros cur. apply stop_loop_keeps.
  - pres; grown_leaf.
Qed.

#[local] Hint Resolve useFallbackStream_grows enableMicrophone_install_grows
  refreshDeviceList_install_grows enableCamera_grows : pres.

Lemma enableMicrophone_grows m r1 r2 r3 :
  preserves (grown_from m) (enableMicrophone browser r1 r2 r3).
Proof. pres; grown_leaf. Qed.

#[local] Hint Resolve enableMicrophone_grows : pres.



End Grows.


(** ** The permission overlay *)



Section Overlay.
Variable browser : Browser.


Lemma retry_loop_dismissed :
  preserves dismissed
    (forEachPeer (fun peerId =>
       cur <- gets localStreamRef ;;
       for_each (default [] cur) (retryAttach browser peerId))).
Proof. pres; pure_leaf. Qed.





End Overlay.

(** ** A failed room lookup *)

Lemma requests_app l l' : requests (l ++ l') = requests l ++ requests l'.
Proof. unfold requests. by rewrite omap_app. Qed.

Lemma toasts_app l l' : toasts (l ++ l') = toasts l ++ toasts l'.
Proof. unfold toasts. by rewrite omap_app. Qed.

Section RoomLookup.


End RoomLookup.


(** ** Replacing the local stream, the enabled flags and the device list *)





Section Flags.
Variable browser : Browser.








End Flags.

(** ** The microphone probe *)

(** X17. [checkMicrophoneAvailable] always returns, and says false in two
    cases only: the browser has no [getUserMedia], or the enumeration
    answered without an audio input and the probe with [{ audio: true }]
    failed or brought no audio track.  It asks for the microphone only when
    the enumeration listed none, stops every track of the stream it got, and
    changes nothing of the component but the record of these requests. *)
Theorem checkMicrophoneAvailable_says (supported : bool) (e : EnumResult)
    (r : GumResult) (s : State) :
  let probes := supported && lists_no_microphone e in
  let b := supported && negb (lists_no_microphone e && (failed r || silent r)) in
  checkMicrophoneAvailable supported e r s =
  (Done b,
   set_log (log s
            ++ (if supported
                then match e with EnumUnsupported => [] | _ => [EEnumerateDevices] end
                else [])
            ++ (if probes then EGetUserMedia audio_true :: map EStopTrack (acquired r)
                else [])) s).
Proof.
  cbv zeta.
  destruct s as [me rid ic ls rs ae ve ps md cd rq mda w peers lsr rt socks tms lg].
  unfold checkMicrophoneAvailable, lists_no_microphone.
  destruct supported; [|cbn; by rewrite app_nil_r].
  destruct e as [| |devices].
  - cbn. by rewrite app_nil_r.
  - cbn. done.
  - unfold try_catch, bind, emit, modify, ret. cbn [negb fst snd log set_log].
    destruct (length (List.filter is_audioinput devices)) as [|n] eqn:En.
    + change (0 <? 0)%nat with false. cbv iota.
      unfold getUserMedia, bind, emit, modify. cbn [log set_log].
      destruct r as [m|name msg].
      * unfold ret at 1. rewrite for_each_stop. cbn.
        rewrite <- !app_assoc. cbn. by destruct (length (getAudioTracks m)).
      * cbn. by rewrite <- !app_assoc.
    + cbn. done.
Qed.

(** ** The address of the signaling socket *)

Lemma append_cons c p s : String.append (String c p) s = String c (String.append p s).
Proof. reflexivity. Qed.

Lemma prefix_cons c p d s :
  String.prefix (String c p) (String d s)
  = if Ascii.ascii_dec c d then String.prefix p s else false.
Proof. reflexivity. Qed.

Lemma prefix_append p s : String.prefix p (String.append p s) = true.
Proof.
  induction p as [|c p IH]; [by destruct s|].
  rewrite append_cons, prefix_cons. by destruct (Ascii.ascii_dec c c).
Qed.

Lemma string_drop_append p s : string_drop (String.length p) (String.append p s) = s.
Proof. induction p as [|c p IH]; [by destruct s|]. by rewrite append_cons. Qed.

Lemma replace_prefix pat rep s :
  replace pat rep (String.append pat s) = String.append rep s.
Proof.
  assert (H : forall t, String.prefix pat t = true ->
                        replace pat rep t
                        = String.append rep (string_drop (String.length pat) t)).
  { intros [|c t] Ht; cbn [replace]; by rewrite Ht. }
  rewrite H by apply prefix_append. by rewrite string_drop_append.
Qed.

Lemma prefix_true_append p s : String.prefix p s = true -> exists r, s = String.append p r.
Proof.
  revert s. induction p as [|c p IH]; intros s.
  - by exists s.
  - destruct s as [|d s]; [done|]. rewrite prefix_cons.
    destruct (Ascii.ascii_dec c d) as [->|]; [|done].
    intros H. destruct (IH s H) as [r ->]. by exists r.
Qed.

Lemma append_assoc a b c :
  String.append (String.append a b) c = String.append a (String.append b c).
Proof. induction a as [|x a IH]; [done|]. by rewrite !append_cons, IH. Qed.

(** X18. The signaling URL always has a WebSocket scheme.  An API URL that
    starts with [https://] gives [wss://] followed by the rest of it, one
    that starts with [http://] gives [ws://] followed by the rest (only the
    scheme is rewritten, a later occurrence of [http://] is left alone); any
    other API URL is kept whole and prefixed with the scheme that matches
    the protocol of the page.  Without a configured API URL the address is
    the one of the development server. *)
Theorem signaling_url_has_websocket_scheme :
  (forall rest protocol,
     wsUrl_of (String.append "https://" rest) protocol = String.append "wss://" rest
     /\ wsUrl_of (String.append "http://" rest) protocol = String.append "ws://" rest)
  /\ (forall apiUrl protocol,
        startsWith apiUrl "https://" = false -> startsWith apiUrl "http://" = false ->
        wsUrl_of apiUrl protocol =
        String.append (if String.eqb protocol "https:" then "wss://" else "ws://") apiUrl)
  /\ (forall encode env protocol room token uid full_name,
        let url := fullWsUrl encode env protocol room token uid full_name in
        startsWith url "ws://" = true \/ startsWith url "wss://" = true)
  /\ (forall encode protocol room token uid full_name,
        startsWith (fullWsUrl encode None protocol room token uid full_name)
          (String.append "ws://localhost:8000/api/webrtc/ws/" room) = true).
Proof.
  assert (H1 : forall rest protocol,
     wsUrl_of (String.append "https://" rest) protocol = String.append "wss://" rest
     /\ wsUrl_of (String.append "http://" rest) protocol = String.append "ws://" rest).
  { intros rest protocol. split.
    - unfold wsUrl_of, startsWith. rewrite prefix_append. apply replace_prefix.
    - unfold wsUrl_of, startsWith. rewrite prefix_append.
      assert (String.prefix "https://" (String.append "http://" rest) = false) as ->.
      { by destruct rest. }
      apply replace_prefix. }
  assert (H2 : forall apiUrl protocol,
        startsWith apiUrl "https://" = false -> startsWith apiUrl "http://" = false ->
        wsUrl_of apiUrl protocol =
        String.append (if String.eqb protocol "https:" then "wss://" else "ws://") apiUrl).
  { intros apiUrl protocol Hs Hp. unfold wsUrl_of. rewrite Hs, Hp.
    unfold strip_http. unfold startsWith in Hs, Hp. rewrite Hs, Hp.
    by destruct (String.eqb protocol "https:"). }
  assert (H3 : forall apiUrl protocol,
             startsWith (wsUrl_of apiUrl protocol) "ws://" = true
             \/ startsWith (wsUrl_of apiUrl protocol) "wss://" = true).
  { intros apiUrl protocol.
    destruct (startsWith apiUrl "https://") eqn:Es.
    - apply prefix_true_append in Es as [r ->]. rewrite (proj1 (H1 r protocol)).
      right. apply prefix_append.
    - destruct (startsWith apiUrl "http://") eqn:Ep.
      + apply prefix_true_append in Ep as [r ->]. rewrite (proj2 (H1 r protocol)).
        left. apply prefix_append.
      + rewrite H2 by done.
        destruct (String.eqb protocol "https:"); [right|left]; apply prefix_append. }
  split_and!; [done|done|..].
  - intros encode env protocol room token uid full_name url. subst url. unfold fullWsUrl.
    destruct (H3 (apiUrl_of env) protocol) as [H|H]; [left|right].
    all: unfold startsWith in *; apply prefix_true_append in H as [r ->].
    all: rewrite append_assoc; apply prefix_append.
  - intros encode protocol room token uid full_name. unfold fullWsUrl, apiUrl_of, or_else.
    change "http://localhost:8000" with (String.append "http://" "localhost:8000").
    rewrite (proj2 (H1 _ protocol)). unfold startsWith.
    change (String.append "ws://" "localhost:8000") with "ws://localhost:8000".
    rewrite <- !append_assoc.
    change (String.append "ws://localhost:8000" "/api/webrtc/ws/")
      with "ws://localhost:8000/api/webrtc/ws/".
    rewrite !append_assoc. rewrite <- (append_assoc _ room). apply prefix_append.
Qed.

(** ** The interceptors of the API client *)

Lemma response_error_interceptor_spec error p :
  response_error_interceptor error p =
  if expires_session error p
  then navigate "/login" (removeItem "user" (removeItem "token" p))
  else p.
Proof.
  unfold response_error_interceptor, expires_session.
  destruct (bool_decide (response_status error = Some 401%Z)); [|done]. cbv zeta.
  destruct (String.eqb (pathname p) "/login") eqn:E1; [done|].
  destruct (String.eqb (pathname p) "/register") eqn:E2; [done|]. cbn [orb negb andb].
  destruct (config_url error) as [url|]; [|done].
  destruct (includes url "/auth/login"); [done|].
  by destruct (includes url "/auth/register").
Qed.

(** X19. The error handler of the API client throws the session away on
    a 401 only: when the page is neither the login nor the register page and
    the request was not a login or register call, it removes the token and
    the user from the local storage and sends the browser to [/login], both
    or neither; every other stored item is kept.  In all other cases the
    page is left untouched. *)
Theorem unauthorized_response_ends_the_session (error : AxiosError) (p : Page) :
  let p' := response_error_interceptor error p in
  (if expires_session error p
   then localStorage p' !! "token" = None /\ localStorage p' !! "user" = None
        /\ location_href p' = Some "/login"
        /\ (forall k, k <> "token" -> k <> "user" ->
              localStorage p' !! k = localStorage p !! k)
   else p' = p)
  /\ (expires_session error p = true <->
      response_status error = Some 401%Z
      /\ pathname p <> "/login" /\ pathname p <> "/register"
      /\ forall url, config_url error = Some url ->
           includes url "/auth/login" = false /\ includes url "/auth/register" = false).
Proof.
  cbv zeta. rewrite response_error_interceptor_spec. split.
  - destruct (expires_session error p); [|done]. cbn. split_and!; [| |done|].
    + rewrite lookup_delete_ne by done. apply lookup_delete_eq.
    + apply lookup_delete_eq.
    + intros k H1 H2. by rewrite !lookup_delete_ne.
  - unfold expires_session. rewrite !andb_true_iff, !negb_true_iff, bool_decide_eq_true.
    rewrite !String.eqb_neq. split.
    + intros (((H1 & H2) & H3) & H4). split_and!; try done.
      intros url Hu. rewrite Hu in H4. apply andb_true_iff in H4 as [H4 H5].
      by rewrite !negb_true_iff in H4, H5.
    + intros (H1 & H2 & H3 & H4). split_and!; try done.
      destruct (config_url error) as [url|]; [|done].
      destruct (H4 url eq_refl) as [-> ->]. done.
Qed.

(** X20. The request interceptor adds the stored token as a bearer
    [Authorization] header and touches no other header; with no token
    stored, or an empty one, the headers leave as they came.  After the
    error handler has thrown the session away, requests carry no
    [Authorization] header of the client's making. *)
Theorem requests_carry_the_stored_token (p : Page) (headers : gmap string string) :
  let h := request_interceptor p headers in
  (forall k, k <> "Authorization" -> h !! k = headers !! k)
  /\ (forall token, localStorage p !! "token" = Some token -> token <> "" ->
        h !! "Authorization" = Some (String.append "Bearer " token))
  /\ (localStorage p !! "token" = None \/ localStorage p !! "token" = Some "" ->
      h = headers)
  /\ (forall error, expires_session error p = true ->
        request_interceptor (response_error_interceptor error p) headers = headers).
Proof.
  cbv zeta. unfold request_interceptor. split_and!.
  - intros k Hk. destruct (localStorage p !! "token") as [t|]; [|done].
    destruct (String.eqb t ""); [done|]. by rewrite lookup_insert_ne.
  - intros token -> Ht. apply String.eqb_neq in Ht. rewrite Ht. apply lookup_insert_eq.
  - by intros [-> | ->].
  - intros error He. rewrite response_error_interceptor_spec, He. cbn.
    rewrite lookup_delete_ne by done. by rewrite lookup_delete_eq.
Qed.

(** ** The rendered view *)

Lemma with_without f ls : with_tracks f ls = negb (without_tracks f ls).
Proof.
  destruct ls as [m|]; cbn; [|done]. destruct (length (f m)); done.
Qed.

(** X21. What is shown is consistent, in every state: the header carries
    exactly one microphone badge; the local tile shows the video element
    exactly when the label does not say "(No Video)"; the banner offering to
    grant all permissions is shown exactly when the tile says "No Media" and
    the permission overlay is down; while the overlay is up, no banner is
    shown; the Refresh
    button comes only with the "no device" text; the count in the header is
    in the plural exactly when it is not 1. *)
Theorem view_is_consistent (s : State) :
  length (header_badges s) = 1
  /\ (local_tile s = TileVideo <-> fst (local_label s) <> " (No Video)")
  /\ (local_tile s = TileAudioOnly -> header_badges s = [MicrophoneActive])
  /\ (grant_banner s = true <->
      local_tile s = TileNoMedia /\ overlay_shown s = false)
  /\ (overlay_shown s = true -> mic_banner s = None /\ grant_banner s = false)
  /\ (forall text, mic_banner s = Some (text, true) ->
        text = "No microphone device found. Please connect a microphone."
        /\ micDeviceAvailable s = Some false)
  /\ (snd (header_count s) = "participants" <-> fst (header_count s) <> 1).
Proof.
  unfold header_badges, local_tile, local_label, grant_banner, overlay_shown,
    mic_banner, header_count.
  rewrite !with_without.
  split_and!.
  - by destruct (without_tracks getAudioTracks (localStream s)).
  - destruct (without_tracks getVideoTracks (localStream s)); cbn.
    + destruct (without_tracks getAudioTracks (localStream s)); cbn;
        (split; intros H; [done|by destruct H]).
    + split; [|done]. intros _. destruct (videoEnabled s); intros [=].
  - destruct (without_tracks getVideoTracks (localStream s)); cbn; [|done].
    by destruct (without_tracks getAudioTracks (localStream s)).
  - unfold without_tracks. destruct (localStream s) as [m|]; cbn.
    + destruct (length (getVideoTracks m)), (length (getAudioTracks m)),
        (isRequestingPermissions s); cbn; split; (done || by intros []).
    + destruct (isRequestingPermissions s); cbn; split; (done || by intros []).
  - intros ->. rewrite !andb_false_r. done.
  - intros text. destruct (micPermissionDenied s && negb (isRequestingPermissions s));
      [|done].
    destruct (bool_decide (micDeviceAvailable s = Some false)) eqn:E; [|done].
    apply bool_decide_eq_true in E. by intros [= <-].
  - cbn. destruct (length (participants s)); cbn; split; (done || lia).
Qed.

Section ViewAfter.
Variable browser : Browser.



Lemma find_filter_other (p q : string) (l : list Participant) :
  q <> p ->
  List.find (fun x => String.eqb (user_id x) q)
    (filter (fun x => String.eqb (user_id x) p = false) l)
  = List.find (fun x => String.eqb (user_id x) q) l.
Proof.
  intros Hne. induction l as [|x l IH]; [done|]. rewrite filter_cons. cbn.
  destruct (String.eqb (user_id x) p) eqn:Ep.
  - rewrite decide_False by done. apply String.eqb_eq in Ep.
    assert (String.eqb (user_id x) q = false) as -> by (apply String.eqb_neq; congruence).
    done.
  - rewrite decide_True by done. cbn. by rewrite IH.
Qed.

(** X23. [user_left] takes the tile of the user who left off the screen and
    leaves every other remote tile as it was, stream and name. *)
Theorem user_left_removes_only_that_tile (u : Participant) (s : State) :
  let s' := exec (ws_onmessage browser (user_left u)) s in
  remote_tile s' (user_id u) = None
  /\ (forall q, q <> user_id u -> remote_tile s' q = remote_tile s q).
Proof.
  cbv zeta. rewrite user_left_spec. cbv zeta. unfold remote_tile.
  destruct (map_has (user_id u) (peersRef s)); cbn.
  all: split; [by rewrite lookup_delete_eq|].
  all: intros q Hq; rewrite lookup_delete_ne by done.
  all: by rewrite find_filter_other.
Qed.

End ViewAfter.
